(** * Queue manager and appointment scheduling of the coffee-shop assistant

    A shallow embedding of [app/models/queue.py] (the [QueueEntry],
    [Appointment] and [QueueManager] models) and of the queue and appointment
    operations of [app/services/queue_service.py] ([VirtualQueueService]),
    followed by the properties of the queue/appointment engine.

    Modelling conventions.
    - Python [int] is [Z]; list indices and lengths are [nat].
    - A naive [datetime] is a point on a linear time line, counted in
      microseconds (the resolution of Python's [datetime]); a [timedelta] is a
      difference of two such points.  [datetime.utcnow()] is an input [now]
      of every operation that reads the clock.
    - [QueueEntry] objects are mutable and shared between the caller and the
      queues, so the queues hold object references ([oid]) into an object
      store ([heap]); every field assignment of the source is a store update.
    - The values drawn from [uuid.uuid4()] ([queue_id], [appointment_id]) are
      inputs of the operation that draws them.
    - Notification delivery (SMS, e-mail, display) only prints; what remains of
      it in the model is the record appended to [notifications_sent]. *)

From Stdlib Require Import ZArith Lia.
From stdpp Require Import base decidable option list sorting gmap strings.

#[local] Set Warnings "-clear-no-such-hyp".

(** ** Enumerations *)

Inductive QueueType := WALK_IN | APPOINTMENT | DELIVERY | TAKEAWAY | DINE_IN.

Inductive QueueStatus :=
  WAITING | CALLED | PREPARING | READY | COMPLETED | CANCELLED | NO_SHOW.

Inductive AppointmentType :=
  | COFFEE_MEETING | COFFEE_DATE | BUSINESS_MEETING | STUDY_SESSION
  | CASUAL_MEETUP | THERAPY_SESSION | PICKUP_ORDER.

Inductive NotificationMethod := SMS | EMAIL | PUSH | IN_STORE_DISPLAY.

#[global] Instance QueueType_eq_dec : EqDecision QueueType.
Proof. solve_decision. Defined.
#[global] Instance QueueStatus_eq_dec : EqDecision QueueStatus.
Proof. solve_decision. Defined.
#[global] Instance NotificationMethod_eq_dec : EqDecision NotificationMethod.
Proof. solve_decision. Defined.

(** ** Time *)

Definition datetime := Z.
Definition timedelta := Z.
Bind Scope Z_scope with datetime timedelta.

Definition us_per_minute : Z := 60000000.
Definition us_per_hour : Z := 60 * us_per_minute.
Definition us_per_day : Z := 24 * us_per_hour.

(** [timedelta(minutes=m)] and [timedelta(hours=h)]. *)
Definition minutes (m : Z) : timedelta := (m * us_per_minute)%Z.
Definition hours (h : Z) : timedelta := (h * us_per_hour)%Z.

(** [t.hour] *)
Definition hour (t : datetime) : Z := ((t / us_per_hour) mod 24)%Z.

(** [t.replace(hour=h, minute=0, second=0, microsecond=0)] *)
Definition replace_hour (t : datetime) (h : Z) : datetime :=
  ((t / us_per_day) * us_per_day + h * us_per_hour)%Z.

(** ** QueueEntry *)

(** One element of [notifications_sent] (a dict with these four keys). *)
Record Notification := mkNotification {
  n_type : string;
  n_method : string;
  n_sent_at : datetime;
  n_success : bool }.

(** The fields no modelled operation reads or writes after construction
    ([session_id], [customer_id], [order_value], [created_at],
    [special_requests], [accessibility_needs], [dietary_restrictions]) are
    left out. *)
Record QueueEntry := mkQueueEntry {
  queue_id : string;
  queue_type : QueueType;
  status : QueueStatus;
  priority : Z;
  customer_name : string;
  customer_phone : option string;
  customer_email : option string;
  party_size : Z;
  order_id : option string;
  has_order : bool;
  estimated_prep_time : Z;
  estimated_ready_time : option datetime;
  called_at : option datetime;
  completed_at : option datetime;
  original_position : Z;
  current_position : Z;
  notification_methods : list NotificationMethod;
  notifications_sent : list Notification;
  table_number : option Z;
  seating_preference : option string }.

(** Field assignments [entry.f = v]. *)
Definition set_status (e : QueueEntry) (v : QueueStatus) : QueueEntry :=
  mkQueueEntry (queue_id e) (queue_type e) v (priority e) (customer_name e)
    (customer_phone e) (customer_email e) (party_size e) (order_id e)
    (has_order e) (estimated_prep_time e) (estimated_ready_time e)
    (called_at e) (completed_at e) (original_position e) (current_position e)
    (notification_methods e) (notifications_sent e) (table_number e)
    (seating_preference e).

Definition set_estimated_prep_time (e : QueueEntry) (v : Z) : QueueEntry :=
  mkQueueEntry (queue_id e) (queue_type e) (status e) (priority e)
    (customer_name e) (customer_phone e) (customer_email e) (party_size e)
    (order_id e) (has_order e) v (estimated_ready_time e)
    (called_at e) (completed_at e) (original_position e) (current_position e)
    (notification_methods e) (notifications_sent e) (table_number e)
    (seating_preference e).

Definition set_estimated_ready_time (e : QueueEntry) (v : option datetime)
  : QueueEntry :=
  mkQueueEntry (queue_id e) (queue_type e) (status e) (priority e)
    (customer_name e) (customer_phone e) (customer_email e) (party_size e)
    (order_id e) (has_order e) (estimated_prep_time e) v
    (called_at e) (completed_at e) (original_position e) (current_position e)
    (notification_methods e) (notifications_sent e) (table_number e)
    (seating_preference e).

Definition set_called_at (e : QueueEntry) (v : option datetime) : QueueEntry :=
  mkQueueEntry (queue_id e) (queue_type e) (status e) (priority e)
    (customer_name e) (customer_phone e) (customer_email e) (party_size e)
    (order_id e) (has_order e) (estimated_prep_time e) (estimated_ready_time e)
    v (completed_at e) (original_position e) (current_position e)
    (notification_methods e) (notifications_sent e) (table_number e)
    (seating_preference e).

Definition set_completed_at (e : QueueEntry) (v : option datetime)
  : QueueEntry :=
  mkQueueEntry (queue_id e) (queue_type e) (status e) (priority e)
    (customer_name e) (customer_phone e) (customer_email e) (party_size e)
    (order_id e) (has_order e) (estimated_prep_time e) (estimated_ready_time e)
    (called_at e) v (original_position e) (current_position e)
    (notification_methods e) (notifications_sent e) (table_number e)
    (seating_preference e).

Definition set_original_position (e : QueueEntry) (v : Z) : QueueEntry :=
  mkQueueEntry (queue_id e) (queue_type e) (status e) (priority e)
    (customer_name e) (customer_phone e) (customer_email e) (party_size e)
    (order_id e) (has_order e) (estimated_prep_time e) (estimated_ready_time e)
    (called_at e) (completed_at e) v (current_position e)
    (notification_methods e) (notifications_sent e) (table_number e)
    (seating_preference e).

Definition set_current_position (e : QueueEntry) (v : Z) : QueueEntry :=
  mkQueueEntry (queue_id e) (queue_type e) (status e) (priority e)
    (customer_name e) (customer_phone e) (customer_email e) (party_size e)
    (order_id e) (has_order e) (estimated_prep_time e) (estimated_ready_time e)
    (called_at e) (completed_at e) (original_position e) v
    (notification_methods e) (notifications_sent e) (table_number e)
    (seating_preference e).

Definition set_notification_methods (e : QueueEntry)
    (v : list NotificationMethod) : QueueEntry :=
  mkQueueEntry (queue_id e) (queue_type e) (status e) (priority e)
    (customer_name e) (customer_phone e) (customer_email e) (party_size e)
    (order_id e) (has_order e) (estimated_prep_time e) (estimated_ready_time e)
    (called_at e) (completed_at e) (original_position e) (current_position e)
    v (notifications_sent e) (table_number e) (seating_preference e).

Definition set_notifications_sent (e : QueueEntry) (v : list Notification)
  : QueueEntry :=
  mkQueueEntry (queue_id e) (queue_type e) (status e) (priority e)
    (customer_name e) (customer_phone e) (customer_email e) (party_size e)
    (order_id e) (has_order e) (estimated_prep_time e) (estimated_ready_time e)
    (called_at e) (completed_at e) (original_position e) (current_position e)
    (notification_methods e) v (table_number e) (seating_preference e).

Definition set_table_number (e : QueueEntry) (v : option Z) : QueueEntry :=
  mkQueueEntry (queue_id e) (queue_type e) (status e) (priority e)
    (customer_name e) (customer_phone e) (customer_email e) (party_size e)
    (order_id e) (has_order e) (estimated_prep_time e) (estimated_ready_time e)
    (called_at e) (completed_at e) (original_position e) (current_position e)
    (notification_methods e) (notifications_sent e) v (seating_preference e).

(** [QueueEntry.get_estimated_wait_time] *)
Definition entry_estimated_wait_time (e : QueueEntry)
    (queue_ahead avg_service_time : Z) : Z :=
  (queue_ahead * avg_service_time + estimated_prep_time e)%Z.

(** [QueueEntry.is_ready_for_notification]: no notification of that type
    was sent within the cooldown. *)
Definition is_ready_for_notification (e : QueueEntry) (notification_type : string)
    (cooldown_minutes : Z) (now : datetime) : bool :=
  let recent_notifications :=
    filter (λ n, n_type n = notification_type
                 ∧ (now - minutes cooldown_minutes < n_sent_at n)%Z)
           (notifications_sent e) in
  bool_decide (length recent_notifications = 0).

(** [QueueEntry.add_notification] *)
Definition add_notification (e : QueueEntry) (notification_type method : string)
    (success : bool) (now : datetime) : QueueEntry :=
  set_notifications_sent e
    (notifications_sent e ++ [mkNotification notification_type method now success]).

(** ** Appointment *)

(** [Appointment.status] is a plain string in the source; it is [apt_status]
    here because [status] names the field of [QueueEntry].  The fields no
    modelled operation reads ([queue_entry_id], [participant_names], the
    preferences, [created_at], [confirmed_at]) are left out. *)
Record Appointment := mkAppointment {
  appointment_id : string;
  appointment_type : AppointmentType;
  scheduled_time : datetime;
  duration_minutes : Z;
  organizer_name : string;
  organizer_phone : option string;
  organizer_email : option string;
  participant_count : Z;
  special_requirements : option string;
  apt_status : string;
  reminder_sent_24h : bool;
  reminder_sent_1h : bool }.

Definition set_reminder_sent_24h (a : Appointment) (v : bool) : Appointment :=
  mkAppointment (appointment_id a) (appointment_type a) (scheduled_time a)
    (duration_minutes a) (organizer_name a) (organizer_phone a)
    (organizer_email a) (participant_count a) (special_requirements a)
    (apt_status a) v (reminder_sent_1h a).

Definition set_reminder_sent_1h (a : Appointment) (v : bool) : Appointment :=
  mkAppointment (appointment_id a) (appointment_type a) (scheduled_time a)
    (duration_minutes a) (organizer_name a) (organizer_phone a)
    (organizer_email a) (participant_count a) (special_requirements a)
    (apt_status a) (reminder_sent_24h a) v.

(** [Appointment.should_send_reminder]:
    [abs(time_until - target_time) < timedelta(minutes=15)]. *)
Definition should_send_reminder (a : Appointment) (hours_before : Z)
    (now : datetime) : bool :=
  let time_until := (scheduled_time a - now)%Z in
  let target_time := hours hours_before in
  bool_decide (Z.abs (time_until - target_time) < minutes 15)%Z.

(** ** The object store *)

(** Identity of a [QueueEntry] object. *)
Definition oid := nat.

(** The store gives the current field values of every entry object. *)
Definition Heap := oid → QueueEntry.

(** Assignment to fields of the object [r]: the object becomes [e]. *)
Definition hset (h : Heap) (r : oid) (e : QueueEntry) : Heap :=
  λ x, if decide (x = r) then e else h x.

(** ** QueueManager *)

(** [current_queues] is a dict keyed by [QueueType]; [__init__] gives it all
    five keys, so it is a total function here, and when the manager is built
    without data (as [VirtualQueueService] builds it) the keys are inserted,
    and later iterated, in the order of the enumeration: [queue_order].
    [occupied_tables] maps a table number to a [queue_id].  The settings no
    operation reads ([max_queue_size], [opening_time], [closing_time],
    [daily_stats]) are left out. *)
Record QueueManager := mkQueueManager {
  heap : Heap;
  current_queues : QueueType → list oid;
  appointments : list Appointment;
  average_service_time : Z;
  total_tables : Z;
  available_tables : list Z;
  occupied_tables : gmap Z string }.

Definition queue_order : list QueueType :=
  [WALK_IN; APPOINTMENT; DELIVERY; TAKEAWAY; DINE_IN].

Definition with_heap (s : QueueManager) (h : Heap) : QueueManager :=
  mkQueueManager h (current_queues s) (appointments s)
    (average_service_time s) (total_tables s) (available_tables s)
    (occupied_tables s).

Definition with_queue (s : QueueManager) (qt : QueueType) (q : list oid)
  : QueueManager :=
  mkQueueManager (heap s)
    (λ x, if decide (x = qt) then q else current_queues s x)
    (appointments s) (average_service_time s) (total_tables s)
    (available_tables s) (occupied_tables s).

Definition with_appointments (s : QueueManager) (l : list Appointment)
  : QueueManager :=
  mkQueueManager (heap s) (current_queues s) l (average_service_time s)
    (total_tables s) (available_tables s) (occupied_tables s).

Definition with_tables (s : QueueManager) (avail : list Z)
    (occ : gmap Z string) : QueueManager :=
  mkQueueManager (heap s) (current_queues s) (appointments s)
    (average_service_time s) (total_tables s) avail occ.

(** [range(1, n + 1)] *)
Definition table_range (n : nat) : list Z := Z.of_nat <$> seq 1 n.

(** A manager with [n] tables, all free, and empty queues.  [h] holds the
    entry objects of the callers.  [QueueManager()] is [new_manager h 20]. *)
Definition new_manager (h : Heap) (n : nat) : QueueManager :=
  mkQueueManager h (λ _, []) [] 5 (Z.of_nat n) (table_range n) ∅.

(** [_update_positions]: [entry.current_position = i + 1] for every
    [(i, entry)] of [enumerate(queue)], here counting from [i]. *)
Fixpoint update_positions_from (h : Heap) (i : nat) (queue : list oid) : Heap :=
  match queue with
  | [] => h
  | r :: rest =>
      update_positions_from
        (hset h r (set_current_position (h r) (Z.of_nat i + 1))) (S i) rest
  end.

Definition _update_positions (s : QueueManager) (qt : QueueType)
  : QueueManager :=
  with_heap s (update_positions_from (heap s) 0 (current_queues s qt)).

(** The loop of [add_to_queue]: the index of the first existing entry whose
    priority the new priority [p] exceeds, counting from [i]. *)
Fixpoint first_lower (h : Heap) (p : Z) (i : nat) (queue : list oid)
  : option nat :=
  match queue with
  | [] => None
  | r :: rest =>
      if decide (p > priority (h r))%Z then Some i
      else first_lower h p (S i) rest
  end.

(** [position = len(queue)] unless the loop finds an index. *)
Definition insert_position (h : Heap) (p : Z) (queue : list oid) : nat :=
  default (length queue) (first_lower h p 0 queue).

(** [queue.insert(position, x)] *)
Definition list_insert_at {A} (position : nat) (x : A) (l : list A) : list A :=
  take position l ++ x :: drop position l.

(** [add_to_queue] up to and including [queue.insert(position, entry)]:
    the state at insertion time, and [position]. *)
Definition enqueue (s : QueueManager) (r : oid) : QueueManager * nat :=
  let qt := queue_type (heap s r) in
  let queue := current_queues s qt in
  let position := insert_position (heap s) (priority (heap s r)) queue in
  let e1 := set_original_position (heap s r) (Z.of_nat position + 1) in
  let e2 := set_current_position e1 (Z.of_nat position + 1) in
  let s1 := with_heap s (hset (heap s) r e2) in
  (with_queue s1 qt (list_insert_at position r queue), position).

(** [add_to_queue(entry)]: the new state and the returned position. *)
Definition add_to_queue (s : QueueManager) (r : oid) : QueueManager * Z :=
  let '(s1, position) := enqueue s r in
  (_update_positions s1 (queue_type (heap s r)), (Z.of_nat position + 1)%Z).

(** The inner loop of [remove_from_queue] and of the look-ups: the first
    [(i, entry)] of [enumerate(queue)] with [entry.queue_id == queue_id]. *)
Fixpoint find_entry (h : Heap) (qid : string) (i : nat) (queue : list oid)
  : option (nat * oid) :=
  match queue with
  | [] => None
  | r :: rest =>
      if decide (queue_id (h r) = qid) then Some (i, r)
      else find_entry h qid (S i) rest
  end.

(** The outer loop of [remove_from_queue] over the queue types [qts]. *)
Fixpoint remove_from_queues (s : QueueManager) (qid : string)
    (qts : list QueueType) : QueueManager * option oid :=
  match qts with
  | [] => (s, None)
  | qt :: rest =>
      match find_entry (heap s) qid 0 (current_queues s qt) with
      | Some (i, r) =>
          let s1 := with_queue s qt (delete i (current_queues s qt)) in
          (_update_positions s1 qt, Some r)
      | None => remove_from_queues s qid rest
      end
  end.

Definition remove_from_queue (s : QueueManager) (qid : string)
  : QueueManager * option oid :=
  remove_from_queues s qid queue_order.

(** [get_queue_position] *)
Fixpoint queue_position_in (s : QueueManager) (qid : string)
    (qts : list QueueType) : option Z :=
  match qts with
  | [] => None
  | qt :: rest =>
      match find_entry (heap s) qid 0 (current_queues s qt) with
      | Some (i, _) => Some (Z.of_nat i + 1)%Z
      | None => queue_position_in s qid rest
      end
  end.

Definition get_queue_position (s : QueueManager) (qid : string) : option Z :=
  queue_position_in s qid queue_order.

(** [get_estimated_wait_time] *)
Fixpoint estimated_wait_time_in (s : QueueManager) (qid : string)
    (qts : list QueueType) : option Z :=
  match qts with
  | [] => None
  | qt :: rest =>
      match find_entry (heap s) qid 0 (current_queues s qt) with
      | Some (i, r) =>
          Some (entry_estimated_wait_time (heap s r) (Z.of_nat i)
                  (average_service_time s))
      | None => estimated_wait_time_in s qid rest
      end
  end.

Definition get_estimated_wait_time (s : QueueManager) (qid : string)
  : option Z :=
  estimated_wait_time_in s qid queue_order.

(** [call_next_customer(queue_type)] at time [now]. *)
Definition call_next_customer (s : QueueManager) (qt : QueueType)
    (now : datetime) : QueueManager * option oid :=
  match current_queues s qt with
  | next_customer :: _ =>
      let e1 := set_status (heap s next_customer) CALLED in
      let e2 := set_called_at e1 (Some now) in
      (with_heap s (hset (heap s) next_customer e2), Some next_customer)
  | [] => (s, None)
  end.

(** The test [table_number and table_number in self.occupied_tables]: [None]
    and [0] are false. *)
Definition table_to_free (s : QueueManager) (table : option Z) : option Z :=
  match table with
  | Some t =>
      if decide (t ≠ 0%Z ∧ is_Some (occupied_tables s !! t)) then Some t
      else None
  | None => None
  end.

(** [complete_service(queue_id, table_number)] at time [now]. *)
Definition complete_service (s : QueueManager) (qid : string)
    (table : option Z) (now : datetime) : QueueManager * option oid :=
  match remove_from_queue s qid with
  | (s1, Some r) =>
      let e1 := set_status (heap s1 r) COMPLETED in
      let e2 := set_completed_at e1 (Some now) in
      let s2 := with_heap s1 (hset (heap s1) r e2) in
      match table_to_free s2 table with
      | Some t =>
          (with_tables s2 (available_tables s2 ++ [t])
             (delete t (occupied_tables s2)), Some r)
      | None => (s2, Some r)
      end
  | (s1, None) => (s1, None)
  end.

(** The inner loop of [assign_table] over one queue: the first entry with
    the given [queue_id] gets the table, then [break]. *)
Fixpoint record_table (h : Heap) (qid : string) (t : Z) (queue : list oid)
  : Heap :=
  match queue with
  | [] => h
  | r :: rest =>
      if decide (queue_id (h r) = qid)
      then hset h r (set_table_number (h r) (Some t))
      else record_table h qid t rest
  end.

(** [assign_table(queue_id, preference)]; [preference] is not read. *)
Definition assign_table (s : QueueManager) (qid : string)
    (preference : option string) : QueueManager * option Z :=
  match available_tables s with
  | [] => (s, None)
  | t :: rest =>
      let s1 := with_tables s rest (<[t := qid]> (occupied_tables s)) in
      let h := foldl (λ h qt, record_table h qid t (current_queues s1 qt))
                 (heap s1) queue_order in
      (with_heap s1 h, Some t)
  end.

(** ** VirtualQueueService *)

(** The service owns one [QueueManager]; [next_oid] is the identity the next
    constructed [QueueEntry] object gets.  The QR-code sessions, kept in a
    dict of their own that no queue or appointment operation reads, are left
    out. *)
Record VirtualQueueService := mkService {
  queue_manager : QueueManager;
  next_oid : oid }.

(** [VirtualQueueService()]: a [QueueManager()] with its 20 tables. *)
Definition new_service (h : Heap) : VirtualQueueService :=
  mkService (new_manager h 20) 0.

Definition with_manager (svc : VirtualQueueService) (s : QueueManager)
  : VirtualQueueService :=
  mkService s (next_oid svc).

(** What an operation can raise: [ValueError("Time slot not available")],
    and the validation error of a model constructor whose field constraints
    ([ge], [le]) are not met. *)
Inductive Failure := SlotUnavailable | ValidationError.

Inductive result (A : Type) :=
  | Ok (a : A)
  | Raise (f : Failure).
Arguments Ok {A} a.
Arguments Raise {A} f.

(** Truth value of an [Optional[str]]: [None] and the empty string are false. *)
Definition truthy (o : option string) : bool :=
  match o with
  | Some str => negb (bool_decide (str = ""%string))
  | None => false
  end.

(** [_send_notification]: the dispatch prints; the entry records the send. *)
Definition _send_notification (h : Heap) (r : oid) (template_name : string)
    (now : datetime) : Heap :=
  hset h r (add_notification (h r) template_name "multi" true now).

(** [_calculate_prep_time] *)
Definition _calculate_prep_time (order : option string) : Z := 5.

(** [QueueEntry(...)] as [join_queue] calls it: the given fields, defaults
    for the others, and the constraint [1 <= party_size <= 12] of the model.
    ([priority] is not passed and takes its default 0.) *)
Definition new_entry (qid : string) (qt : QueueType) (name : string)
    (phone email : option string) (size : Z) (order : option string)
  : result QueueEntry :=
  if decide (1 ≤ size ≤ 12)%Z then
    Ok (mkQueueEntry qid qt WAITING 0 name phone email size order
          (truthy order) 5 None None None 0 0 [] [] None None)
  else Raise ValidationError.

(** [join_queue]; [qid] is the generated [queue_id], [now] the clock when
    the ready time is estimated and [now_sent] when the notification is
    recorded.  The result is the state the call leaves and what it returns
    or raises. *)
Definition join_queue (svc : VirtualQueueService) (name : string)
    (qt : QueueType) (size : Z) (phone email special_requests session_id
    order : option string) (qid : string) (now now_sent : datetime)
  : VirtualQueueService * result oid :=
  match new_entry qid qt name phone email size order with
  | Raise f => (svc, Raise f)
  | Ok e0 =>
      let r := next_oid svc in
      let methods :=
        (if truthy phone then [SMS] else []) ++
        (if truthy email then [EMAIL] else []) ++ [IN_STORE_DISPLAY] in
      let e1 := set_notification_methods e0 methods in
      let e2 := if truthy order
                then set_estimated_prep_time e1 (_calculate_prep_time order)
                else e1 in
      let s0 := with_heap (queue_manager svc)
                  (hset (heap (queue_manager svc)) r e2) in
      let '(s1, position) := add_to_queue s0 r in
      let wait_time :=
        entry_estimated_wait_time (heap s1 r) (position - 1)
          (average_service_time s1) in
      let h2 := hset (heap s1) r
                  (set_estimated_ready_time (heap s1 r)
                     (Some (now + minutes wait_time)%Z)) in
      let h3 := _send_notification h2 r "queue_joined" now_sent in
      (mkService (with_heap s1 h3) (S r), Ok r)
  end.

(** The body of the inner loop of [update_queue_progress] for the entry [r]
    at index [i].  (The wait time computed there only goes into the text of
    the notification.) *)
Definition progress_entry (now : datetime) (h : Heap) (i : nat) (r : oid)
  : Heap :=
  if decide (status (h r) ≠ WAITING) then h
  else
    let position := (Z.of_nat i + 1)%Z in
    if decide (current_position (h r) - position >= 2)%Z then
      let h1 := hset h r (set_current_position (h r) position) in
      if is_ready_for_notification (h1 r) "progress" 5 now
      then _send_notification h1 r "queue_progress" now
      else h1
    else if bool_decide (position <= 2)%Z
              && is_ready_for_notification (h r) "ready_soon" 10 now
    then _send_notification h r "ready_soon" now
    else h.

Fixpoint progress_queue (now : datetime) (h : Heap) (i : nat)
    (queue : list oid) : Heap :=
  match queue with
  | [] => h
  | r :: rest => progress_queue now (progress_entry now h i r) (S i) rest
  end.

(** [update_queue_progress] *)
Definition update_queue_progress (svc : VirtualQueueService) (now : datetime)
  : VirtualQueueService :=
  let s := queue_manager svc in
  with_manager svc
    (with_heap s
       (foldl (λ h qt, progress_queue now h 0 (current_queues s qt))
              (heap s) queue_order)).

(** [VirtualQueueService.call_next_customer] *)
Definition svc_call_next_customer (svc : VirtualQueueService) (qt : QueueType)
    (now now_sent : datetime) : VirtualQueueService * option oid :=
  match call_next_customer (queue_manager svc) qt now with
  | (s1, None) => (with_manager svc s1, None)
  | (s1, Some r) =>
      let s2 := if decide (qt = DINE_IN)
                then fst (assign_table s1 (queue_id (heap s1 r))
                            (seating_preference (heap s1 r)))
                else s1 in
      (with_manager svc
         (with_heap s2 (_send_notification (heap s2) r "your_turn" now_sent)),
       Some r)
  end.

(** [VirtualQueueService.complete_service]: no table number is passed on. *)
Definition svc_complete_service (svc : VirtualQueueService) (qid : string)
    (now : datetime) : VirtualQueueService * option oid :=
  let '(s1, entry) := complete_service (queue_manager svc) qid None now in
  (with_manager svc s1, entry).

(** [cancel_queue_entry] *)
Definition cancel_queue_entry (svc : VirtualQueueService) (qid reason : string)
  : VirtualQueueService * bool :=
  match remove_from_queue (queue_manager svc) qid with
  | (s1, Some r) =>
      (with_manager svc
         (with_heap s1 (hset (heap s1) r (set_status (heap s1 r) CANCELLED))),
       true)
  | (s1, None) => (with_manager svc s1, false)
  end.

(** *** Appointments *)

(** The loop of [_is_time_slot_available]: does the interval meet that of an
    appointment that is not cancelled? *)
Fixpoint slot_conflict (apts : list Appointment) (start_time end_time : datetime)
  : bool :=
  match apts with
  | [] => false
  | appointment :: rest =>
      if decide (apt_status appointment = "cancelled"%string)
      then slot_conflict rest start_time end_time
      else
        let apt_start := scheduled_time appointment in
        let apt_end := (apt_start + minutes (duration_minutes appointment))%Z in
        if decide (start_time < apt_end ∧ end_time > apt_start)%Z then true
        else slot_conflict rest start_time end_time
  end.

(** [_is_time_slot_available] *)
Definition _is_time_slot_available (s : QueueManager) (start_time : datetime)
    (duration : Z) : bool :=
  let end_time := (start_time + minutes duration)%Z in
  if slot_conflict (appointments s) start_time end_time then false
  else if decide (hour start_time < 8 ∨ hour start_time >= 20)%Z then false
  else true.

(** [Appointment(...)] as [schedule_appointment] calls it, with the
    constraints [15 <= duration_minutes <= 240] and
    [1 <= participant_count <= 8] of the model. *)
Definition new_appointment (apt_id : string) (ty : AppointmentType)
    (time : datetime) (duration : Z) (name : string)
    (phone email : option string) (count : Z) (requirements : option string)
    (st : string) : result Appointment :=
  if decide ((15 ≤ duration ≤ 240)%Z ∧ (1 ≤ count ≤ 8)%Z) then
    Ok (mkAppointment apt_id ty time duration name phone email count
          requirements st false false)
  else Raise ValidationError.

(** [schedule_appointment]; [apt_id] is the generated [appointment_id].
    The confirmation that follows the append only prints.  The result is the
    state the call leaves and what it returns or raises. *)
Definition schedule_appointment (svc : VirtualQueueService) (name : string)
    (ty : AppointmentType) (time : datetime) (duration count : Z)
    (phone email requirements : option string) (apt_id : string)
  : VirtualQueueService * result Appointment :=
  let s := queue_manager svc in
  if negb (_is_time_slot_available s time duration)
  then (svc, Raise SlotUnavailable)
  else
    match new_appointment apt_id ty time duration name phone email count
            requirements "confirmed" with
    | Raise f => (svc, Raise f)
    | Ok appointment =>
        (with_manager svc
           (with_appointments s (appointments s ++ [appointment])),
         Ok appointment)
    end.

(** The [while] loop of [get_available_slots], run for at most [fuel]
    iterations; [None] when the fuel is used up before the loop ends. *)
Fixpoint slots_loop (fuel : nat) (s : QueueManager) (duration : Z)
    (end_time current_time : datetime) (slots : list datetime)
  : option (list datetime) :=
  match fuel with
  | O => None
  | S fuel' =>
      if decide (current_time + minutes duration <= end_time)%Z then
        slots_loop fuel' s duration end_time (current_time + minutes 15)%Z
          (if _is_time_slot_available s current_time duration
           then slots ++ [current_time] else slots)
      else Some slots
  end.

(** Iterations the loop can need: one per quarter of an hour from
    [start_time] up to [end_time - duration], and the one that leaves it. *)
Definition slots_fuel (duration : Z) (start_time end_time : datetime) : nat :=
  S (Z.to_nat ((end_time - minutes duration - start_time) / minutes 15 + 1)).

(** [get_available_slots] *)
Definition get_available_slots (svc : VirtualQueueService) (date : datetime)
    (ty : AppointmentType) (duration : Z) : option (list datetime) :=
  let start_time := replace_hour date 8 in
  let end_time := replace_hour date 20 in
  slots_loop (slots_fuel duration start_time end_time) (queue_manager svc)
    duration end_time start_time [].

(** The body of the loop of [process_appointment_reminders]. *)
Definition remind (now : datetime) (a : Appointment) : Appointment :=
  if decide (apt_status a ≠ "confirmed"%string) then a
  else
    let a1 := if negb (reminder_sent_24h a) && should_send_reminder a 24 now
              then set_reminder_sent_24h a true else a in
    if negb (reminder_sent_1h a1) && should_send_reminder a1 1 now
    then set_reminder_sent_1h a1 true else a1.

(** [process_appointment_reminders] *)
Definition process_appointment_reminders (svc : VirtualQueueService)
    (now : datetime) : VirtualQueueService :=
  let s := queue_manager svc in
  with_manager svc (with_appointments s (remind now <$> appointments s)).

(** ** Runs *)

(** The calls a client can make on a [QueueManager]. *)
Inductive Op :=
  | AddToQueue (r : oid)
  | RemoveFromQueue (qid : string)
  | CallNextCustomer (qt : QueueType) (now : datetime)
  | CompleteService (qid : string) (table : option Z) (now : datetime)
  | AssignTable (qid : string) (preference : option string).

Definition step (s : QueueManager) (o : Op) : QueueManager :=
  match o with
  | AddToQueue r => (add_to_queue s r).1
  | RemoveFromQueue qid => (remove_from_queue s qid).1
  | CallNextCustomer qt now => (call_next_customer s qt now).1
  | CompleteService qid table now => (complete_service s qid table now).1
  | AssignTable qid preference => (assign_table s qid preference).1
  end.

Definition run (s : QueueManager) (ops : list Op) : QueueManager :=
  foldl step s ops.

(** Every [add_to_queue] of the run is given an entry object that is not
    in its target queue at that moment. *)
Fixpoint fresh_adds (s : QueueManager) (ops : list Op) : bool :=
  match ops with
  | [] => true
  | o :: rest =>
      match o with
      | AddToQueue r =>
          bool_decide (r ∉ current_queues s (queue_type (heap s r)))
      | _ => true
      end && fresh_adds (step s o) rest
  end.

(** [ops] holds no [remove_from_queue] and no [complete_service]. *)
Definition no_removal (ops : list Op) : bool :=
  forallb (λ o, match o with
                | RemoveFromQueue _ | CompleteService _ _ _ => false
                | _ => true
                end) ops.

(** No operation of [ops], run from [s], takes the front of the queue [qt]
    away from an entry of priority [p]: none is a [remove_from_queue] or a
    [complete_service], and every [add_to_queue] is given an entry that goes
    to another queue or whose priority is not higher than [p]. *)
Fixpoint front_kept (s : QueueManager) (qt : QueueType) (p : Z)
    (ops : list Op) : bool :=
  match ops with
  | [] => true
  | o :: rest =>
      match o with
      | AddToQueue r =>
          bool_decide (queue_type (heap s r) ≠ qt ∨ (priority (heap s r) ≤ p)%Z)
      | RemoveFromQueue _ | CompleteService _ _ _ => false
      | CallNextCustomer _ _ | AssignTable _ _ => true
      end && front_kept (step s o) qt p rest
  end.

(** The calls a client can make on a [VirtualQueueService] that change its
    state (the others only read it). *)
Inductive SvcOp :=
  | JoinQueue (name : string) (qt : QueueType) (size : Z)
      (phone email special_requests session_id order : option string)
      (qid : string) (now now_sent : datetime)
  | UpdateQueueProgress (now : datetime)
  | SvcCallNextCustomer (qt : QueueType) (now now_sent : datetime)
  | SvcCompleteService (qid : string) (now : datetime)
  | CancelQueueEntry (qid reason : string)
  | ScheduleAppointment (name : string) (ty : AppointmentType)
      (time : datetime) (duration count : Z)
      (phone email requirements : option string) (apt_id : string)
  | ProcessAppointmentReminders (now : datetime).

Definition svc_step (svc : VirtualQueueService) (o : SvcOp)
  : VirtualQueueService :=
  match o with
  | JoinQueue name qt size phone email special_requests session_id order qid
      now now_sent =>
      (join_queue svc name qt size phone email special_requests session_id
         order qid now now_sent).1
  | UpdateQueueProgress now => update_queue_progress svc now
  | SvcCallNextCustomer qt now now_sent =>
      (svc_call_next_customer svc qt now now_sent).1
  | SvcCompleteService qid now => (svc_complete_service svc qid now).1
  | CancelQueueEntry qid reason => (cancel_queue_entry svc qid reason).1
  | ScheduleAppointment name ty time duration count phone email requirements
      apt_id =>
      (schedule_appointment svc name ty time duration count phone email
         requirements apt_id).1
  | ProcessAppointmentReminders now => process_appointment_reminders svc now
  end.

Definition svc_run (svc : VirtualQueueService) (ops : list SvcOp)
  : VirtualQueueService :=
  foldl svc_step svc ops.

(** [add_to_queue] for each entry of [rs] in turn. *)
Definition add_all (s : QueueManager) (rs : list oid) : QueueManager :=
  foldl (λ s r, (add_to_queue s r).1) s rs.

(** ** Sample data *)

(** [QueueEntry(customer_name=name, queue_id=qid, priority=p)]: a walk-in
    entry with the defaults of the model. *)
Definition walk_in (qid : string) (p : Z) : QueueEntry :=
  mkQueueEntry qid WALK_IN WAITING p qid None None 1 None false 5 None None
    None 0 0 [] [] None None.

(** Three entry objects with priorities 0, 0 and 5. *)
Definition three_walk_ins : Heap :=
  λ r, match r with
       | 0 => walk_in "first" 0
       | 1 => walk_in "second" 0
       | _ => walk_in "third" 5
       end.

(** A store for runs of the service, which constructs its own entries. *)
Definition no_entries : Heap := λ _, walk_in "" 0.

(** Times of day on the first day of the time line. *)
Definition at_time (h m : Z) : datetime := (h * us_per_hour + m * us_per_minute)%Z.

(** ** Properties stated over the model *)

(** Every queued entry's [current_position] is its 1-based index. *)
Definition positions_ok (s : QueueManager) : Prop :=
  ∀ qt (i : nat) (r : oid),
    current_queues s qt !! i = Some r →
    current_position (heap s r) = (Z.of_nat i + 1)%Z.

(** Every table of [1..n] is free or occupied, and not both. *)
Definition tables_ok (n : nat) (s : QueueManager) : Prop :=
  NoDup (available_tables s)
  ∧ list_to_set (available_tables s) ∩ dom (occupied_tables s) = (∅ : gset Z)
  ∧ list_to_set (available_tables s) ∪ dom (occupied_tables s)
    = (list_to_set (table_range n) : gset Z).

(** The half-open intervals of two appointments share a point in time. *)
Definition intervals_overlap (a b : Appointment) : Prop :=
  ∃ t : datetime,
    (scheduled_time a ≤ t < scheduled_time a + minutes (duration_minutes a))%Z
    ∧ (scheduled_time b ≤ t < scheduled_time b + minutes (duration_minutes b))%Z.

(** The candidate start times of a date: every quarter of an hour from 8:00. *)
Definition candidate (date t : datetime) : Prop :=
  ∃ k : Z, (0 ≤ k)%Z ∧ t = (replace_hour date 8 + k * minutes 15)%Z.

(** The fields that identify and classify an entry are the same in [h']
    as in [h], for every object. *)
Definition static_eq (h h' : Heap) : Prop :=
  ∀ x, queue_id (h' x) = queue_id (h x)
       ∧ queue_type (h' x) = queue_type (h x)
       ∧ priority (h' x) = priority (h x).

(** The queue is ordered by decreasing priority. *)
Definition by_priority (h : Heap) (queue : list oid) : Prop :=
  StronglySorted (λ a b, (priority (h a) >= priority (h b))%Z) queue.

(** The fields of the manager other than the store and the queues. *)
Definition same_tables (s s' : QueueManager) : Prop :=
  available_tables s' = available_tables s
  ∧ occupied_tables s' = occupied_tables s.

Definition same_settings (s s' : QueueManager) : Prop :=
  appointments s' = appointments s
  ∧ average_service_time s' = average_service_time s
  ∧ total_tables s' = total_tables s.

(** No queue holds an object twice, every queued object is in the queue of
    its type, and the positions are the indices. *)
Definition queues_ok (s : QueueManager) : Prop :=
  (∀ qt, NoDup (current_queues s qt))
  ∧ (∀ qt r, r ∈ current_queues s qt → queue_type (heap s r) = qt)
  ∧ positions_ok s.

(** All appointments are confirmed, and no two of them overlap. *)
Definition appointments_ok (l : list Appointment) : Prop :=
  Forall (λ a, apt_status a = "confirmed"%string) l
  ∧ ∀ (i j : nat) a b,
      i ≠ j → l !! i = Some a → l !! j = Some b → ¬ intervals_overlap a b.

(** The queues of the service are in order, and every queued object was
    constructed by the service. *)
Definition svc_ok (svc : VirtualQueueService) : Prop :=
  queues_ok (queue_manager svc)
  ∧ ∀ qt r, r ∈ current_queues (queue_manager svc) qt → r < next_oid svc.

(** ** Further operations of the models and of the service *)

(** One value of the dict [get_queue_summary] returns per queue type. *)
Record QueueSummary := mkQueueSummary {
  total : Z;
  waiting : Z;
  called : Z;
  preparing : Z;
  estimated_wait : Z }.

(** The value under the key ["overall"]. *)
Record OverallSummary := mkOverallSummary {
  total_waiting : Z;
  overall_available_tables : Z;
  overall_occupied_tables : Z;
  average_wait_time : Z }.

(** [len([e for e in queue if e.status == st])] *)
Definition count_status (h : Heap) (st : QueueStatus) (queue : list oid) : Z :=
  Z.of_nat (length (filter (λ r, status (h r) = st) queue)).

Definition queue_summary (s : QueueManager) (qt : QueueType) : QueueSummary :=
  let queue := current_queues s qt in
  let waiting_count := count_status (heap s) WAITING queue in
  mkQueueSummary (Z.of_nat (length queue)) waiting_count
    (count_status (heap s) CALLED queue)
    (count_status (heap s) PREPARING queue)
    (waiting_count * average_service_time s).

Definition overall_summary (s : QueueManager) : OverallSummary :=
  let total_waiting :=
    foldl (λ acc qt,
             (acc + count_status (heap s) WAITING (current_queues s qt))%Z)
          0%Z queue_order in
  mkOverallSummary total_waiting
    (Z.of_nat (length (available_tables s)))
    (Z.of_nat (size (occupied_tables s)))
    (total_waiting * average_service_time s).

(** [get_queue_summary]: the summaries per queue type and the overall one. *)
Definition get_queue_summary (s : QueueManager)
  : (QueueType → QueueSummary) * OverallSummary :=
  (queue_summary s, overall_summary s).

(** The dict [get_queue_status] returns (without [created_at], which the
    model of the entry leaves out). *)
Record StatusReport := mkStatusReport {
  report_queue_id : string;
  report_status : QueueStatus;
  report_position : option Z;
  report_estimated_wait_time : option Z;
  report_estimated_ready_time : option datetime;
  report_party_size : Z;
  report_table_number : option Z;
  report_has_order : bool }.

(** The search loop of [get_queue_status]: the first entry with the
    identifier, in the first queue that has one. *)
Fixpoint find_in_queues (s : QueueManager) (qid : string)
    (qts : list QueueType) : option oid :=
  match qts with
  | [] => None
  | qt :: rest =>
      match find_entry (heap s) qid 0 (current_queues s qt) with
      | Some (_, r) => Some r
      | None => find_in_queues s qid rest
      end
  end.

(** [get_queue_status] *)
Definition get_queue_status (svc : VirtualQueueService) (qid : string)
  : option StatusReport :=
  let s := queue_manager svc in
  match find_in_queues s qid queue_order with
  | None => None
  | Some r =>
      let entry := heap s r in
      Some (mkStatusReport qid (status entry) (get_queue_position s qid)
              (get_estimated_wait_time s qid) (estimated_ready_time entry)
              (party_size entry) (table_number entry) (has_order entry))
  end.

(** The notifications the body of the loop of
    [process_appointment_reminders] sends for one appointment, by template
    name. *)
Definition reminders_due (now : datetime) (a : Appointment) : list string :=
  if decide (apt_status a ≠ "confirmed"%string) then []
  else
    let first := negb (reminder_sent_24h a) && should_send_reminder a 24 now in
    let a1 := if first then set_reminder_sent_24h a true else a in
    (if first then ["appointment_reminder_24h"%string] else []) ++
    (if negb (reminder_sent_1h a1) && should_send_reminder a1 1 now
     then ["appointment_reminder_1h"%string] else []).

(** The notifications sent for one appointment over successive calls of
    [process_appointment_reminders] at the times [nows]. *)
Fixpoint reminders_log (nows : list datetime) (a : Appointment) : list string :=
  match nows with
  | [] => []
  | now :: rest => reminders_due now a ++ reminders_log rest (remind now a)
  end.

(** [assign_table] for each [queue_id] of [qids] in turn: the final state
    and the tables returned. *)
Fixpoint assign_tables (s : QueueManager) (qids : list string)
  : QueueManager * list (option Z) :=
  match qids with
  | [] => (s, [])
  | qid :: rest =>
      let '(s1, t) := assign_table s qid None in
      let '(s2, ts) := assign_tables s1 rest in
      (s2, t :: ts)
  end.

(** *** QR-code sessions *)

Module QRCodeSession.

Record t := mk {
  qr_id : string;
  table_number : Z;
  session_id : option string;
  generated_at : datetime;
  expires_at : datetime;
  scans : Z;
  last_scanned_at : option datetime;
  active_sessions : list string;
  occupied : bool;
  customer_name : option string;
  party_size : option Z }.

(** [QRCodeSession(table_number=table)]: [id] is the generated [qr_id],
    [now] and [now'] the clock when [generated_at] and [expires_at] take
    their defaults. *)
Definition new (id : string) (table : Z) (now now' : datetime) : t :=
  mk id table None now (now' + hours 8) 0 None [] false None None.

(** [is_valid] *)
Definition is_valid (q : t) (now : datetime) : bool :=
  bool_decide (now < expires_at q)%Z.

(** [scan(session_id)]: [now] is the clock of the validity check and [now']
    the clock stored in [last_scanned_at]. *)
Definition scan (q : t) (sid : string) (now now' : datetime) : t * bool :=
  if negb (is_valid q now) then (q, false)
  else
    (mk (qr_id q) (table_number q) (session_id q) (generated_at q)
       (expires_at q) (scans q + 1) (Some now')
       (if decide (sid ∈ active_sessions q) then active_sessions q
        else active_sessions q ++ [sid])
       (occupied q) (customer_name q) (party_size q),
     true).

(** [occupy_table] *)
Definition occupy_table (q : t) (name : string) (size : Z) : t :=
  mk (qr_id q) (table_number q) (session_id q) (generated_at q)
    (expires_at q) (scans q) (last_scanned_at q) (active_sessions q)
    true (Some name) (Some size).

(** [free_table] *)
Definition free_table (q : t) : t :=
  mk (qr_id q) (table_number q) (session_id q) (generated_at q)
    (expires_at q) (scans q) (last_scanned_at q) [] false None None.

(** [scan] for each [(session_id, now, now')] of [l] in turn. *)
Definition scan_all (q : t) (l : list (string * datetime * datetime)) : t :=
  foldl (λ q x, (scan q x.1.1 x.1.2 x.2).1) q l.

End QRCodeSession.

(** [generate_table_qr]: the session is stored under its generated [qr_id];
    the image of the code, made by an external library, is left out. *)
Definition generate_table_qr (sessions : gmap string QRCodeSession.t)
    (table : Z) (id : string) (now now' : datetime)
  : gmap string QRCodeSession.t * string :=
  (<[id := QRCodeSession.new id table now now']> sessions, id).

(** [scan_table_qr]: the new sessions and, on success, the table number of
    the returned dict. *)
Definition scan_table_qr (sessions : gmap string QRCodeSession.t)
    (id sid : string) (now now' : datetime)
  : gmap string QRCodeSession.t * option Z :=
  match sessions !! id with
  | None => (sessions, None)
  | Some qr_session =>
      match QRCodeSession.scan qr_session sid now now' with
      | (q, false) => (<[id := q]> sessions, None)
      | (q, true) =>
          (<[id := q]> sessions, Some (QRCodeSession.table_number q))
      end
  end.

(** The calls a client can make on a [QRCodeSession]. *)
Inductive QROp :=
  | QRScan (sid : string) (now now' : datetime)
  | QROccupyTable (name : string) (size : Z)
  | QRFreeTable.

Definition qr_step (q : QRCodeSession.t) (o : QROp) : QRCodeSession.t :=
  match o with
  | QRScan sid now now' => (QRCodeSession.scan q sid now now').1
  | QROccupyTable name size => QRCodeSession.occupy_table q name size
  | QRFreeTable => QRCodeSession.free_table q
  end.

Definition qr_run (q : QRCodeSession.t) (ops : list QROp) : QRCodeSession.t :=
  foldl qr_step q ops.

(** [o] is a scan made before [expiry]. *)
Definition scanned_before (expiry : datetime) (o : QROp) : bool :=
  match o with
  | QRScan _ now _ => bool_decide (now < expiry)%Z
  | _ => false
  end.

(** Where the scans over the queues stop: the first entry with the
    identifier in the first queue of [qts] that has one, with its queue type
    and its index. *)
Fixpoint locate (s : QueueManager) (qid : string) (qts : list QueueType)
  : option (QueueType * nat * oid) :=
  match qts with
  | [] => None
  | qt :: rest =>
      match find_entry (heap s) qid 0 (current_queues s qt) with
      | Some (i, r) => Some (qt, i, r)
      | None => locate s qid rest
      end
  end.

(** No queued entry has the identifier. *)
Definition unknown_id (s : QueueManager) (qid : string) : Prop :=
  ∀ qt r, r ∈ current_queues s qt → queue_id (heap s r) ≠ qid.

(** Every queued entry of the service has the default priority. *)
Definition svc_plain (svc : VirtualQueueService) : Prop :=
  ∀ qt r, r ∈ current_queues (queue_manager svc) qt →
          priority (heap (queue_manager svc) r) = 0%Z.

(** [o] is not a call of [join_queue]. *)
Definition not_join (o : SvcOp) : Prop :=
  match o with
  | JoinQueue _ _ _ _ _ _ _ _ _ _ _ => False
  | _ => True
  end.

(** The appointment list holds a confirmed appointment at [time] for
    [duration] minutes. *)
Definition booked (svc : VirtualQueueService) (time : datetime)
    (duration : Z) : Prop :=
  ∃ b, b ∈ appointments (queue_manager svc)
       ∧ scheduled_time b = time ∧ duration_minutes b = duration
       ∧ apt_status b = "confirmed"%string.

(** What [update_queue_progress] at [now] may do to an entry [e]: nothing,
    or record one [ready_soon] notification, and that only for a waiting
    entry in position 1 or 2 that is ready for it. *)
Definition progress_effect (now : datetime) (e e' : QueueEntry) : Prop :=
  e' = e
  ∨ (e' = add_notification e "ready_soon" "multi" true now
     ∧ status e = WAITING
     ∧ (current_position e ≤ 2)%Z
     ∧ is_ready_for_notification e "ready_soon" 10 now = true).

(** * The object store *)

Lemma hset_eq h r e : hset h r e r = e.
Proof. unfold hset. by rewrite decide_True. Qed.

Lemma hset_ne h r e x : x ≠ r → hset h r e x = h x.
Proof. intros. unfold hset. by rewrite decide_False. Qed.

Lemma static_eq_refl h : static_eq h h.
Proof. by intros x. Qed.

Lemma static_eq_trans h1 h2 h3 :
  static_eq h1 h2 → static_eq h2 h3 → static_eq h1 h3.
Proof.
  intros H12 H23 x. destruct (H12 x) as (?&?&?), (H23 x) as (?&?&?).
  repeat split; congruence.
Qed.

Lemma static_eq_hset h r e :
  queue_id e = queue_id (h r) → queue_type e = queue_type (h r) →
  priority e = priority (h r) → static_eq h (hset h r e).
Proof.
  intros ??? x. unfold hset. by destruct (decide (x = r)) as [->|].
Qed.

#[local] Hint Resolve static_eq_refl static_eq_hset : core.

(** * Position recomputation *)

Lemma update_positions_from_notin h i queue x :
  x ∉ queue → update_positions_from h i queue x = h x.
Proof.
  revert h i. induction queue as [|r rest IH]; intros h i Hx; simpl; [done|].
  apply not_elem_of_cons in Hx as [? ?]. rewrite IH by done. by apply hset_ne.
Qed.

(** An object gets the position of its last occurrence in the queue. *)
Lemma update_positions_from_last h i l1 r l2 :
  r ∉ l2 →
  update_positions_from h i (l1 ++ r :: l2) r
  = set_current_position (h r) (Z.of_nat (i + length l1) + 1).
Proof.
  intros Hr. revert h i. induction l1 as [|a l1 IH]; intros h i; simpl.
  - rewrite update_positions_from_notin by done. rewrite hset_eq.
    by rewrite Nat.add_0_r.
  - rewrite IH. replace (S i + length l1) with (i + S (length l1)) by lia.
    unfold hset. by destruct (decide (r = a)) as [->|].
Qed.

Lemma update_positions_from_lookup h i queue k r :
  NoDup queue → queue !! k = Some r →
  current_position (update_positions_from h i queue r)
  = (Z.of_nat (i + k) + 1)%Z.
Proof.
  intros Hnd Hk. apply list_elem_of_split_length in Hk as (l1 & l2 & -> & ->).
  apply NoDup_app in Hnd as (_ & _ & Hnd). apply NoDup_cons in Hnd as [? _].
  by rewrite update_positions_from_last.
Qed.

(** Only [current_position] is assigned. *)
Lemma update_positions_from_fields h i queue x :
  ∃ v, update_positions_from h i queue x = set_current_position (h x) v
       ∨ update_positions_from h i queue x = h x.
Proof.
  revert h i. induction queue as [|r rest IH]; intros h i; simpl.
  - exists 0%Z. by right.
  - destruct (IH (hset h r (set_current_position (h r) (Z.of_nat i + 1)))
                (S i)) as [v [-> | ->]]; unfold hset;
      destruct (decide (x = r)) as [->|].
    + exists v. by left.
    + exists v. by left.
    + exists (Z.of_nat i + 1)%Z. by left.
    + exists 0%Z. by right.
Qed.

Lemma update_positions_from_static h i queue :
  static_eq h (update_positions_from h i queue).
Proof.
  intros x. by destruct (update_positions_from_fields h i queue x)
    as [v [-> | ->]].
Qed.

(** * Insertion *)

Lemma first_lower_spec h p i queue :
  match first_lower h p i queue with
  | Some k =>
      ∃ l1 x l2, queue = l1 ++ x :: l2 ∧ k = i + length l1
        ∧ Forall (λ y, (priority (h y) >= p)%Z) l1
        ∧ (priority (h x) < p)%Z
  | None => Forall (λ y, (priority (h y) >= p)%Z) queue
  end.
Proof.
  revert i. induction queue as [|r rest IH]; intros i; simpl; [done|].
  destruct (decide (p > priority (h r))%Z).
  - exists [], r, rest. repeat split; [simpl; lia | done | lia].
  - specialize (IH (S i)). destruct (first_lower h p (S i) rest).
    + destruct IH as (l1 & x & l2 & -> & -> & Hl1 & Hx).
      exists (r :: l1), x, l2.
      repeat split; [simpl; lia | constructor; [lia | done] | done].
    + constructor; [lia | done].
Qed.

(** The queue splits at the insertion position: no entry before it has a
    priority below [p], and the entry at it, if any, has. *)
Lemma insert_position_spec h p queue :
  ∃ l1 l2,
    queue = l1 ++ l2
    ∧ insert_position h p queue = length l1
    ∧ (∀ x : oid, list_insert_at (insert_position h p queue) x queue
                  = l1 ++ x :: l2)
    ∧ Forall (λ y, (priority (h y) >= p)%Z) l1
    ∧ (∀ y l2', l2 = y :: l2' → (priority (h y) < p)%Z).
Proof.
  unfold insert_position, list_insert_at.
  pose proof (first_lower_spec h p 0 queue) as H.
  destruct (first_lower h p 0 queue) as [k|]; simpl.
  - destruct H as (l1 & x & l2 & -> & -> & Hl1 & Hx).
    change (0 + length l1) with (length l1).
    exists l1, (x :: l2). repeat split; auto.
    + intros y. by rewrite take_app_length, drop_app_length.
    + intros y l2' [= <- _]. done.
  - exists queue, []. rewrite app_nil_r. repeat split; auto.
    + intros y. by rewrite firstn_all, skipn_all.
    + intros y l2' [=].
Qed.

Lemma add_to_queue_unfold s r :
  add_to_queue s r
  = (_update_positions (enqueue s r).1 (queue_type (heap s r)),
     (Z.of_nat (enqueue s r).2 + 1)%Z).
Proof. done. Qed.

(** What one [add_to_queue] does to the queues and to the store. *)
Lemma add_to_queue_spec s r :
  let qt := queue_type (heap s r) in
  let p := priority (heap s r) in
  let s1 := (enqueue s r).1 in
  let s' := (add_to_queue s r).1 in
  ∃ l1 l2,
    current_queues s qt = l1 ++ l2
    ∧ current_queues s' qt = l1 ++ r :: l2
    ∧ (∀ qt', qt' ≠ qt → current_queues s' qt' = current_queues s qt')
    ∧ Forall (λ y, (priority (heap s y) >= p)%Z) l1
    ∧ (∀ y l2', l2 = y :: l2' → (priority (heap s y) < p)%Z)
    ∧ (add_to_queue s r).2 = (Z.of_nat (length l1) + 1)%Z
    ∧ heap s1 = hset (heap s) r
        (set_current_position
           (set_original_position (heap s r) (Z.of_nat (length l1) + 1))
           (Z.of_nat (length l1) + 1))
    ∧ current_queues s1 = current_queues s'
    ∧ heap s' = update_positions_from (heap s1) 0 (l1 ++ r :: l2).
Proof.
  intros qt p s1 s'.
  destruct (insert_position_spec (heap s) p (current_queues s qt))
    as (l1 & l2 & Hq & Hpos & Hins & Hl1 & Hl2).
  exists l1, l2. subst s1 s'. rewrite add_to_queue_unfold.
  unfold enqueue, _update_positions. fold qt p.
  cbn [fst snd heap current_queues with_queue with_heap].
  rewrite !decide_True by done. rewrite Hins, Hpos.
  repeat split; auto.
  intros qt' Hne. by rewrite decide_False.
Qed.

Lemma add_to_queue_static s r :
  static_eq (heap s) (heap (add_to_queue s r).1).
Proof.
  destruct (add_to_queue_spec s r)
    as (l1 & l2 & _ & _ & _ & _ & _ & _ & H1 & _ & ->).
  eapply static_eq_trans; [|apply update_positions_from_static].
  rewrite H1. by apply static_eq_hset.
Qed.

Lemma add_to_queue_frame s r :
  let s' := (add_to_queue s r).1 in
  appointments s' = appointments s
  ∧ available_tables s' = available_tables s
  ∧ occupied_tables s' = occupied_tables s
  ∧ total_tables s' = total_tables s
  ∧ average_service_time s' = average_service_time s.
Proof. done. Qed.

(** * Order of the queues *)

Lemma by_priority_static h h' queue :
  static_eq h h' → by_priority h queue → by_priority h' queue.
Proof.
  intros Hs. unfold by_priority. induction 1 as [|a l _ IH Ha]; constructor; [done|].
  eapply Forall_impl; [exact Ha|]. intros b Hb. simpl in *.
  destruct (Hs a) as (_ & _ & ->), (Hs b) as (_ & _ & ->). done.
Qed.

Lemma by_priority_insert h l1 r l2 :
  by_priority h (l1 ++ l2) →
  Forall (λ y, (priority (h y) >= priority (h r))%Z) l1 →
  (∀ y l2', l2 = y :: l2' → (priority (h y) < priority (h r))%Z) →
  by_priority h (l1 ++ r :: l2)
  ∧ Forall (λ y, (priority (h y) < priority (h r))%Z) l2.
Proof.
  unfold by_priority. intros Hs Hl1 Hl2.
  apply StronglySorted_app in Hs as (H12 & Hs1 & Hs2).
  assert (Forall (λ y, (priority (h y) < priority (h r))%Z) l2) as Hlow.
  { destruct l2 as [|y l2']; [done|].
    specialize (Hl2 y l2' eq_refl).
    apply StronglySorted_cons in Hs2 as [Hy _].
    constructor; [done|]. eapply Forall_impl; [exact Hy|].
    intros z Hz. simpl in Hz. lia. }
  split; [|done]. apply StronglySorted_app. split_and!; [|done|].
  - intros x1 x2 Hx1 [->|Hx2]%elem_of_cons.
    + by eapply Forall_forall in Hl1.
    + by apply H12.
  - apply StronglySorted_cons. split; [|done].
    eapply Forall_impl; [exact Hlow|]. intros z Hz. simpl in Hz. lia.
Qed.

Lemma add_to_queue_by_priority s r :
  (∀ qt, by_priority (heap s) (current_queues s qt)) →
  ∀ qt, by_priority (heap (add_to_queue s r).1)
          (current_queues (add_to_queue s r).1 qt).
Proof.
  intros Hs qt.
  apply (by_priority_static (heap s)); [apply add_to_queue_static|].
  destruct (add_to_queue_spec s r)
    as (l1 & l2 & Hq & Hq' & Hne & Hl1 & Hl2 & _).
  destruct (decide (qt = queue_type (heap s r))) as [->|Hqt].
  - rewrite Hq'. apply by_priority_insert; [|done..]. rewrite <- Hq. apply Hs.
  - rewrite Hne by done. apply Hs.
Qed.

(** In an ordered queue the added entry is the last occurrence of its
    object, so the recomputation leaves it the position it was given. *)
Lemma add_to_queue_position s r :
  by_priority (heap s) (current_queues s (queue_type (heap s r))) →
  current_position (heap (add_to_queue s r).1 r) = (add_to_queue s r).2.
Proof.
  intros Hs.
  destruct (add_to_queue_spec s r)
    as (l1 & l2 & Hq & _ & _ & Hl1 & Hl2 & -> & H1 & _ & ->).
  rewrite Hq in Hs.
  destruct (by_priority_insert _ _ r _ Hs Hl1 Hl2) as [_ Hlow].
  rewrite update_positions_from_last; [done|].
  intros Hr. eapply Forall_forall in Hlow; [|exact Hr]. simpl in Hlow. lia.
Qed.

(** * Sequences of insertions *)

Lemma add_all_snoc s rs r :
  add_all s (rs ++ [r]) = (add_to_queue (add_all s rs) r).1.
Proof. unfold add_all. by rewrite foldl_snoc. Qed.

Lemma add_all_static s rs : static_eq (heap s) (heap (add_all s rs)).
Proof.
  induction rs as [|r rs IH] using rev_ind; [done|].
  rewrite add_all_snoc.
  eapply static_eq_trans; [exact IH | apply add_to_queue_static].
Qed.

Lemma add_all_by_priority s rs :
  (∀ qt, by_priority (heap s) (current_queues s qt)) →
  ∀ qt, by_priority (heap (add_all s rs)) (current_queues (add_all s rs) qt).
Proof.
  intros Hs. induction rs as [|r rs IH] using rev_ind; [done|].
  rewrite add_all_snoc. by apply add_to_queue_by_priority.
Qed.

Lemma new_manager_by_priority h n qt :
  by_priority (heap (new_manager h n)) (current_queues (new_manager h n) qt).
Proof. constructor. Qed.

Lemma filter_priority_static h h' (p : Z) (l : list oid) :
  static_eq h h' →
  filter (λ x, priority (h' x) = p) l = filter (λ x, priority (h x) = p) l.
Proof.
  intros Hs. apply list_filter_iff. intros x.
  by destruct (Hs x) as (_ & _ & ->).
Qed.

Lemma filter_queue_type_static h h' (qt : QueueType) (l : list oid) :
  static_eq h h' →
  filter (λ x, queue_type (h' x) = qt) l
  = filter (λ x, queue_type (h x) = qt) l.
Proof.
  intros Hs. apply list_filter_iff. intros x.
  by destruct (Hs x) as (_ & -> & _).
Qed.

Lemma filter_priority_lower h (r : oid) (l : list oid) :
  Forall (λ y, (priority (h y) < priority (h r))%Z) l →
  filter (λ x, priority (h x) = priority (h r)) l = [].
Proof.
  induction 1 as [|y l Hy _ IH]; [done|].
  rewrite filter_cons_False by lia. done.
Qed.

(** Among the entries of one priority, a queue built by insertions alone
    keeps the order of arrival. *)
Lemma add_all_fifo h n rs qt p :
  let s := add_all (new_manager h n) rs in
  filter (λ x, priority (h x) = p) (current_queues s qt)
  = filter (λ x, priority (h x) = p)
      (filter (λ x, queue_type (h x) = qt) rs).
Proof.
  induction rs as [|r rs IH] using rev_ind; simpl; [done|].
  rewrite add_all_snoc. set (s := add_all (new_manager h n) rs) in *.
  assert (static_eq h (heap s)) as Hst by apply (add_all_static (new_manager h n)).
  assert (by_priority (heap s) (current_queues s (queue_type (heap s r))))
    as Hsorted
    by apply (add_all_by_priority (new_manager h n)), new_manager_by_priority.
  destruct (add_to_queue_spec s r)
    as (l1 & l2 & Hq & Hq' & Hne & Hl1 & Hl2 & _).
  rewrite Hq in Hsorted.
  destruct (by_priority_insert _ _ r _ Hsorted Hl1 Hl2) as [_ Hlow].
  rewrite !filter_app.
  destruct (Hst r) as (_ & Hty & Hpr).
  destruct (decide (qt = queue_type (heap s r))) as [->|Hqt].
  - rewrite Hq', <- IH, Hq, !filter_app.
    rewrite (filter_cons_True (λ x, queue_type (h x) = _)) by done.
    rewrite filter_nil.
    destruct (decide (priority (h r) = p)) as [<-|Hp].
    + rewrite !(filter_cons_True (λ x, priority (h x) = _)) by done.
      rewrite <- (filter_priority_static h (heap s) _ l2) by done.
      rewrite <- Hpr, filter_priority_lower by done.
      by rewrite filter_nil, !app_nil_r.
    + rewrite !(filter_cons_False (λ x, priority (h x) = _)) by done.
      by rewrite filter_nil, app_nil_r.
  - rewrite Hne, IH by done.
    rewrite (filter_cons_False (λ x, queue_type (h x) = _)) by congruence.
    by rewrite !filter_nil, app_nil_r.
Qed.

(** A queue built by insertions alone holds the arrivals of its type. *)
Lemma add_all_permutation h n rs qt :
  current_queues (add_all (new_manager h n) rs) qt
  ≡ₚ filter (λ x, queue_type (h x) = qt) rs.
Proof.
  induction rs as [|r rs IH] using rev_ind; simpl; [done|].
  rewrite add_all_snoc. set (s := add_all (new_manager h n) rs) in *.
  assert (static_eq h (heap s)) as Hst by apply (add_all_static (new_manager h n)).
  destruct (add_to_queue_spec s r)
    as (l1 & l2 & Hq & Hq' & Hne & _).
  destruct (Hst r) as (_ & Hty & _). rewrite filter_app.
  destruct (decide (qt = queue_type (heap s r))) as [->|Hqt].
  - rewrite Hq', <- IH, Hq.
    rewrite (filter_cons_True (λ x, queue_type (h x) = _)) by done.
    rewrite filter_nil. rewrite <- Permutation_middle.
    by rewrite Permutation_cons_append.
  - rewrite Hne, IH by done.
    rewrite (filter_cons_False (λ x, queue_type (h x) = _)) by congruence.
    by rewrite filter_nil, app_nil_r.
Qed.

(** * Removal *)

Lemma find_entry_spec h qid i queue :
  match find_entry h qid i queue with
  | Some (k, r) =>
      ∃ l1 l2, queue = l1 ++ r :: l2 ∧ k = i + length l1
        ∧ queue_id (h r) = qid
        ∧ Forall (λ y, queue_id (h y) ≠ qid) l1
  | None => Forall (λ y, queue_id (h y) ≠ qid) queue
  end.
Proof.
  revert i. induction queue as [|r rest IH]; intros i; simpl; [done|].
  destruct (decide (queue_id (h r) = qid)).
  - exists [], rest. repeat split; [simpl; lia | done..].
  - specialize (IH (S i)). destruct (find_entry h qid (S i) rest) as [[k x]|].
    + destruct IH as (l1 & l2 & -> & -> & Hx & Hl1).
      exists (r :: l1), l2.
      repeat split; [simpl; lia | done | by constructor].
    + by constructor.
Qed.

(** What [remove_from_queue] does: the first entry with the identifier, in
    the first queue that has one, leaves its queue, and the positions of
    that queue are recomputed. *)
Lemma remove_from_queues_spec s qid qts :
  match remove_from_queues s qid qts with
  | (s', Some r) =>
      ∃ qt l1 l2,
        qt ∈ qts
        ∧ current_queues s qt = l1 ++ r :: l2
        ∧ queue_id (heap s r) = qid
        ∧ Forall (λ y, queue_id (heap s y) ≠ qid) l1
        ∧ current_queues s' qt = l1 ++ l2
        ∧ (∀ qt', qt' ≠ qt → current_queues s' qt' = current_queues s qt')
        ∧ heap s' = update_positions_from (heap s) 0 (l1 ++ l2)
        ∧ same_tables s s' ∧ same_settings s s'
  | (s', None) =>
      s' = s
      ∧ ∀ qt, qt ∈ qts →
          Forall (λ y, queue_id (heap s y) ≠ qid) (current_queues s qt)
  end.
Proof.
  induction qts as [|qt rest IH]; simpl.
  - split; [done|]. intros qt []%elem_of_nil.
  - pose proof (find_entry_spec (heap s) qid 0 (current_queues s qt)) as Hf.
    destruct (find_entry (heap s) qid 0 (current_queues s qt)) as [[i r]|].
    + destruct Hf as (l1 & l2 & Hq & -> & Hr & Hl1).
      exists qt, l1, l2. unfold _update_positions.
      cbn [heap current_queues with_queue with_heap].
      rewrite !decide_True by done.
      change (0 + length l1) with (length l1). rewrite Hq, delete_middle.
      split_and!; try done; [left|].
      intros qt' Hne. by rewrite decide_False.
    + destruct (remove_from_queues s qid rest) as [s' [r|]].
      * destruct IH as (qt' & l1 & l2 & Hin & IH).
        exists qt', l1, l2. split; [by right | done].
      * destruct IH as [-> IH]. split; [done|].
        intros qt' [->|Hin]%elem_of_cons; auto.
Qed.

Lemma remove_from_queue_static s qid :
  static_eq (heap s) (heap (remove_from_queue s qid).1).
Proof.
  unfold remove_from_queue.
  pose proof (remove_from_queues_spec s qid queue_order) as H.
  destruct (remove_from_queues s qid queue_order) as [s' [r|]]; simpl.
  - destruct H as (qt & l1 & l2 & _ & _ & _ & _ & _ & _ & -> & _).
    apply update_positions_from_static.
  - by destruct H as [-> _].
Qed.

(** * Calling, completing, assigning *)

Lemma call_next_customer_static s qt now :
  static_eq (heap s) (heap (call_next_customer s qt now).1).
Proof.
  unfold call_next_customer. destruct (current_queues s qt); simpl; auto.
Qed.

Lemma complete_service_static s qid table now :
  static_eq (heap s) (heap (complete_service s qid table now).1).
Proof.
  unfold complete_service.
  pose proof (remove_from_queue_static s qid) as H.
  destruct (remove_from_queue s qid) as [s1 [r|]]; simpl in *; [|done].
  eapply static_eq_trans; [exact H|].
  destruct (table_to_free _ table); simpl; auto.
Qed.

(** The store after the loops of [assign_table]: an object either keeps
    its fields or has the identifier and gets the table. *)
Lemma record_table_fields h qid t queue x :
  record_table h qid t queue x = h x
  ∨ (queue_id (h x) = qid
     ∧ record_table h qid t queue x = set_table_number (h x) (Some t)).
Proof.
  induction queue as [|r rest IH]; simpl; [by left|].
  destruct (decide (queue_id (h r) = qid)); [|done].
  unfold hset. destruct (decide (x = r)) as [->|]; auto.
Qed.

Lemma record_tables_fields (queues : QueueType → list oid) qid t qts h x :
  foldl (λ h qt, record_table h qid t (queues qt)) h qts x = h x
  ∨ (queue_id (h x) = qid
     ∧ foldl (λ h qt, record_table h qid t (queues qt)) h qts x
       = set_table_number (h x) (Some t)).
Proof.
  revert h. induction qts as [|qt rest IH]; intros h; simpl; [by left|].
  destruct (IH (record_table h qid t (queues qt))) as [-> | [Hid ->]];
    destruct (record_table_fields h qid t (queues qt) x) as [E | [Hx E]];
    rewrite E in *; auto.
Qed.

Lemma assign_table_static s qid preference :
  static_eq (heap s) (heap (assign_table s qid preference).1).
Proof.
  unfold assign_table. destruct (available_tables s) as [|t rest]; [done|].
  intros x. cbn [fst heap with_heap with_tables current_queues].
  by destruct (record_tables_fields (current_queues s) qid t queue_order
                 (heap s) x) as [-> | [_ ->]].
Qed.

Lemma step_static s o : static_eq (heap s) (heap (step s o)).
Proof.
  destruct o; simpl.
  - apply add_to_queue_static.
  - apply remove_from_queue_static.
  - apply call_next_customer_static.
  - apply complete_service_static.
  - apply assign_table_static.
Qed.

(** * Runs of the manager *)

Lemma run_snoc s ops o : run s (ops ++ [o]) = step (run s ops) o.
Proof. unfold run. by rewrite foldl_snoc. Qed.

Lemma run_static s ops : static_eq (heap s) (heap (run s ops)).
Proof.
  induction ops as [|o ops IH] using rev_ind; [done|].
  rewrite run_snoc. eapply static_eq_trans; [exact IH | apply step_static].
Qed.

(** * The table pool *)

Lemma tables_ok_same n s s' :
  same_tables s s' → tables_ok n s → tables_ok n s'.
Proof. intros [Ha Ho]. unfold tables_ok. by rewrite Ha, Ho. Qed.

Lemma tables_ok_new h n : tables_ok n (new_manager h n).
Proof.
  unfold tables_ok, new_manager, table_range; simpl. split_and!.
  - apply (NoDup_fmap_2 _), NoDup_seq.
  - rewrite dom_empty_L. set_solver.
  - rewrite dom_empty_L. set_solver.
Qed.

Lemma tables_ok_assign n s t rest qid :
  available_tables s = t :: rest →
  tables_ok n s →
  tables_ok n (with_tables s rest (<[t := qid]> (occupied_tables s))).
Proof.
  unfold tables_ok; simpl. intros -> (Hnd & Hdisj & Hall).
  apply NoDup_cons in Hnd as [Ht Hnd].
  rewrite list_to_set_cons in Hdisj, Hall. rewrite dom_insert_L.
  assert (t ∉ (list_to_set rest : gset Z)) by by rewrite elem_of_list_to_set.
  split_and!; [done | set_solver | set_solver].
Qed.

Lemma tables_ok_release n s t :
  is_Some (occupied_tables s !! t) →
  tables_ok n s →
  tables_ok n (with_tables s (available_tables s ++ [t])
                 (delete t (occupied_tables s))).
Proof.
  unfold tables_ok; simpl. intros Ht%elem_of_dom (Hnd & Hdisj & Hall).
  assert (t ∉ available_tables s) as Hfree.
  { intros Hin. apply (elem_of_list_to_set (C := gset Z)) in Hin. set_solver. }
  rewrite list_to_set_app_L, dom_delete_L. simpl.
  split_and!.
  - apply NoDup_app. split_and!; [done | | apply NoDup_singleton].
    intros x Hx ->%list_elem_of_singleton. done.
  - set_solver.
  - rewrite <- Hall. apply set_eq. intros x.
    destruct (decide (x = t)) as [->|]; set_solver.
Qed.

Lemma call_next_customer_frame s qt now :
  let s' := (call_next_customer s qt now).1 in
  current_queues s' = current_queues s
  ∧ same_tables s s' ∧ same_settings s s'.
Proof.
  unfold call_next_customer. by destruct (current_queues s qt).
Qed.

Lemma remove_from_queue_frame s qid :
  let s' := (remove_from_queue s qid).1 in
  same_tables s s' ∧ same_settings s s'.
Proof.
  unfold remove_from_queue.
  pose proof (remove_from_queues_spec s qid queue_order) as H.
  destruct (remove_from_queues s qid queue_order) as [s' [r|]]; simpl.
  - by destruct H as (qt & l1 & l2 & _ & _ & _ & _ & _ & _ & _ & ? & ?).
  - by destruct H as [-> _].
Qed.

Lemma table_to_free_Some s table t :
  table_to_free s table = Some t →
  table = Some t ∧ t ≠ 0%Z ∧ is_Some (occupied_tables s !! t).
Proof.
  unfold table_to_free. destruct table as [t'|]; [|done].
  destruct (decide _) as [[? ?]|]; [|done]. by intros [= ->].
Qed.

Lemma step_tables_ok n s o : tables_ok n s → tables_ok n (step s o).
Proof.
  intros Hok. destruct o as [r|qid|qt now|qid table now|qid preference]; simpl.
  - eapply tables_ok_same; [|exact Hok]. by split.
  - eapply tables_ok_same; [|exact Hok]. apply remove_from_queue_frame.
  - eapply tables_ok_same; [|exact Hok]. apply call_next_customer_frame.
  - unfold complete_service.
    pose proof (remove_from_queue_frame s qid) as [Hsame _].
    destruct (remove_from_queue s qid) as [s1 [r|]]; simpl in *;
      [|by eapply tables_ok_same].
    set (s2 := with_heap s1 _).
    assert (tables_ok n s2) as Hok2 by by eapply (tables_ok_same n s).
    destruct (table_to_free s2 table) as [t|] eqn:Ht; simpl; [|done].
    apply table_to_free_Some in Ht as (_ & _ & Ht).
    by apply (tables_ok_release n s2).
  - unfold assign_table.
    destruct (available_tables s) as [|t rest] eqn:Ha; simpl; [done|].
    by apply (tables_ok_assign n s).
Qed.

Lemma run_tables_ok n s ops : tables_ok n s → tables_ok n (run s ops).
Proof.
  intros Hok. induction ops as [|o ops IH] using rev_ind; [done|].
  rewrite run_snoc. by apply step_tables_ok.
Qed.

(** * Positions *)

(** One queue is replaced and its positions recomputed, over a store that
    differs from the old one at most on objects of the new queue. *)
Lemma queues_ok_update s s' qt q' h1 :
  queues_ok s →
  current_queues s' qt = q' →
  (∀ qt', qt' ≠ qt → current_queues s' qt' = current_queues s qt') →
  heap s' = update_positions_from h1 0 q' →
  static_eq (heap s) h1 →
  (∀ x, x ∉ q' → current_position (h1 x) = current_position (heap s x)) →
  NoDup q' →
  (∀ x, x ∈ q' → queue_type (heap s x) = qt) →
  queues_ok s'.
Proof.
  intros (Hnd & Hty & Hpos) Hq Hne Hheap Hst Hout Hnd' Hty'.
  assert (static_eq (heap s) (heap s')) as Hst'.
  { rewrite Hheap. eapply static_eq_trans; [exact Hst|].
    apply update_positions_from_static. }
  split_and!.
  - intros qt'. destruct (decide (qt' = qt)) as [->|]; [by rewrite Hq|].
    rewrite Hne by done. apply Hnd.
  - intros qt' x Hx. destruct (Hst' x) as (_ & -> & _).
    destruct (decide (qt' = qt)) as [->|].
    + rewrite Hq in Hx. by apply Hty'.
    + rewrite Hne in Hx by done. by apply Hty.
  - intros qt' i x Hi. destruct (decide (qt' = qt)) as [->|].
    + rewrite Hq in Hi. rewrite Hheap.
      by rewrite (update_positions_from_lookup _ _ _ i).
    + rewrite Hne in Hi by done.
      assert (x ∉ q') as Hx.
      { intros Hx%Hty'. apply list_elem_of_lookup_2, Hty in Hi. congruence. }
      rewrite Hheap, update_positions_from_notin, Hout by done.
      by apply (Hpos qt').
Qed.

(** The store changes in fields other than the type and the position. *)
Lemma queues_ok_heap s s' :
  queues_ok s →
  current_queues s' = current_queues s →
  (∀ x, queue_type (heap s' x) = queue_type (heap s x)
        ∧ current_position (heap s' x) = current_position (heap s x)) →
  queues_ok s'.
Proof.
  intros (Hnd & Hty & Hpos) Hq Hh. split_and!.
  - intros qt. rewrite Hq. apply Hnd.
  - intros qt x. rewrite Hq. destruct (Hh x) as [-> _]. apply Hty.
  - intros qt i x. rewrite Hq. destruct (Hh x) as [_ ->]. apply (Hpos qt).
Qed.

Lemma queues_ok_new h n : queues_ok (new_manager h n).
Proof.
  split_and!; simpl.
  - intros _. apply NoDup_nil_2.
  - intros qt r []%elem_of_nil.
  - intros qt i r. simpl. by rewrite lookup_nil.
Qed.

Lemma add_to_queue_queues_ok s r :
  r ∉ current_queues s (queue_type (heap s r)) →
  queues_ok s → queues_ok (add_to_queue s r).1.
Proof.
  intros Hfresh Hok.
  destruct (add_to_queue_spec s r)
    as (l1 & l2 & Hq & Hq' & Hne & _ & _ & _ & H1 & _ & Hheap).
  pose proof Hok as (Hnd & Hty & _).
  specialize (Hnd (queue_type (heap s r))).
  rewrite Hq in Hfresh, Hnd.
  apply not_elem_of_app in Hfresh as [Hr1 Hr2].
  apply NoDup_app in Hnd as (Hnd1 & Hnd12 & Hnd2).
  eapply queues_ok_update; [exact Hok | exact Hq' | exact Hne | exact Hheap |..].
  - rewrite H1. by apply static_eq_hset.
  - intros x Hx. rewrite H1, hset_ne; [done|]. set_solver.
  - apply NoDup_app. split_and!; [done| |].
    + intros x Hx [->|?]%elem_of_cons; [done | by eapply Hnd12].
    + by apply NoDup_cons.
  - intros x Hx. destruct (decide (x = r)) as [->|]; [done|].
    apply Hty. rewrite Hq. set_solver.
Qed.

Lemma remove_from_queue_queues_ok s qid :
  queues_ok s → queues_ok (remove_from_queue s qid).1.
Proof.
  intros Hok. unfold remove_from_queue.
  pose proof (remove_from_queues_spec s qid queue_order) as H.
  destruct (remove_from_queues s qid queue_order) as [s' [r|]]; simpl;
    [|by destruct H as [-> _]].
  destruct H as (qt & l1 & l2 & _ & Hq & _ & _ & Hq' & Hne & Hheap & _).
  pose proof Hok as (Hnd & Hty & _). specialize (Hnd qt). rewrite Hq in Hnd.
  apply NoDup_app in Hnd as (Hnd1 & Hnd12 & [_ Hnd2]%NoDup_cons).
  eapply queues_ok_update;
    [exact Hok | exact Hq' | exact Hne | exact Hheap | done | done |..].
  - apply NoDup_app. split_and!; [done | | done].
    intros x Hx Hx2. eapply Hnd12; [exact Hx | by right].
  - intros x Hx. apply Hty. rewrite Hq. set_solver.
Qed.

Lemma call_next_customer_queues_ok s qt now :
  queues_ok s → queues_ok (call_next_customer s qt now).1.
Proof.
  intros Hok. eapply queues_ok_heap; [exact Hok|..];
    unfold call_next_customer; destruct (current_queues s qt) as [|r ?];
    simpl; try done.
  intros x. unfold hset. by destruct (decide (x = r)) as [->|].
Qed.

Lemma complete_service_queues_ok s qid table now :
  queues_ok s → queues_ok (complete_service s qid table now).1.
Proof.
  intros Hok. unfold complete_service.
  pose proof (remove_from_queue_queues_ok s qid Hok) as H.
  destruct (remove_from_queue s qid) as [s1 [r|]]; simpl in *; [|done].
  eapply queues_ok_heap; [exact H|..];
    destruct (table_to_free _ table); simpl; try done;
    intros x; unfold hset; by destruct (decide (x = r)) as [->|].
Qed.

Lemma assign_table_queues_ok s qid preference :
  queues_ok s → queues_ok (assign_table s qid preference).1.
Proof.
  intros Hok. eapply queues_ok_heap; [exact Hok|..];
    unfold assign_table; destruct (available_tables s) as [|t rest];
    cbn [fst heap with_heap with_tables current_queues]; try done.
  intros x.
  by destruct (record_tables_fields (current_queues s) qid t queue_order
                 (heap s) x) as [-> | [_ ->]].
Qed.

Lemma run_queues_ok s ops :
  fresh_adds s ops = true → queues_ok s → queues_ok (run s ops).
Proof.
  revert s. induction ops as [|o ops IH]; intros s Hfresh Hok; [done|].
  simpl in Hfresh. apply andb_prop in Hfresh as [Ho Hfresh].
  simpl. apply IH; [done|].
  destruct o; simpl.
  - apply add_to_queue_queues_ok; [|done]. by apply bool_decide_eq_true in Ho.
  - by apply remove_from_queue_queues_ok.
  - by apply call_next_customer_queues_ok.
  - by apply complete_service_queues_ok.
  - by apply assign_table_queues_ok.
Qed.

(** * Time slots *)

Lemma slot_conflict_false apts start_time end_time :
  slot_conflict apts start_time end_time = false
  ↔ ∀ a, a ∈ apts → apt_status a ≠ "cancelled"%string →
      ¬ (start_time < scheduled_time a + minutes (duration_minutes a)
         ∧ end_time > scheduled_time a)%Z.
Proof.
  induction apts as [|a rest IH]; simpl.
  - split; [|done]. intros _ a []%elem_of_nil.
  - destruct (decide (apt_status a = "cancelled"%string)) as [Hc|Hc].
    + rewrite IH. split.
      * intros H b [->|Hb]%elem_of_cons; [done | by apply H].
      * intros H b Hb. apply H. by right.
    + destruct (decide _) as [Ho|Ho].
      * split; [done|]. intros H. destruct (H a); [by left | done..].
      * rewrite IH. split.
        -- intros H b [->|Hb]%elem_of_cons; [done | by apply H].
        -- intros H b Hb. apply H. by right.
Qed.

Lemma is_time_slot_available_true s start_time duration :
  _is_time_slot_available s start_time duration = true
  ↔ (∀ a, a ∈ appointments s → apt_status a ≠ "cancelled"%string →
       ¬ (start_time < scheduled_time a + minutes (duration_minutes a)
          ∧ start_time + minutes duration > scheduled_time a)%Z)
    ∧ (8 ≤ hour start_time < 20)%Z.
Proof.
  unfold _is_time_slot_available. rewrite <- slot_conflict_false.
  destruct (slot_conflict _ _ _); [naive_solver|].
  destruct (decide _) as [Hout|Hin].
  - split; [done|]. intros [_ ?]. lia.
  - split; [|done]. intros _. split; [done | lia].
Qed.

(** Two intervals that share a point fail the test of the source. *)
Lemma intervals_overlap_test a b :
  intervals_overlap a b →
  (scheduled_time b < scheduled_time a + minutes (duration_minutes a)
   ∧ scheduled_time b + minutes (duration_minutes b) > scheduled_time a)%Z.
Proof. intros (t & ? & ?). lia. Qed.

Lemma intervals_overlap_sym a b :
  intervals_overlap a b → intervals_overlap b a.
Proof. intros (t & ? & ?). by exists t. Qed.

Lemma remind_fields now a :
  apt_status (remind now a) = apt_status a
  ∧ scheduled_time (remind now a) = scheduled_time a
  ∧ duration_minutes (remind now a) = duration_minutes a.
Proof.
  unfold remind. destruct (decide _); [done|].
  destruct (negb (reminder_sent_24h a) && should_send_reminder a 24 now);
    match goal with |- context [if ?c then _ else _] => destruct c end; done.
Qed.

Lemma appointments_ok_nil : appointments_ok [].
Proof. split; [done|]. intros i j a b _ Hi. by rewrite lookup_nil in Hi. Qed.

Lemma appointments_ok_snoc l a :
  appointments_ok l →
  apt_status a = "confirmed"%string →
  slot_conflict l (scheduled_time a)
    (scheduled_time a + minutes (duration_minutes a))%Z = false →
  appointments_ok (l ++ [a]).
Proof.
  intros [Hall Hpair] Ha Hfree. rewrite slot_conflict_false in Hfree.
  assert (∀ b, b ∈ l → ¬ intervals_overlap b a) as Hnew.
  { intros b Hb Ho. apply (Hfree b Hb).
    - eapply Forall_forall in Hall; [|exact Hb]. simpl in Hall. by rewrite Hall.
    - by apply intervals_overlap_test. }
  split; [apply Forall_app; by repeat constructor|].
  intros i j x y Hij Hi Hj.
  apply lookup_snoc_Some in Hi as [[Hi1 Hi2]|[-> ->]];
    apply lookup_snoc_Some in Hj as [[Hj1 Hj2]|[-> ->]].
  - by apply (Hpair i j).
  - apply Hnew. by eapply list_elem_of_lookup_2.
  - intros Ho%intervals_overlap_sym. revert Ho. apply Hnew.
    by eapply list_elem_of_lookup_2.
  - done.
Qed.

Lemma appointments_ok_remind now l :
  appointments_ok l → appointments_ok (remind now <$> l).
Proof.
  intros [Hall Hpair]. split.
  - apply Forall_fmap. eapply Forall_impl; [exact Hall|].
    intros a Ha. simpl. by destruct (remind_fields now a) as (-> & _).
  - intros i j x y Hij Hi Hj.
    rewrite list_lookup_fmap in Hi, Hj.
    destruct (l !! i) as [a|] eqn:Ei; [|done].
    destruct (l !! j) as [b|] eqn:Ej; [|done].
    injection Hi as <-. injection Hj as <-.
    intros (t & Ht1 & Ht2). apply (Hpair i j a b Hij Ei Ej). exists t.
    destruct (remind_fields now a) as (_ & Ea1 & Ea2).
    destruct (remind_fields now b) as (_ & Eb1 & Eb2).
    by rewrite Ea1, Ea2, Eb1, Eb2 in *.
Qed.

(** * The appointment list under the operations *)

Lemma complete_service_frame s qid table now :
  same_settings s (complete_service s qid table now).1.
Proof.
  unfold complete_service.
  pose proof (remove_from_queue_frame s qid) as [_ H].
  destruct (remove_from_queue s qid) as [s1 [r|]]; simpl in *; [|done].
  by destruct (table_to_free _ table).
Qed.

Lemma assign_table_frame s qid preference :
  let s' := (assign_table s qid preference).1 in
  current_queues s' = current_queues s ∧ same_settings s s'.
Proof. unfold assign_table. by destruct (available_tables s). Qed.

Lemma step_appointments s o : appointments (step s o) = appointments s.
Proof.
  destruct o; simpl.
  - done.
  - by destruct (remove_from_queue_frame s qid) as (_ & ? & _).
  - by destruct (call_next_customer_frame s qt now) as (_ & _ & ? & _).
  - by destruct (complete_service_frame s qid table now) as (? & _).
  - by destruct (assign_table_frame s qid preference) as (_ & ? & _).
Qed.

Lemma join_queue_appointments svc name qt size phone email special_requests
    session_id order qid now now_sent :
  appointments (queue_manager
    (join_queue svc name qt size phone email special_requests session_id
       order qid now now_sent).1)
  = appointments (queue_manager svc).
Proof.
  unfold join_queue. destruct (new_entry _ _ _ _ _ _ _) as [e0|f]; [|done].
  match goal with |- context [add_to_queue ?s0 ?r] =>
    pose proof (add_to_queue_frame s0 r) as (H & _);
    destruct (add_to_queue s0 r) as [s1 position] end.
  done.
Qed.

Lemma svc_call_next_customer_appointments svc qt now now_sent :
  appointments (queue_manager (svc_call_next_customer svc qt now now_sent).1)
  = appointments (queue_manager svc).
Proof.
  unfold svc_call_next_customer.
  pose proof (call_next_customer_frame (queue_manager svc) qt now)
    as (_ & _ & H & _).
  destruct (call_next_customer (queue_manager svc) qt now) as [s1 [r|]];
    simpl in *; [|done].
  destruct (decide (qt = DINE_IN)); [|done].
  by destruct (assign_table_frame s1 (queue_id (heap s1 r))
                 (seating_preference (heap s1 r))) as (_ & -> & _).
Qed.

Lemma svc_complete_service_appointments svc qid now :
  appointments (queue_manager (svc_complete_service svc qid now).1)
  = appointments (queue_manager svc).
Proof.
  unfold svc_complete_service.
  pose proof (complete_service_frame (queue_manager svc) qid None now)
    as (H & _).
  by destruct (complete_service (queue_manager svc) qid None now).
Qed.

Lemma cancel_queue_entry_appointments svc qid reason :
  appointments (queue_manager (cancel_queue_entry svc qid reason).1)
  = appointments (queue_manager svc).
Proof.
  unfold cancel_queue_entry.
  pose proof (remove_from_queue_frame (queue_manager svc) qid) as (_ & H & _).
  by destruct (remove_from_queue (queue_manager svc) qid) as [s1 [r|]].
Qed.

Lemma is_time_slot_available_conflict s start_time duration :
  _is_time_slot_available s start_time duration = true →
  slot_conflict (appointments s) start_time (start_time + minutes duration)%Z
  = false.
Proof.
  unfold _is_time_slot_available. by destruct (slot_conflict _ _ _).
Qed.

Lemma new_appointment_Ok apt_id ty time duration name phone email count
    requirements st a :
  new_appointment apt_id ty time duration name phone email count
    requirements st = Ok a →
  a = mkAppointment apt_id ty time duration name phone email count
        requirements st false false
  ∧ (15 ≤ duration ≤ 240)%Z ∧ (1 ≤ count ≤ 8)%Z.
Proof.
  unfold new_appointment. destruct (decide _) as [[? ?]|]; [|done].
  by intros [= <-].
Qed.

Lemma svc_step_appointments_ok svc o :
  appointments_ok (appointments (queue_manager svc)) →
  appointments_ok (appointments (queue_manager (svc_step svc o))).
Proof.
  intros Hok. destruct o; simpl.
  - by rewrite join_queue_appointments.
  - done.
  - by rewrite svc_call_next_customer_appointments.
  - by rewrite svc_complete_service_appointments.
  - by rewrite cancel_queue_entry_appointments.
  - unfold schedule_appointment.
    destruct (_is_time_slot_available _ time duration) eqn:Hfree; [|done].
    simpl. destruct (new_appointment _ _ _ _ _ _ _ _ _ _) as [a|f] eqn:Ha;
      [|done].
    apply new_appointment_Ok in Ha as (-> & _). simpl.
    apply appointments_ok_snoc; [done | done |].
    by apply is_time_slot_available_conflict.
  - by apply appointments_ok_remind.
Qed.

Lemma svc_run_snoc svc ops o :
  svc_run svc (ops ++ [o]) = svc_step (svc_run svc ops) o.
Proof. unfold svc_run. by rewrite foldl_snoc. Qed.

Lemma svc_run_appointments_ok h ops :
  appointments_ok (appointments (queue_manager (svc_run (new_service h) ops))).
Proof.
  induction ops as [|o ops IH] using rev_ind; [apply appointments_ok_nil|].
  rewrite svc_run_snoc. by apply svc_step_appointments_ok.
Qed.

(** * The slots of a day *)

Lemma slots_loop_spec s duration end_time fuel :
  ∀ current_time slots,
    Z.to_nat ((end_time - minutes duration - current_time) / minutes 15 + 1)
    < fuel →
    ∃ l,
      slots_loop fuel s duration end_time current_time slots
      = Some (slots ++ l)
      ∧ ∀ t, t ∈ l ↔
          ∃ k : Z, (0 ≤ k)%Z ∧ t = (current_time + k * minutes 15)%Z
            ∧ (t + minutes duration ≤ end_time)%Z
            ∧ _is_time_slot_available s t duration = true.
Proof.
  induction fuel as [|fuel IH]; intros current_time slots Hfuel; [lia|].
  cbn [slots_loop]. destruct (decide _) as [Hle|Hgt].
  - assert (0 ≤ (end_time - minutes duration - current_time) / minutes 15)%Z
      as Hq by (apply Z.div_pos; unfold minutes, us_per_minute in *; lia).
    match goal with
    | |- context [slots_loop fuel s duration end_time ?c ?sl] =>
        destruct (IH c sl) as (l & -> & Hl)
    end.
    { replace (end_time - minutes duration - (current_time + minutes 15))%Z
        with (end_time - minutes duration - current_time
              + (-1) * minutes 15)%Z by lia.
      rewrite Z.div_add by done. lia. }
    exists ((if _is_time_slot_available s current_time duration
             then [current_time] else []) ++ l).
    split.
    { destruct (_is_time_slot_available s current_time duration);
        by rewrite <- ?app_assoc. }
    intros t. rewrite elem_of_app, Hl. split.
    + intros [Ht | (k & Hk & -> & Hend & Hav)].
      * destruct (_is_time_slot_available s current_time duration) eqn:Hav;
          [|by apply elem_of_nil in Ht].
        apply list_elem_of_singleton in Ht as ->.
        exists 0%Z. rewrite Z.mul_0_l, Z.add_0_r. by split_and!.
      * exists (k + 1)%Z.
        replace (current_time + (k + 1) * minutes 15)%Z
          with (current_time + minutes 15 + k * minutes 15)%Z by lia.
        split_and!; [lia | done..].
    + intros (k & Hk & -> & Hend & Hav).
      destruct (decide (k = 0%Z)) as [->|Hk0].
      * left. rewrite Z.mul_0_l, Z.add_0_r in Hav.
        rewrite Z.mul_0_l, Z.add_0_r, Hav. by apply list_elem_of_singleton.
      * right. exists (k - 1)%Z.
        replace (current_time + minutes 15 + (k - 1) * minutes 15)%Z
          with (current_time + k * minutes 15)%Z by lia.
        split_and!; [lia | done..].
  - exists []. rewrite app_nil_r. split; [done|].
    intros t. split; [by intros ?%elem_of_nil|].
    intros (k & Hk & -> & Hend & _).
    unfold minutes, us_per_minute in *. lia.
Qed.

Lemma get_available_slots_spec svc date ty duration :
  ∃ slots,
    get_available_slots svc date ty duration = Some slots
    ∧ ∀ t, t ∈ slots ↔
        candidate date t
        ∧ (t + minutes duration ≤ replace_hour date 20)%Z
        ∧ _is_time_slot_available (queue_manager svc) t duration = true.
Proof.
  unfold get_available_slots, slots_fuel, candidate.
  destruct (slots_loop_spec (queue_manager svc) duration (replace_hour date 20)
              (S (Z.to_nat ((replace_hour date 20 - minutes duration
                             - replace_hour date 8) / minutes 15 + 1)))
              (replace_hour date 8) []) as (l & -> & Hl); [lia|].
  exists l. split; [done|]. intros t. rewrite Hl. naive_solver.
Qed.

(** * Calling the next customer *)

Lemma call_next_customer_front s qt now r rest :
  current_queues s qt = r :: rest →
  let s' := (call_next_customer s qt now).1 in
  (call_next_customer s qt now).2 = Some r
  ∧ heap s' r = set_called_at (set_status (heap s r) CALLED) (Some now)
  ∧ (∀ x, x ≠ r → heap s' x = heap s x)
  ∧ current_queues s' = current_queues s
  ∧ same_tables s s' ∧ same_settings s s'.
Proof.
  intros Hq. unfold call_next_customer. rewrite Hq. simpl.
  split_and!; try done.
  - by rewrite hset_eq.
  - intros x Hx. by rewrite hset_ne.
Qed.

Lemma call_next_customer_empty s qt now :
  current_queues s qt = [] → call_next_customer s qt now = (s, None).
Proof. intros Hq. unfold call_next_customer. by rewrite Hq. Qed.

(** An insertion of an entry whose priority is not higher than that of the
    front entry, or that goes to another queue, leaves the front entry at
    the front; so do a call and an assignment of a table. *)
Lemma front_kept_step s qt o r rest :
  current_queues s qt = r :: rest →
  front_kept s qt (priority (heap s r)) [o] = true →
  ∃ rest', current_queues (step s o) qt = r :: rest'.
Proof.
  intros Hq Hkept. cbn [front_kept] in Hkept.
  apply andb_prop in Hkept as [Ho _].
  destruct o as [r0|qid|qt0 now|qid table now|qid preference];
    cbn [step]; try done.
  - apply bool_decide_eq_true in Ho.
    destruct (add_to_queue_spec s r0)
      as (l1 & l2 & Hq0 & Hq0' & Hother & _ & Hlow & _).
    destruct (decide (qt = queue_type (heap s r0))) as [->|Hne];
      [|exists rest; by rewrite Hother].
    destruct Ho as [Ho|Ho]; [done|].
    rewrite Hq in Hq0. rewrite Hq0'.
    destruct l1 as [|x l1]; cbn [app] in Hq0.
    + specialize (Hlow r rest (eq_sym Hq0)). lia.
    + injection Hq0 as <- _. by exists (l1 ++ r0 :: l2).
  - destruct (call_next_customer_frame s qt0 now) as [-> _]. by exists rest.
  - destruct (assign_table_frame s qid preference) as [-> _]. by exists rest.
Qed.

Lemma front_kept_run qt mid :
  ∀ s r rest,
    current_queues s qt = r :: rest →
    front_kept s qt (priority (heap s r)) mid = true →
    ∃ rest', current_queues (run s mid) qt = r :: rest'.
Proof.
  induction mid as [|o mid IH]; intros s r rest Hq Hkept; [by exists rest|].
  cbn [front_kept] in Hkept. apply andb_prop in Hkept as [Ho Hkept].
  destruct (front_kept_step s qt o r rest Hq) as [rest1 Hq1].
  { cbn [front_kept]. by rewrite Ho. }
  unfold run. cbn [foldl]. apply (IH (step s o) r rest1 Hq1).
  by rewrite (proj2 (proj2 (step_static s o r))).
Qed.

(** An insertion of an entry of higher priority than the front entry puts
    the new entry at the front. *)
Lemma add_to_queue_overtakes s r rest r' :
  current_queues s (queue_type (heap s r')) = r :: rest →
  (priority (heap s r') > priority (heap s r))%Z →
  current_queues (add_to_queue s r').1 (queue_type (heap s r'))
  = r' :: r :: rest.
Proof.
  intros Hq Hp.
  destruct (add_to_queue_spec s r')
    as (l1 & l2 & Hq0 & -> & _ & Hhigh & _).
  rewrite Hq in Hq0. destruct l1 as [|x l1]; cbn [app] in Hq0.
  - by rewrite <- Hq0.
  - injection Hq0 as <- _. apply Forall_cons in Hhigh as [Hr _]. lia.
Qed.

(** * Assigning a table *)

Lemma find_entry_ext h h' qid i queue :
  (∀ x, queue_id (h' x) = queue_id (h x)) →
  find_entry h' qid i queue = find_entry h qid i queue.
Proof.
  intros Hid. revert i. induction queue as [|r rest IH]; intros i; simpl;
    [done|].
  rewrite Hid. by destruct (decide _).
Qed.

Lemma record_table_marks h qid t i queue k x :
  find_entry h qid i queue = Some (k, x) →
  table_number (record_table h qid t queue x) = Some t.
Proof.
  revert i. induction queue as [|r rest IH]; intros i; simpl; [done|].
  destruct (decide (queue_id (h r) = qid)).
  - intros [= _ ->]. by rewrite hset_eq.
  - apply IH.
Qed.

Lemma record_tables_marks (queues : QueueType → list oid) qid t h0 qt k x :
  find_entry h0 qid 0 (queues qt) = Some (k, x) →
  ∀ qts h,
    (∀ y, queue_id (h y) = queue_id (h0 y)) →
    qt ∈ qts →
    table_number
      (foldl (λ h qt, record_table h qid t (queues qt)) h qts x) = Some t.
Proof.
  intros Hfind. induction qts as [|qt' rest IH]; intros h Hid Hin;
    [by apply elem_of_nil in Hin|].
  simpl. destruct (decide (qt = qt')) as [<-|Hne].
  - rewrite <- (find_entry_ext h0 h) in Hfind by done.
    apply (record_table_marks _ _ t) in Hfind.
    by destruct (record_tables_fields queues qid t rest
                   (record_table h qid t (queues qt)) x) as [-> | [_ ->]].
  - apply IH; [|set_solver].
    intros y. rewrite <- Hid.
    by destruct (record_table_fields h qid t (queues qt') y) as [-> | [_ ->]].
Qed.

Lemma queue_order_complete qt : qt ∈ queue_order.
Proof. unfold queue_order. destruct qt; set_solver. Qed.

Lemma assign_table_spec s qid preference t rest :
  available_tables s = t :: rest →
  let s' := (assign_table s qid preference).1 in
  (assign_table s qid preference).2 = Some t
  ∧ available_tables s' = rest
  ∧ occupied_tables s' = <[t := qid]> (occupied_tables s)
  ∧ current_queues s' = current_queues s
  ∧ (∀ x, queue_id (heap s x) ≠ qid → heap s' x = heap s x)
  ∧ (∀ x, heap s' x = heap s x
          ∨ heap s' x = set_table_number (heap s x) (Some t))
  ∧ (∀ qt i x, find_entry (heap s) qid 0 (current_queues s qt) = Some (i, x) →
               table_number (heap s' x) = Some t).
Proof.
  intros Ha. unfold assign_table. rewrite Ha.
  cbn [fst snd heap with_heap with_tables current_queues available_tables
       occupied_tables].
  split_and!; try done.
  - intros x Hx.
    by destruct (record_tables_fields (current_queues s) qid t queue_order
                   (heap s) x) as [-> | [? _]].
  - intros x.
    destruct (record_tables_fields (current_queues s) qid t queue_order
                (heap s) x) as [-> | [_ ->]]; auto.
  - intros qt i x Hfind.
    by apply (record_tables_marks _ _ _ (heap s) qt i);
      [| | apply queue_order_complete].
Qed.

(** * Completing service *)

Lemma svc_complete_service_tables svc qid now :
  same_tables (queue_manager svc)
    (queue_manager (svc_complete_service svc qid now).1).
Proof.
  unfold svc_complete_service, complete_service.
  pose proof (remove_from_queue_frame (queue_manager svc) qid) as [H _].
  by destruct (remove_from_queue (queue_manager svc) qid) as [s1 [r|]].
Qed.

Lemma update_positions_from_original h i queue x :
  original_position (update_positions_from h i queue x)
  = original_position (h x).
Proof.
  by destruct (update_positions_from_fields h i queue x) as [v [-> | ->]].
Qed.

(** * The queues of the service *)

Lemma queues_ok_hset_unqueued s r e :
  queues_ok s → (∀ qt, r ∉ current_queues s qt) →
  queues_ok (with_heap s (hset (heap s) r e)).
Proof.
  intros (Hnd & Hty & Hpos) Hr. split_and!; simpl.
  - done.
  - intros qt x Hx. rewrite hset_ne; [by apply Hty|].
    intros ->. by apply (Hr qt).
  - intros qt i x Hi. simpl in *. rewrite hset_ne; [by apply (Hpos qt)|].
    intros ->. apply list_elem_of_lookup_2 in Hi. by apply (Hr qt).
Qed.

Lemma remove_from_queue_subset s qid qt x :
  x ∈ current_queues (remove_from_queue s qid).1 qt → x ∈ current_queues s qt.
Proof.
  unfold remove_from_queue.
  pose proof (remove_from_queues_spec s qid queue_order) as H.
  destruct (remove_from_queues s qid queue_order) as [s' [r|]]; simpl;
    [|by destruct H as [-> _]].
  destruct H as (qt' & l1 & l2 & _ & Hq & _ & _ & Hq' & Hne & _).
  destruct (decide (qt = qt')) as [->|].
  - rewrite Hq, Hq'. set_solver.
  - by rewrite Hne.
Qed.

Lemma complete_service_queues s qid table now :
  current_queues (complete_service s qid table now).1
  = current_queues (remove_from_queue s qid).1.
Proof.
  unfold complete_service.
  destruct (remove_from_queue s qid) as [s1 [r|]]; simpl; [|done].
  by destruct (table_to_free _ table).
Qed.

Lemma join_queue_ok svc name qt size phone email special_requests session_id
    order qid now now_sent :
  svc_ok svc →
  svc_ok (join_queue svc name qt size phone email special_requests session_id
            order qid now now_sent).1.
Proof.
  intros [Hok Hlt]. unfold join_queue.
  destruct (new_entry _ _ _ _ _ _ _) as [e0|f]; [|done].
  set (r := next_oid svc).
  match goal with |- context [add_to_queue ?s0' r] => set (s0 := s0') end.
  assert (∀ qt', r ∉ current_queues s0 qt') as Hfresh.
  { intros qt' Hr%Hlt. unfold r in Hr. lia. }
  assert (queues_ok s0) as Hok0 by by apply queues_ok_hset_unqueued.
  pose proof (add_to_queue_queues_ok s0 r (Hfresh _) Hok0) as Hok1.
  destruct (add_to_queue_spec s0 r) as (l1 & l2 & Hq & Hq' & Hne & _).
  destruct (add_to_queue s0 r) as [s1 position].
  cbn [fst snd] in *.
  split; cbn [queue_manager next_oid fst current_queues with_heap].
  - eapply queues_ok_heap; [exact Hok1 | reflexivity |].
    intros x. cbn [heap with_heap]. unfold _send_notification.
    destruct (decide (x = r)) as [->|Hx].
    + rewrite !hset_eq. split; reflexivity.
    + rewrite !hset_ne by done. split; reflexivity.
  - intros qt' x Hx.
    destruct (decide (qt' = queue_type (heap s0 r))) as [->|].
    + rewrite Hq' in Hx.
      assert (x = r ∨ x ∈ l1 ++ l2) as [->|Hx'] by set_solver; [lia|].
      rewrite <- Hq in Hx'. apply Hlt in Hx'. fold r in Hx'. lia.
    + rewrite Hne in Hx by done. apply Hlt in Hx. fold r in Hx. lia.
Qed.

(** [update_queue_progress] over a queue whose positions are the indices:
    only notifications are recorded. *)
Lemma progress_queue_keeps now queue :
  ∀ h i,
    NoDup queue →
    (∀ k x, queue !! k = Some x →
            current_position (h x) = (Z.of_nat (i + k) + 1)%Z) →
    ∀ x, queue_type (progress_queue now h i queue x) = queue_type (h x)
         ∧ current_position (progress_queue now h i queue x)
           = current_position (h x).
Proof.
  induction queue as [|r rest IH]; intros h i Hnd Hpos x; [done|].
  apply NoDup_cons in Hnd as [Hr Hnd]. cbn [progress_queue].
  assert (∀ y, queue_type (progress_entry now h i r y) = queue_type (h y)
               ∧ current_position (progress_entry now h i r y)
                 = current_position (h y)) as Hstep.
  { intros y. unfold progress_entry.
    destruct (decide (status (h r) ≠ WAITING)); [done|].
    pose proof (Hpos 0 r eq_refl) as Hr0. rewrite Nat.add_0_r in Hr0.
    destruct (decide _) as [Hge|_]; [lia|].
    destruct (_ && _); [|done].
    unfold _send_notification, hset. by destruct (decide (y = r)) as [->|]. }
  destruct (IH (progress_entry now h i r) (S i) Hnd) with (x := x)
    as [-> ->]; [|apply Hstep].
  intros k y Hk. destruct (Hstep y) as [_ ->].
  rewrite (Hpos (S k) y Hk). lia.
Qed.

Lemma progress_queues_keeps now (queues : QueueType → list oid) qts :
  ∀ h,
    (∀ qt, NoDup (queues qt)) →
    (∀ qt k x, queues qt !! k = Some x →
               current_position (h x) = (Z.of_nat k + 1)%Z) →
    ∀ x, queue_type
           (foldl (λ h qt, progress_queue now h 0 (queues qt)) h qts x)
         = queue_type (h x)
         ∧ current_position
             (foldl (λ h qt, progress_queue now h 0 (queues qt)) h qts x)
           = current_position (h x).
Proof.
  induction qts as [|qt rest IH]; intros h Hnd Hpos x; [done|].
  cbn [foldl].
  assert (∀ y, queue_type (progress_queue now h 0 (queues qt) y)
               = queue_type (h y)
               ∧ current_position (progress_queue now h 0 (queues qt) y)
                 = current_position (h y)) as Hstep.
  { apply progress_queue_keeps; [done|]. intros k y Hk. by apply (Hpos qt). }
  destruct (IH (progress_queue now h 0 (queues qt)) Hnd) with (x := x)
    as [-> ->]; [|apply Hstep].
  intros qt' k y Hk. destruct (Hstep y) as [_ ->]. by apply (Hpos qt').
Qed.

Lemma update_queue_progress_ok svc now :
  svc_ok svc → svc_ok (update_queue_progress svc now).
Proof.
  intros [Hok Hlt]. split; [|exact Hlt]. unfold update_queue_progress.
  cbn [queue_manager with_manager].
  eapply queues_ok_heap; [exact Hok | reflexivity |]. intros x.
  cbn [heap with_heap].
  destruct Hok as (Hnd & _ & Hpos). by apply progress_queues_keeps.
Qed.

Lemma svc_call_next_customer_ok svc qt now now_sent :
  svc_ok svc → svc_ok (svc_call_next_customer svc qt now now_sent).1.
Proof.
  intros [Hok Hlt]. unfold svc_call_next_customer.
  pose proof (call_next_customer_queues_ok _ qt now Hok) as Hok1.
  pose proof (call_next_customer_frame (queue_manager svc) qt now)
    as (Hq1 & _).
  destruct (call_next_customer (queue_manager svc) qt now) as [s1 [r|]];
    simpl in *; [|split; simpl; [done | by rewrite Hq1]].
  set (s2 := if decide (qt = DINE_IN) then _ else s1).
  assert (queues_ok s2 ∧ current_queues s2 = current_queues s1) as [Hok2 Hq2].
  { subst s2. destruct (decide (qt = DINE_IN)); [|done]. split.
    - by apply assign_table_queues_ok.
    - apply assign_table_frame. }
  split; simpl.
  - eapply queues_ok_heap; [exact Hok2 | done |]. intros x. simpl.
    unfold _send_notification, hset. by destruct (decide (x = r)) as [->|].
  - by rewrite Hq2, Hq1.
Qed.

Lemma svc_complete_service_ok svc qid now :
  svc_ok svc → svc_ok (svc_complete_service svc qid now).1.
Proof.
  intros [Hok Hlt]. unfold svc_complete_service.
  pose proof (complete_service_queues_ok _ qid None now Hok) as Hok1.
  pose proof (complete_service_queues (queue_manager svc) qid None now) as Hq.
  destruct (complete_service (queue_manager svc) qid None now) as [s1 entry].
  simpl in *. split; simpl; [done|].
  intros qt x. rewrite Hq. intros Hx%remove_from_queue_subset. by apply Hlt in Hx.
Qed.

Lemma cancel_queue_entry_ok svc qid reason :
  svc_ok svc → svc_ok (cancel_queue_entry svc qid reason).1.
Proof.
  intros [Hok Hlt]. unfold cancel_queue_entry.
  pose proof (remove_from_queue_queues_ok _ qid Hok) as Hok1.
  pose proof (remove_from_queue_subset (queue_manager svc) qid) as Hsub.
  destruct (remove_from_queue (queue_manager svc) qid) as [s1 [r|]];
    simpl in *; (split; simpl; [|intros qt x Hx%Hsub; by apply Hlt in Hx]);
    [|done].
  eapply queues_ok_heap; [exact Hok1 | done |]. intros x. simpl.
  unfold hset. by destruct (decide (x = r)) as [->|].
Qed.

Lemma svc_step_ok svc o : svc_ok svc → svc_ok (svc_step svc o).
Proof.
  intros Hok. destruct o; simpl.
  - by apply join_queue_ok.
  - by apply update_queue_progress_ok.
  - by apply svc_call_next_customer_ok.
  - by apply svc_complete_service_ok.
  - by apply cancel_queue_entry_ok.
  - unfold schedule_appointment.
    destruct (negb _); [done|]. by destruct (new_appointment _ _ _ _ _ _ _ _ _ _).
  - done.
Qed.

Lemma svc_run_ok h ops : svc_ok (svc_run (new_service h) ops).
Proof.
  induction ops as [|o ops IH] using rev_ind.
  - split; [apply queues_ok_new|]. intros qt r []%elem_of_nil.
  - rewrite svc_run_snoc. by apply svc_step_ok.
Qed.

(** * The properties of the queue and appointment engine *)

(** Scenario of the specification: three walk-ins join with priorities
    0, 0 and 5, in that order; the queue is then [third; first; second]
    with positions 1, 2 and 3. *)
Example three_walk_ins_order :
  let s := add_all (new_manager three_walk_ins 20) [0; 1; 2] in
  current_queues s WALK_IN = [2; 0; 1]
  ∧ (λ r, current_position (heap s r)) <$> current_queues s WALK_IN
    = [1; 2; 3]%Z.
Proof. by vm_compute. Qed.

(** C1.  [add_to_queue] puts the new entry immediately before the first
    queued entry of strictly lower priority, or at the end when there is
    none: the queue [l1 ++ l2] becomes [l1 ++ r :: l2], where no entry of
    [l1] has a lower priority than [r] and the head of [l2], if any, has.
    The returned value is the 1-based position [length l1 + 1]; it is the
    [original_position] and the [current_position] the entry has when it is
    inserted, and its [original_position] when the call returns.

    After any sequence of insertions into a new manager every queue is
    ordered by decreasing priority, holds exactly the arrivals of its type,
    and holds the arrivals of each priority in their order of arrival; and
    the [current_position] of an entry added to such a queue is the returned
    value also when the call returns. *)
Theorem add_to_queue_priority_then_arrival :
  (∀ s r,
     let qt := queue_type (heap s r) in
     let p := priority (heap s r) in
     let s' := (add_to_queue s r).1 in
     let position := (add_to_queue s r).2 in
     ∃ l1 l2,
       current_queues s qt = l1 ++ l2
       ∧ current_queues s' qt = l1 ++ r :: l2
       ∧ Forall (λ y, (priority (heap s y) >= p)%Z) l1
       ∧ (∀ y l2', l2 = y :: l2' → (priority (heap s y) < p)%Z)
       ∧ position = (Z.of_nat (length l1) + 1)%Z
       ∧ original_position (heap (enqueue s r).1 r) = position
       ∧ current_position (heap (enqueue s r).1 r) = position
       ∧ original_position (heap s' r) = position)
  ∧ (∀ h n rs,
       let s := add_all (new_manager h n) rs in
       (∀ qt,
          by_priority (heap s) (current_queues s qt)
          ∧ current_queues s qt
            ≡ₚ filter (λ x, queue_type (heap s x) = qt) rs
          ∧ ∀ p,
              filter (λ x, priority (heap s x) = p) (current_queues s qt)
              = filter (λ x, priority (heap s x) = p)
                  (filter (λ x, queue_type (heap s x) = qt) rs))
       ∧ ∀ r,
           current_position (heap (add_to_queue s r).1 r)
           = (add_to_queue s r).2).
Proof.
  split.
  - intros s r qt p s' position.
    destruct (add_to_queue_spec s r)
      as (l1 & l2 & Hq & Hq' & _ & Hl1 & Hl2 & Hret & H1 & _ & Hheap).
    exists l1, l2. subst position s'. rewrite Hret.
    split_and!; try done.
    + by rewrite H1, hset_eq.
    + by rewrite H1, hset_eq.
    + by rewrite Hheap, update_positions_from_original, H1, hset_eq.
  - intros h n rs s.
    assert (static_eq h (heap s)) as Hst
      by apply (add_all_static (new_manager h n)).
    assert (∀ qt, by_priority (heap s) (current_queues s qt)) as Hsorted
      by apply (add_all_by_priority (new_manager h n)),
           new_manager_by_priority.
    split.
    + intros qt. split_and!; [done | |].
      * rewrite (filter_queue_type_static h (heap s)) by done.
        apply add_all_permutation.
      * intros p.
        rewrite !(filter_priority_static h (heap s)),
          (filter_queue_type_static h (heap s)) by done.
        apply add_all_fifo.
    + intros r. by apply add_to_queue_position.
Qed.

(** C2, as stated, fails: when the entry object that is already at the
    front of the walk-in queue is added again, the queue holds it twice and
    the recomputation leaves it the position 2 of its last occurrence, which
    is not the index of the first. *)
Lemma add_same_entry_twice_breaks_positions :
  ¬ (∀ h n ops, positions_ok (run (new_manager h n) ops)).
Proof.
  intros H.
  specialize (H three_walk_ins 20 [AddToQueue 0; AddToQueue 0] WALK_IN 0 0
                eq_refl).
  by vm_compute in H.
Qed.

(** A fresh insertion does not repair a queue that holds an object twice:
    after the entry at the front is added again and then another entry is
    added, the first one still has the position 2 of its last occurrence. *)
Example fresh_add_after_duplicate :
  let s := run (new_manager three_walk_ins 20)
             [AddToQueue 0; AddToQueue 0; AddToQueue 1] in
  current_queues s WALK_IN = [0; 0; 1]
  ∧ current_position (heap s 0) = 2%Z
  ∧ current_position (heap s 1) = 3%Z.
Proof. by vm_compute. Qed.

(** C2, amended.  Call a state well-formed when no queue holds an entry
    object twice, every queued entry is in the queue of its [queue_type]
    and the [current_position] of every queued entry is its 1-based index
    in its queue.  A new manager is well-formed, and every operation takes
    a well-formed state to a well-formed state, [add_to_queue] provided the
    entry object it is given is not in its target queue.  So in every state
    reached from a new manager by operations of which every [add_to_queue]
    is given an entry object that its target queue does not hold at that
    moment, the [current_position] of every queued entry is its 1-based
    index in its queue. *)
Theorem positions_are_indices :
  (∀ h n, queues_ok (new_manager h n))
  ∧ (∀ s r, queues_ok s → r ∉ current_queues s (queue_type (heap s r)) →
            queues_ok (add_to_queue s r).1)
  ∧ (∀ s qid, queues_ok s → queues_ok (remove_from_queue s qid).1)
  ∧ (∀ s qid table now,
       queues_ok s → queues_ok (complete_service s qid table now).1)
  ∧ (∀ s qt now, queues_ok s → queues_ok (call_next_customer s qt now).1)
  ∧ (∀ s qid preference,
       queues_ok s → queues_ok (assign_table s qid preference).1)
  ∧ (∀ s, queues_ok s → positions_ok s)
  ∧ ∀ h n ops,
      fresh_adds (new_manager h n) ops = true →
      positions_ok (run (new_manager h n) ops).
Proof.
  split_and!.
  - apply queues_ok_new.
  - intros s r Hok Hfresh. by apply add_to_queue_queues_ok.
  - intros s qid. apply remove_from_queue_queues_ok.
  - intros s qid table now. apply complete_service_queues_ok.
  - intros s qt now. apply call_next_customer_queues_ok.
  - intros s qid preference. apply assign_table_queues_ok.
  - by intros s (_ & _ & ?).
  - intros h n ops Hfresh.
    by apply (run_queues_ok (new_manager h n) ops Hfresh), queues_ok_new.
Qed.

Lemma positions_are_indices_witness :
  positions_ok
    (run (new_manager three_walk_ins 20)
       [AddToQueue 0; AddToQueue 1; AddToQueue 2;
        CallNextCustomer WALK_IN 7%Z; CompleteService "third" None 9%Z;
        RemoveFromQueue "first"]).
Proof.
  destruct positions_are_indices as (_ & _ & _ & _ & _ & _ & _ & H).
  apply H. vm_compute. reflexivity.
Defined.

(** Through the service every queued entry is constructed by [join_queue]
    itself, so no queue ever holds an object twice: the positions are the
    indices in every state the service reaches. *)
Theorem service_positions_are_indices h ops :
  positions_ok (queue_manager (svc_run (new_service h) ops)).
Proof. by destruct (svc_run_ok h ops) as [(_ & _ & ?) _]. Qed.

(** C3.  [_is_time_slot_available(start, duration)] is true exactly when
    (a) no appointment whose status is not cancelled passes the overlap
    test [start < other_end and end > other_start], with
    [end = start + duration], and (b) the hour of [start] is at least 8 and
    less than 20. *)
Theorem time_slot_available_iff s start_time duration :
  _is_time_slot_available s start_time duration = true
  ↔ (∀ a, a ∈ appointments s → apt_status a ≠ "cancelled"%string →
       ¬ (start_time < scheduled_time a + minutes (duration_minutes a)
          ∧ start_time + minutes duration > scheduled_time a)%Z)
    ∧ (8 ≤ hour start_time < 20)%Z.
Proof. apply is_time_slot_available_true. Qed.

(** Scenario of the specification: an appointment at 09:00 for 60 minutes
    is booked; booking another at 09:30 for 30 minutes then fails with
    [SlotUnavailable]. *)
Example second_booking_unavailable :
  let svc := (schedule_appointment (new_service no_entries) "Ann"
                COFFEE_MEETING (at_time 9 0) 60 2 None None None "apt_1").1 in
  (schedule_appointment svc "Bob" COFFEE_DATE (at_time 9 30) 30 2 None None
     None "apt_2").2 = Raise SlotUnavailable.
Proof. by vm_compute. Qed.

(** C4, as stated, fails: a free slot does not suffice for the appointment
    to be appended.  A request for 5 minutes at 09:00 on an empty calendar
    passes the availability check, but the [Appointment] model requires
    [15 <= duration_minutes <= 240]; its constructor raises and nothing is
    appended. *)
Lemma available_slot_not_always_booked :
  ¬ (∀ svc name ty time duration count phone email requirements apt_id,
       _is_time_slot_available (queue_manager svc) time duration = true →
       ∃ a,
         (schedule_appointment svc name ty time duration count phone email
            requirements apt_id).2 = Ok a
         ∧ apt_status a = "confirmed"%string
         ∧ appointments (queue_manager
             (schedule_appointment svc name ty time duration count phone
                email requirements apt_id).1)
           = appointments (queue_manager svc) ++ [a]).
Proof.
  intros H.
  destruct (H (new_service no_entries) "Ann"%string COFFEE_MEETING
              (at_time 9 0) 5%Z 2%Z None None None "apt_1"%string eq_refl)
    as (a & Ha & _).
  by vm_compute in Ha.
Qed.

(** C4, amended.  [schedule_appointment] raises [SlotUnavailable] exactly
    when the requested slot is not available; whenever it raises, the
    service, and so the appointment list, is unchanged; when the slot is
    available and the request meets the constraints of the [Appointment]
    model ([15 <= duration_minutes <= 240], [1 <= participant_count <= 8])
    it constructs the appointment with status [confirmed] and appends it to
    the appointment list; when the slot is available and a constraint is
    not met it raises the validation error of the model. *)
Theorem schedule_appointment_outcome svc name ty time duration count phone
    email requirements apt_id :
  let out := schedule_appointment svc name ty time duration count phone email
               requirements apt_id in
  let available := _is_time_slot_available (queue_manager svc) time duration in
  let in_range := (15 ≤ duration ≤ 240)%Z ∧ (1 ≤ count ≤ 8)%Z in
  (out.2 = Raise SlotUnavailable ↔ available = false)
  ∧ (∀ f, out.2 = Raise f → out.1 = svc)
  ∧ (available = true → in_range →
     let a := mkAppointment apt_id ty time duration name phone email count
                requirements "confirmed" false false in
     out.2 = Ok a
     ∧ appointments (queue_manager out.1)
       = appointments (queue_manager svc) ++ [a])
  ∧ (available = true → ¬ in_range → out.2 = Raise ValidationError).
Proof.
  intros out available in_range. subst out available in_range.
  unfold schedule_appointment, new_appointment.
  destruct (_is_time_slot_available _ time duration); simpl.
  - destruct (decide _) as [Hin|Hout]; simpl; split_and!;
      try done; try (split; done); intros; done.
  - by split_and!.
Qed.

Lemma schedule_appointment_outcome_witness :
  let out := schedule_appointment (new_service no_entries) "Ann"
               COFFEE_MEETING (at_time 9 0) 60 2 None None None "apt_1" in
  let a := mkAppointment "apt_1" COFFEE_MEETING (at_time 9 0) 60 "Ann" None
             None 2 None "confirmed" false false in
  out.2 = Ok a
  ∧ appointments (queue_manager out.1)
    = appointments (queue_manager (new_service no_entries)) ++ [a].
Proof.
  apply (proj1 (proj2 (proj2
           (schedule_appointment_outcome (new_service no_entries) "Ann"
              COFFEE_MEETING (at_time 9 0) 60 2 None None None "apt_1")))).
  - reflexivity.
  - vm_compute. intuition discriminate.
Defined.

(** C5.  In every state reached from the new service by its operations, two
    distinct appointments of the list that both have status [confirmed] have
    intervals [[scheduled_time, scheduled_time + duration)] that share no
    point in time. *)
Theorem confirmed_appointments_never_overlap h ops (i j : nat) a b :
  let l := appointments (queue_manager (svc_run (new_service h) ops)) in
  i ≠ j → l !! i = Some a → l !! j = Some b →
  apt_status a = "confirmed"%string → apt_status b = "confirmed"%string →
  ¬ intervals_overlap a b.
Proof.
  intros l Hij Hi Hj _ _.
  destruct (svc_run_appointments_ok h ops) as [_ Hpair].
  by apply (Hpair i j).
Qed.

Lemma confirmed_appointments_never_overlap_witness :
  ¬ intervals_overlap
      (mkAppointment "apt_1" COFFEE_MEETING (at_time 9 0) 60 "Ann" None None
         2 None "confirmed" true false)
      (mkAppointment "apt_2" COFFEE_DATE (at_time 10 0) 30 "Bob" None None 2
         None "confirmed" false false).
Proof.
  apply (confirmed_appointments_never_overlap no_entries
           [ScheduleAppointment "Ann" COFFEE_MEETING (at_time 9 0) 60 2 None
              None None "apt_1";
            JoinQueue "Cy" DINE_IN 2 None None None None None "q_1" 0 0;
            ScheduleAppointment "Bob" COFFEE_DATE (at_time 10 0) 30 2 None
              None None "apt_2";
            ScheduleAppointment "Dee" COFFEE_DATE (at_time 9 30) 30 2 None
              None None "apt_3";
            ProcessAppointmentReminders (at_time 9 0 - hours 24)]
           0 1); [lia | reflexivity..].
Defined.

(** C6.  In every state reached from a manager with the tables [1..n], all
    free, by calls of [add_to_queue], [remove_from_queue],
    [call_next_customer], [complete_service] and [assign_table], the pool of
    available tables and the keys of the occupied-table map are disjoint,
    their union is [{1..n}], and no table is in the pool twice. *)
Theorem table_in_exactly_one_of_available_and_occupied h n ops :
  tables_ok n (run (new_manager h n) ops).
Proof. apply run_tables_ok, tables_ok_new. Qed.

(** C7, as stated, fails: between two calls of [call_next_customer] on the
    walk-in queue with no removal and no completion, a higher-priority
    entry is added; [add_to_queue] puts it at the front, and the second call
    returns it and not the entry the first call returned. *)
Lemma higher_priority_arrival_takes_the_front :
  ¬ (∀ s qt now mid now' r rest,
       current_queues s qt = r :: rest →
       no_removal mid = true →
       (call_next_customer (run (call_next_customer s qt now).1 mid) qt now').2
       = Some r).
Proof.
  intros H.
  specialize (H (add_all (new_manager three_walk_ins 20) [0; 1]) WALK_IN 7%Z
                [AddToQueue 2] 8%Z 0 [1] eq_refl eq_refl).
  vm_compute in H. discriminate H.
Qed.

(** C7, amended.  On a queue with front entry [r], [call_next_customer]
    returns [r], sets its [status] to [called] and its [called_at] to the
    time of the call and leaves its other fields, every other entry, every
    queue, the tables and the appointments as they were.  A later call on
    the same queue returns the same entry [r] when the operations in
    between hold no [remove_from_queue], no [complete_service] and no
    [add_to_queue] that puts an entry of higher priority than [r] into that
    queue: [r] is then still at the front.  An [add_to_queue] of an entry
    of higher priority than [r] into that queue, made while [r] is still at
    the front in this way, puts that entry at the front, and the next call
    returns it.  On an empty queue [call_next_customer] returns nothing and
    changes nothing. *)
Theorem call_next_customer_keeps_front s qt now :
  (∀ r rest,
     current_queues s qt = r :: rest →
     let s' := (call_next_customer s qt now).1 in
     (call_next_customer s qt now).2 = Some r
     ∧ status (heap s' r) = CALLED
     ∧ called_at (heap s' r) = Some now
     ∧ heap s' r = set_called_at (set_status (heap s r) CALLED) (Some now)
     ∧ (∀ x, x ≠ r → heap s' x = heap s x)
     ∧ current_queues s' = current_queues s
     ∧ same_tables s s' ∧ same_settings s s'
     ∧ (∀ now', (call_next_customer s' qt now').2 = Some r)
     ∧ (∀ mid now',
          front_kept s' qt (priority (heap s r)) mid = true →
          (∃ rest', current_queues (run s' mid) qt = r :: rest')
          ∧ (call_next_customer (run s' mid) qt now').2 = Some r)
     ∧ (∀ mid r' now',
          front_kept s' qt (priority (heap s r)) mid = true →
          queue_type (heap s r') = qt →
          (priority (heap s r') > priority (heap s r))%Z →
          (∃ rest', current_queues (add_to_queue (run s' mid) r').1 qt
                    = r' :: r :: rest')
          ∧ (call_next_customer (add_to_queue (run s' mid) r').1 qt now').2
            = Some r'))
  ∧ (current_queues s qt = [] → call_next_customer s qt now = (s, None)).
Proof.
  split; [|apply call_next_customer_empty].
  intros r rest Hq s'.
  destruct (call_next_customer_front s qt now r rest Hq)
    as (Hret & Hr & Hother & Hqs & Htab & Hset).
  pose proof (call_next_customer_static s qt now) as Hst.
  fold s' in Hr, Hother, Hqs, Htab, Hset, Hst.
  split_and!; try done.
  - by rewrite Hr.
  - by rewrite Hr.
  - intros now'.
    apply (call_next_customer_front s' qt now' r rest). by rewrite Hqs.
  - intros mid now' Hkept.
    destruct (front_kept_run qt mid s' r rest) as [rest' Hq'].
    { by rewrite Hqs. }
    { by rewrite (proj2 (proj2 (Hst r))). }
    split; [by exists rest'|].
    by apply (call_next_customer_front (run s' mid) qt now' r rest').
  - intros mid r' now' Hkept Hty Hp.
    destruct (front_kept_run qt mid s' r rest) as [rest' Hq'].
    { by rewrite Hqs. }
    { by rewrite (proj2 (proj2 (Hst r))). }
    pose proof (run_static s' mid) as Hst'.
    assert (queue_type (heap (run s' mid) r') = qt) as Hty'
      by by rewrite (proj1 (proj2 (Hst' r'))), (proj1 (proj2 (Hst r'))).
    assert (current_queues (add_to_queue (run s' mid) r').1 qt
            = r' :: r :: rest') as Hq''.
    { rewrite <- Hty'. apply add_to_queue_overtakes.
      - by rewrite Hty'.
      - rewrite (proj2 (proj2 (Hst' r'))), (proj2 (proj2 (Hst' r))),
          (proj2 (proj2 (Hst r'))), (proj2 (proj2 (Hst r))). lia. }
    split; [by exists rest'|].
    by apply (call_next_customer_front _ qt now' r' (r :: rest')).
Qed.

Lemma call_next_customer_keeps_front_witness :
  let s := add_all (new_manager three_walk_ins 20) [0; 1; 2] in
  let s' := (call_next_customer s WALK_IN 7).1 in
  (call_next_customer s WALK_IN 7).2 = Some 2
  ∧ status (heap s' 2) = CALLED
  ∧ called_at (heap s' 2) = Some 7%Z
  ∧ current_queues s' = current_queues s
  ∧ (call_next_customer s' WALK_IN 8).2 = Some 2
  ∧ (call_next_customer
       (run s' [AssignTable "third" None; AddToQueue 3;
                CallNextCustomer DINE_IN 8%Z]) WALK_IN 9).2 = Some 2.
Proof.
  intros s s'.
  destruct (proj1 (call_next_customer_keeps_front s WALK_IN 7) 2 [0; 1])
    as (H1 & H2 & H3 & _ & _ & H4 & _ & _ & H5 & H6 & _); [reflexivity|].
  split_and!; [exact H1 | exact H2 | exact H3 | exact H4 | exact (H5 8%Z) |].
  apply (H6 [AssignTable "third" None; AddToQueue 3;
             CallNextCustomer DINE_IN 8%Z] 9%Z).
  vm_compute. reflexivity.
Defined.

(** C8, as stated, fails: a candidate start time of the day that passes the
    availability check is not always returned.  On an empty calendar 19:45
    is available for 60 minutes (its hour is 19), yet it is not among the
    slots of the day, because the loop stops at the first candidate whose
    interval ends after 20:00. *)
Lemma slot_ending_after_closing_not_returned :
  ¬ (∀ svc date ty duration slots t,
       get_available_slots svc date ty duration = Some slots →
       candidate date t → (t < replace_hour date 20)%Z →
       (t ∈ slots
        ↔ _is_time_slot_available (queue_manager svc) t duration = true)).
Proof.
  intros H.
  destruct (get_available_slots_spec (new_service no_entries) 0 COFFEE_DATE 60)
    as (slots & Hslots & Hmem).
  assert (at_time 19 45 ∈ slots) as Hin.
  { apply (H _ _ _ _ _ _ Hslots).
    - exists 47%Z. split; [lia | by vm_compute].
    - by vm_compute.
    - by vm_compute. }
  apply Hmem in Hin as (_ & Hend & _). vm_compute in Hend.
  exact (Hend eq_refl).
Qed.

(** C8, amended.  [get_available_slots(date, duration)] terminates and
    returns exactly the start times [t] at 15-minute steps from 8:00 of the
    given date whose interval ends by 20:00 ([t + duration <= 20:00]) and
    for which [_is_time_slot_available(t, duration)] holds. *)
Theorem get_available_slots_exact svc date ty duration :
  ∃ slots,
    get_available_slots svc date ty duration = Some slots
    ∧ ∀ t, t ∈ slots ↔
        candidate date t
        ∧ (t + minutes duration ≤ replace_hour date 20)%Z
        ∧ _is_time_slot_available (queue_manager svc) t duration = true.
Proof. apply get_available_slots_spec. Qed.

(** C9 fails on the code.  A dine-in customer joins, is called and gets
    table 1; the service then completes the customer's service.  The entry
    is returned and leaves the queue, but table 1 stays in the
    occupied-table map and does not come back to the pool, because the
    service calls the manager without a table number. *)
Theorem service_completion_keeps_table_occupied :
  let svc1 := (join_queue (new_service no_entries) "Ann" DINE_IN 2 None None
                 None None None "q_1" 0 0).1 in
  let svc2 := (svc_call_next_customer svc1 DINE_IN 5 5).1 in
  let svc3 := (svc_complete_service svc2 "q_1" 9).1 in
  table_number (heap (queue_manager svc2) 0) = Some 1%Z
  ∧ occupied_tables (queue_manager svc2) !! 1%Z = Some "q_1"%string
  ∧ (svc_complete_service svc2 "q_1" 9).2 = Some 0
  ∧ current_queues (queue_manager svc3) DINE_IN = []
  ∧ occupied_tables (queue_manager svc3) !! 1%Z = Some "q_1"%string
  ∧ 1%Z ∉ available_tables (queue_manager svc3).
Proof.
  split_and!; try by vm_compute.
  vm_compute. intros Hin. repeat (apply elem_of_cons in Hin as [[=]|Hin]).
  by apply elem_of_nil in Hin.
Qed.

(** The manager itself releases the table when it is given the number. *)
Example manager_completion_releases_table :
  let svc1 := (join_queue (new_service no_entries) "Ann" DINE_IN 2 None None
                 None None None "q_1" 0 0).1 in
  let svc2 := (svc_call_next_customer svc1 DINE_IN 5 5).1 in
  let s3 := (complete_service (queue_manager svc2) "q_1" (Some 1%Z) 9).1 in
  occupied_tables s3 !! 1%Z = None ∧ last (available_tables s3) = Some 1%Z.
Proof. by vm_compute. Qed.

(** C10.  With a table [t] at the front of a non-empty pool, [assign_table]
    returns [t], removes it from the pool and records it in the
    occupied-table map against the given [queue_id], whatever the
    [queue_id] is; the queues are unchanged, an entry with another
    [queue_id] is unchanged, an entry that changes changes only in its
    [table_number], which becomes [t], and the first entry with the
    [queue_id] in any queue has the table afterwards. *)
Theorem assign_table_any_queue_id s qid preference t rest :
  available_tables s = t :: rest →
  let s' := (assign_table s qid preference).1 in
  (assign_table s qid preference).2 = Some t
  ∧ available_tables s' = rest
  ∧ occupied_tables s' = <[t := qid]> (occupied_tables s)
  ∧ current_queues s' = current_queues s
  ∧ (∀ x, queue_id (heap s x) ≠ qid → heap s' x = heap s x)
  ∧ (∀ x, heap s' x = heap s x
          ∨ heap s' x = set_table_number (heap s x) (Some t))
  ∧ (∀ qt i x, find_entry (heap s) qid 0 (current_queues s qt) = Some (i, x) →
               table_number (heap s' x) = Some t).
Proof. apply assign_table_spec. Qed.

Lemma assign_table_any_queue_id_witness :
  let s := add_all (new_manager three_walk_ins 20) [0; 1; 2] in
  let s' := (assign_table s "nobody" None).1 in
  (assign_table s "nobody" None).2 = Some 1%Z
  ∧ available_tables s' = Z.of_nat <$> seq 2 19
  ∧ occupied_tables s' = <[1%Z := "nobody"%string]> (occupied_tables s)
  ∧ current_queues s' = current_queues s
  ∧ (∀ x, heap s' x = heap s x).
Proof.
  intros s s'.
  destruct (assign_table_any_queue_id s "nobody" None 1
              (fmap (M := list) Z.of_nat (seq 2 19)) eq_refl)
    as (H1 & H2 & H3 & H4 & H5 & _).
  split_and!; [exact H1 | exact H2 | exact H3 | exact H4 |].
  intros x. apply H5. subst s.
  destruct (add_all_static (new_manager three_walk_ins 20) [0; 1; 2] x)
    as (-> & _).
  simpl. unfold three_walk_ins. by destruct x as [|[|?]].
Defined.

(** * Further properties: looking entries up *)

Lemma find_entry_None h qid i queue :
  find_entry h qid i queue = None
  ↔ ∀ r, r ∈ queue → queue_id (h r) ≠ qid.
Proof.
  pose proof (find_entry_spec h qid i queue) as H.
  destruct (find_entry h qid i queue) as [[k r]|].
  - destruct H as (l1 & l2 & -> & _ & Hr & _). split; [done|].
    intros H. destruct (H r); [set_solver | done].
  - split; [|done]. intros _ r Hr. by eapply Forall_forall in H.
Qed.

Lemma find_entry_middle h qid i l1 r l2 :
  (∀ y, y ∈ l1 → queue_id (h y) ≠ qid) → queue_id (h r) = qid →
  find_entry h qid i (l1 ++ r :: l2) = Some (i + length l1, r).
Proof.
  revert i. induction l1 as [|a l1 IH]; intros i Hl1 Hr; simpl.
  - rewrite decide_True by done. by rewrite Nat.add_0_r.
  - rewrite decide_False by (apply Hl1; by left).
    rewrite IH; [|set_solver|done]. do 2 f_equal. lia.
Qed.

Lemma locate_None s qid qts :
  locate s qid qts = None
  ↔ ∀ qt r, qt ∈ qts → r ∈ current_queues s qt → queue_id (heap s r) ≠ qid.
Proof.
  induction qts as [|qt rest IH]; simpl.
  - split; [|done]. intros _ qt r []%elem_of_nil.
  - pose proof (find_entry_None (heap s) qid 0 (current_queues s qt)) as Hf.
    destruct (find_entry (heap s) qid 0 (current_queues s qt)) as [[k x]|].
    + split; [done|]. intros H.
      assert (Some (k, x) = None) as Hn; [|done].
      apply Hf. intros r Hr. apply (H qt); [by left | done].
    + rewrite IH. split.
      * intros H qt' r [->|Hin]%elem_of_cons Hr; [by apply Hf | by eapply H].
      * intros H qt' r Hin. apply H. by right.
Qed.

(** The located entry is the first with the identifier in its queue, and
    no queue before that one has an entry with the identifier. *)
Lemma locate_Some s qid qts qt k r :
  locate s qid qts = Some (qt, k, r)
  → ∃ before after l1 l2,
      qts = before ++ qt :: after
      ∧ (∀ qt' x, qt' ∈ before → x ∈ current_queues s qt' →
                  queue_id (heap s x) ≠ qid)
      ∧ current_queues s qt = l1 ++ r :: l2
      ∧ k = length l1
      ∧ queue_id (heap s r) = qid
      ∧ (∀ x, x ∈ l1 → queue_id (heap s x) ≠ qid).
Proof.
  induction qts as [|qt0 rest IH]; simpl; [done|].
  pose proof (find_entry_spec (heap s) qid 0 (current_queues s qt0)) as Hs.
  pose proof (find_entry_None (heap s) qid 0 (current_queues s qt0)) as Hn.
  destruct (find_entry (heap s) qid 0 (current_queues s qt0)) as [[i x]|].
  - intros [= -> -> ->].
    destruct Hs as (l1 & l2 & Hq & -> & Hr & Hl1).
    exists [], rest, l1, l2. split_and!; try done.
    + intros qt' y []%elem_of_nil.
    + intros y Hy. by eapply Forall_forall in Hl1.
  - intros (before & after & l1 & l2 & -> & Hb & H1 & H2 & H3 & H4)%IH.
    exists (qt0 :: before), after, l1, l2. split_and!; try done.
    intros qt' y [->|Hin]%elem_of_cons Hy; [by apply Hn | by eapply Hb].
Qed.

Lemma queue_position_in_locate s qid qts :
  queue_position_in s qid qts
  = (λ x, (Z.of_nat x.1.2 + 1)%Z) <$> locate s qid qts.
Proof.
  induction qts as [|qt rest IH]; simpl; [done|].
  by destruct (find_entry _ _ _ _) as [[i r]|].
Qed.

Lemma estimated_wait_time_in_locate s qid qts :
  estimated_wait_time_in s qid qts
  = (λ x, entry_estimated_wait_time (heap s x.2) (Z.of_nat x.1.2)
            (average_service_time s)) <$> locate s qid qts.
Proof.
  induction qts as [|qt rest IH]; simpl; [done|].
  by destruct (find_entry _ _ _ _) as [[i r]|].
Qed.

Lemma find_in_queues_locate s qid qts :
  find_in_queues s qid qts = (λ x, x.2) <$> locate s qid qts.
Proof.
  induction qts as [|qt rest IH]; simpl; [done|].
  by destruct (find_entry _ _ _ _) as [[i r]|].
Qed.

Lemma remove_from_queues_locate s qid qts :
  remove_from_queues s qid qts
  = match locate s qid qts with
    | Some (qt, i, r) =>
        (_update_positions
           (with_queue s qt (delete i (current_queues s qt))) qt, Some r)
    | None => (s, None)
    end.
Proof.
  induction qts as [|qt rest IH]; simpl; [done|].
  by destruct (find_entry _ _ _ _) as [[i r]|].
Qed.

Lemma locate_ext s s' qid qts :
  current_queues s' = current_queues s →
  (∀ x, queue_id (heap s' x) = queue_id (heap s x)) →
  locate s' qid qts = locate s qid qts.
Proof.
  intros Hq Hid. induction qts as [|qt rest IH]; simpl; [done|].
  by rewrite Hq, (find_entry_ext (heap s) (heap s')), IH.
Qed.

Lemma unknown_id_locate s qid :
  unknown_id s qid ↔ locate s qid queue_order = None.
Proof.
  rewrite locate_None. unfold unknown_id. split.
  - intros H qt r _. apply H.
  - intros H qt r. apply H, queue_order_complete.
Qed.

Lemma locate_unique s qid qts qt0 l1 r l2 :
  qt0 ∈ qts →
  (∀ qt x, qt ≠ qt0 → x ∈ current_queues s qt → queue_id (heap s x) ≠ qid) →
  current_queues s qt0 = l1 ++ r :: l2 →
  (∀ x, x ∈ l1 → queue_id (heap s x) ≠ qid) →
  queue_id (heap s r) = qid →
  locate s qid qts = Some (qt0, length l1, r).
Proof.
  intros Hin Hother Hq Hl1 Hr.
  induction qts as [|qt rest IH]; [by apply elem_of_nil in Hin|].
  simpl. destruct (decide (qt = qt0)) as [->|Hne].
  - by rewrite Hq, find_entry_middle.
  - assert (find_entry (heap s) qid 0 (current_queues s qt) = None) as ->.
    { apply find_entry_None. intros x. by apply Hother. }
    apply IH. set_solver.
Qed.

(** After [add_to_queue] of an entry whose identifier no queued entry has,
    the scans find that entry, at the index it was inserted at. *)
Lemma add_to_queue_locate s r :
  unknown_id s (queue_id (heap s r)) →
  ∃ l1 l2,
    current_queues s (queue_type (heap s r)) = l1 ++ l2
    ∧ current_queues (add_to_queue s r).1 (queue_type (heap s r))
      = l1 ++ r :: l2
    ∧ (add_to_queue s r).2 = (Z.of_nat (length l1) + 1)%Z
    ∧ locate (add_to_queue s r).1 (queue_id (heap s r)) queue_order
      = Some (queue_type (heap s r), length l1, r).
Proof.
  intros Hunknown.
  destruct (add_to_queue_spec s r)
    as (l1 & l2 & Hq & Hq' & Hne & _ & _ & Hret & _).
  pose proof (add_to_queue_static s r) as Hst.
  exists l1, l2. split_and!; try done.
  apply (locate_unique _ _ _ _ l1 r l2); try done.
  - apply queue_order_complete.
  - intros qt x Hqt Hx. rewrite Hne in Hx by done.
    destruct (Hst x) as (-> & _). by eapply Hunknown.
  - intros x Hx. destruct (Hst x) as (-> & _).
    apply (Hunknown (queue_type (heap s r))). rewrite Hq. set_solver.
  - by destruct (Hst r) as (-> & _).
Qed.

Lemma remove_from_queue_unknown_iff_aux s qid :
  (remove_from_queue s qid).2 = None ↔ (remove_from_queue s qid).1 = s
                                        ∧ unknown_id s qid.
Proof.
  rewrite unknown_id_locate. unfold remove_from_queue.
  rewrite remove_from_queues_locate.
  destruct (locate s qid queue_order) as [[[qt i] r]|]; simpl; [|done].
  split; [done|]. by intros [_ ?].
Qed.

Lemma remove_from_queue_unknown s qid :
  unknown_id s qid → remove_from_queue s qid = (s, None).
Proof.
  rewrite unknown_id_locate. unfold remove_from_queue.
  rewrite remove_from_queues_locate. by intros ->.
Qed.

(** X1.  [remove_from_queue] returns nothing exactly when no queued entry
    has the identifier, and it then leaves the manager as it is. *)
Theorem remove_from_queue_unknown_iff s qid :
  ((remove_from_queue s qid).2 = None ↔ unknown_id s qid)
  ∧ (unknown_id s qid → remove_from_queue s qid = (s, None)).
Proof.
  split; [|apply remove_from_queue_unknown]. split.
  - by intros [_ ?]%remove_from_queue_unknown_iff_aux.
  - intros H. by rewrite (remove_from_queue_unknown s qid H).
Qed.

(** X2.  When [remove_from_queue] returns an entry, it is the first entry
    with the identifier in the first queue, in the order of the queue
    types, that holds one; exactly that occurrence leaves its queue, the
    order of the others is kept, the other queues, the tables and the
    appointments are unchanged, and no field of any entry other than
    [current_position] changes. *)
Theorem remove_from_queue_first_match s qid r :
  (remove_from_queue s qid).2 = Some r →
  let s' := (remove_from_queue s qid).1 in
  ∃ before qt after l1 l2,
    queue_order = before ++ qt :: after
    ∧ (∀ qt' x, qt' ∈ before → x ∈ current_queues s qt' →
                queue_id (heap s x) ≠ qid)
    ∧ current_queues s qt = l1 ++ r :: l2
    ∧ queue_id (heap s r) = qid
    ∧ (∀ x, x ∈ l1 → queue_id (heap s x) ≠ qid)
    ∧ current_queues s' qt = l1 ++ l2
    ∧ (∀ qt', qt' ≠ qt → current_queues s' qt' = current_queues s qt')
    ∧ same_tables s s' ∧ same_settings s s'
    ∧ ∀ x, ∃ v, heap s' x = set_current_position (heap s x) v
                ∨ heap s' x = heap s x.
Proof.
  unfold remove_from_queue. rewrite remove_from_queues_locate.
  destruct (locate s qid queue_order) as [[[qt i] x]|] eqn:Hloc; [|done].
  cbn [fst snd]. intros [= ->].
  apply locate_Some in Hloc
    as (before & after & l1 & l2 & Ho & Hb & Hq & -> & Hr & Hl1).
  exists before, qt, after, l1, l2.
  unfold _update_positions. cbn [heap current_queues with_queue with_heap].
  rewrite Hq, delete_middle.
  split_and!; try done.
  - by rewrite decide_True.
  - intros qt' Hne. by rewrite decide_False.
  - intros x. rewrite decide_True by done.
    apply update_positions_from_fields.
Qed.

Lemma remove_from_queue_first_match_witness :
  let s := add_all (new_manager three_walk_ins 20) [0; 1; 2] in
  let s' := (remove_from_queue s "first").1 in
  ∃ before qt after l1 l2,
    queue_order = before ++ qt :: after
    ∧ (∀ qt' x, qt' ∈ before → x ∈ current_queues s qt' →
                queue_id (heap s x) ≠ "first"%string)
    ∧ current_queues s qt = l1 ++ 0 :: l2
    ∧ queue_id (heap s 0) = "first"%string
    ∧ (∀ x, x ∈ l1 → queue_id (heap s x) ≠ "first"%string)
    ∧ current_queues s' qt = l1 ++ l2
    ∧ (∀ qt', qt' ≠ qt → current_queues s' qt' = current_queues s qt')
    ∧ same_tables s s' ∧ same_settings s s'
    ∧ ∀ x, ∃ v, heap s' x = set_current_position (heap s x) v
                ∨ heap s' x = heap s x.
Proof.
  intros s. apply (remove_from_queue_first_match s "first" 0). reflexivity.
Defined.

(** X3.  After [add_to_queue] of an entry whose [queue_id] no queued entry
    has, [get_queue_position] of that [queue_id] is the position
    [add_to_queue] returned. *)
Theorem get_queue_position_after_add s r :
  unknown_id s (queue_id (heap s r)) →
  get_queue_position (add_to_queue s r).1 (queue_id (heap s r))
  = Some (add_to_queue s r).2.
Proof.
  intros (l1 & l2 & _ & _ & -> & Hloc)%add_to_queue_locate.
  unfold get_queue_position. by rewrite queue_position_in_locate, Hloc.
Qed.

Lemma get_queue_position_after_add_witness :
  let s := add_all (new_manager three_walk_ins 20) [0; 1] in
  get_queue_position (add_to_queue s 2).1 "third" = Some 1%Z.
Proof.
  intros s. apply (get_queue_position_after_add s 2).
  intros qt r Hr. destruct qt; try by apply elem_of_nil in Hr.
  vm_compute in Hr.
  repeat (apply elem_of_cons in Hr as [->|Hr]; [by vm_compute|]).
  by apply elem_of_nil in Hr.
Defined.

(** X4.  Removing an entry right after adding it undoes the insertion:
    when no queued entry has the [queue_id] of the added entry,
    [remove_from_queue] of that [queue_id] returns the added entry and
    every queue is again as it was before [add_to_queue]; the tables are
    untouched throughout. *)
Theorem remove_after_add_restores_queues s r :
  unknown_id s (queue_id (heap s r)) →
  let s1 := (add_to_queue s r).1 in
  let out := remove_from_queue s1 (queue_id (heap s r)) in
  out.2 = Some r
  ∧ (∀ qt, current_queues out.1 qt = current_queues s qt)
  ∧ same_tables s out.1.
Proof.
  intros (l1 & l2 & Hq & Hq' & _ & Hloc)%add_to_queue_locate s1 out.
  subst out s1. unfold remove_from_queue.
  rewrite remove_from_queues_locate, Hloc.
  unfold _update_positions. cbn [fst snd heap current_queues with_queue
    with_heap available_tables occupied_tables].
  split_and!; try done.
  intros qt. destruct (decide (qt = queue_type (heap s r))) as [->|Hne].
  - by rewrite Hq', delete_middle, Hq.
  - by destruct (add_to_queue_spec s r) as (? & ? & _ & _ & -> & _).
Qed.

Lemma remove_after_add_restores_queues_witness :
  let s := add_all (new_manager three_walk_ins 20) [0; 1] in
  let out := remove_from_queue (add_to_queue s 2).1 "third" in
  out.2 = Some 2
  ∧ (∀ qt, current_queues out.1 qt = current_queues s qt)
  ∧ same_tables s out.1.
Proof.
  intros s. apply (remove_after_add_restores_queues s 2).
  intros qt r Hr. destruct qt; try by apply elem_of_nil in Hr.
  vm_compute in Hr.
  repeat (apply elem_of_cons in Hr as [->|Hr]; [by vm_compute|]).
  by apply elem_of_nil in Hr.
Defined.

(** * Further properties: waiting times *)

(** X5.  [get_queue_position] and [get_estimated_wait_time] answer for the
    same entry: both return nothing exactly when no queued entry has the
    identifier, and when the position is [p] the entry at index [p - 1] of
    some queue has the identifier and the estimate is
    [(p - 1) * average_service_time + estimated_prep_time] of that entry. *)
Theorem estimated_wait_time_of_position s qid :
  (get_queue_position s qid = None ↔ unknown_id s qid)
  ∧ (get_estimated_wait_time s qid = None ↔ unknown_id s qid)
  ∧ ∀ p, get_queue_position s qid = Some p →
      ∃ qt r,
        (1 ≤ p)%Z
        ∧ current_queues s qt !! Z.to_nat (p - 1) = Some r
        ∧ queue_id (heap s r) = qid
        ∧ get_estimated_wait_time s qid
          = Some ((p - 1) * average_service_time s
                  + estimated_prep_time (heap s r))%Z.
Proof.
  unfold get_queue_position, get_estimated_wait_time.
  rewrite queue_position_in_locate, estimated_wait_time_in_locate,
    unknown_id_locate.
  destruct (locate s qid queue_order) as [[[qt i] r]|] eqn:Hloc; simpl.
  - split_and!; [done | done |]. intros p [= <-].
    apply locate_Some in Hloc as (_ & _ & l1 & l2 & _ & _ & Hq & -> & Hr & _).
    exists qt, r. split_and!; [lia | | done |].
    + replace (Z.to_nat (Z.of_nat (length l1) + 1 - 1)) with (length l1)
        by lia.
      by rewrite Hq, list_lookup_middle.
    + unfold entry_estimated_wait_time. do 2 f_equal. lia.
  - split_and!; done.
Qed.

Lemma estimated_wait_time_of_position_witness :
  let s := add_all (new_manager three_walk_ins 20) [0; 1; 2] in
  ∃ qt r,
    (1 ≤ 3)%Z
    ∧ current_queues s qt !! Z.to_nat (3 - 1) = Some r
    ∧ queue_id (heap s r) = "second"%string
    ∧ get_estimated_wait_time s "second"
      = Some ((3 - 1) * average_service_time s
              + estimated_prep_time (heap s r))%Z.
Proof.
  intros s.
  apply (proj2 (proj2 (estimated_wait_time_of_position s "second")) 3%Z).
  reflexivity.
Defined.

(** X6.  The estimated wait does not decrease with the position: when the
    average service time is not negative, an entry at an earlier or equal
    position whose preparation time is not larger has an estimate that is
    not larger. *)
Theorem estimated_wait_time_monotone s qid1 qid2 p1 p2 r1 r2 :
  (0 ≤ average_service_time s)%Z →
  get_queue_position s qid1 = Some p1 →
  get_queue_position s qid2 = Some p2 →
  find_in_queues s qid1 queue_order = Some r1 →
  find_in_queues s qid2 queue_order = Some r2 →
  (p1 ≤ p2)%Z →
  (estimated_prep_time (heap s r1) ≤ estimated_prep_time (heap s r2))%Z →
  ∃ w1 w2,
    get_estimated_wait_time s qid1 = Some w1
    ∧ get_estimated_wait_time s qid2 = Some w2
    ∧ (w1 ≤ w2)%Z.
Proof.
  unfold get_queue_position, get_estimated_wait_time.
  rewrite !queue_position_in_locate, !estimated_wait_time_in_locate,
    !find_in_queues_locate.
  destruct (locate s qid1 queue_order) as [[[qt1 i1] x1]|]; [|done].
  destruct (locate s qid2 queue_order) as [[[qt2 i2] x2]|]; [|done].
  simpl. unfold entry_estimated_wait_time.
  intros Havg [= <-] [= <-] [= <-] [= <-] Hp Hprep.
  eexists _, _. split_and!; [done | done | nia].
Qed.

Lemma estimated_wait_time_monotone_witness :
  let s := add_all (new_manager three_walk_ins 20) [0; 1; 2] in
  ∃ w1 w2,
    get_estimated_wait_time s "third" = Some w1
    ∧ get_estimated_wait_time s "second" = Some w2
    ∧ (w1 ≤ w2)%Z.
Proof.
  apply (estimated_wait_time_monotone
           (add_all (new_manager three_walk_ins 20) [0; 1; 2])
           "third" "second" 1 3 2 1); by vm_compute.
Defined.

(** * Further properties: completing service and the tables *)

Lemma complete_service_unfold s qid table now :
  complete_service s qid table now
  = match remove_from_queue s qid with
    | (s1, Some r) =>
        let s2 := with_heap s1
                    (hset (heap s1) r
                       (set_completed_at (set_status (heap s1 r) COMPLETED)
                          (Some now))) in
        match table_to_free s2 table with
        | Some t =>
            (with_tables s2 (available_tables s2 ++ [t])
               (delete t (occupied_tables s2)), Some r)
        | None => (s2, Some r)
        end
    | (s1, None) => (s1, None)
    end.
Proof. done. Qed.

(** X7.  [complete_service] returns what [remove_from_queue] returns.  When
    that is nothing (no queued entry has the identifier) the manager is left
    as it is, and so a table number passed along is not released; when it
    is an entry, the entry is marked [completed] with [completed_at] set,
    and the table passed along goes from the occupied map to the end of the
    pool exactly when it is not zero and is occupied, the tables being
    unchanged otherwise. *)
Theorem complete_service_effect s qid table now :
  let out := complete_service s qid table now in
  out.2 = (remove_from_queue s qid).2
  ∧ match out.2 with
    | None => out.1 = s
    | Some r =>
        status (heap out.1 r) = COMPLETED
        ∧ completed_at (heap out.1 r) = Some now
        ∧ current_queues out.1 = current_queues (remove_from_queue s qid).1
        ∧ match table with
          | Some t =>
              if decide (t ≠ 0%Z ∧ is_Some (occupied_tables s !! t))
              then available_tables out.1 = available_tables s ++ [t]
                   ∧ occupied_tables out.1 = delete t (occupied_tables s)
              else same_tables s out.1
          | None => same_tables s out.1
          end
    end.
Proof.
  intros out. subst out. rewrite complete_service_unfold.
  pose proof (remove_from_queue_frame s qid) as [[Ha Ho] _].
  pose proof (proj1 (remove_from_queue_unknown_iff_aux s qid)) as Hnone.
  destruct (remove_from_queue s qid) as [s1 [r|]] eqn:Hrem;
    cbn [fst snd] in *; [|split; [done | by apply Hnone]].
  unfold table_to_free, same_tables.
  cbn [occupied_tables available_tables with_heap].
  destruct table as [t|].
  - rewrite Ho.
    destruct (decide (t ≠ 0%Z ∧ is_Some (occupied_tables s !! t)));
      cbn [fst snd heap with_tables with_heap current_queues
           available_tables occupied_tables];
      rewrite hset_eq, ?Ha, ?Ho; by split_and!.
  - cbn [fst snd heap with_tables with_heap current_queues
         available_tables occupied_tables].
    rewrite hset_eq, ?Ha, ?Ho. by split_and!.
Qed.

Lemma not_unknown_id_remove s qid qt x :
  x ∈ current_queues s qt → queue_id (heap s x) = qid →
  ∃ r, (remove_from_queue s qid).2 = Some r.
Proof.
  intros Hx Hid.
  destruct (remove_from_queue s qid) as [s1 [r|]] eqn:Hrem; [by exists r|].
  assert ((remove_from_queue s qid).2 = None) as Hn by by rewrite Hrem.
  apply remove_from_queue_unknown_iff_aux in Hn as [_ Hn].
  by destruct (Hn qt x Hx).
Qed.

Lemma remove_from_queue_ext s s' qid :
  current_queues s' = current_queues s →
  (∀ x, queue_id (heap s' x) = queue_id (heap s x)) →
  (remove_from_queue s' qid).2 = (remove_from_queue s qid).2.
Proof.
  intros Hq Hid. unfold remove_from_queue.
  rewrite !remove_from_queues_locate, (locate_ext s s') by done.
  by destruct (locate s qid queue_order) as [[[qt i] r]|].
Qed.

(** X8.  A table assigned to a queued customer and given back on
    completion goes to the back of the pool: when [t] is the first free
    table, is not occupied and is not zero, and some queued entry has the
    identifier, then after [assign_table] and [complete_service] with [t]
    the entry is returned, the pool is the former rest followed by [t], and
    the occupied map is as before. *)
Theorem assign_then_complete_rotates_pool s qid preference now t rest qt x :
  available_tables s = t :: rest →
  occupied_tables s !! t = None →
  t ≠ 0%Z →
  x ∈ current_queues s qt → queue_id (heap s x) = qid →
  let s1 := (assign_table s qid preference).1 in
  let out := complete_service s1 qid (Some t) now in
  is_Some out.2
  ∧ available_tables out.1 = rest ++ [t]
  ∧ occupied_tables out.1 = occupied_tables s.
Proof.
  intros Ha Hfree Ht Hx Hid s1 out.
  destruct (assign_table_spec s qid preference t rest Ha)
    as (_ & Ha1 & Ho1 & Hq1 & _ & _ & _).
  fold s1 in Ha1, Ho1, Hq1.
  assert (∃ r, (remove_from_queue s1 qid).2 = Some r) as [r Hr].
  { destruct (not_unknown_id_remove s qid qt x Hx Hid) as [r Hr].
    exists r. rewrite <- Hr. apply remove_from_queue_ext; [done|].
    intros y. by destruct (assign_table_static s qid preference y) as (? & _). }
  pose proof (remove_from_queue_frame s1 qid) as [[Ha2 Ho2] _].
  subst out. rewrite complete_service_unfold.
  destruct (remove_from_queue s1 qid) as [s2 [r'|]]; cbn [fst snd] in *;
    [|done].
  unfold table_to_free. cbn [occupied_tables available_tables with_heap].
  rewrite Ho2, Ho1, decide_True
    by (split; [done | rewrite lookup_insert_eq; by eexists]).
  cbn [fst snd with_tables available_tables occupied_tables with_heap].
  rewrite Ha2, Ha1. split_and!; [by eexists | done |].
  by rewrite delete_insert_id.
Qed.

Lemma assign_then_complete_rotates_pool_witness :
  let svc := (join_queue (new_service no_entries) "Ann" DINE_IN 2 None None
                None None None "q_1" 0 0).1 in
  let s := queue_manager svc in
  let out := complete_service (assign_table s "q_1" None).1 "q_1"
               (Some 1%Z) 9 in
  is_Some out.2
  ∧ available_tables out.1 = fmap (M := list) Z.of_nat (seq 2 19) ++ [1%Z]
  ∧ occupied_tables out.1 = occupied_tables s.
Proof.
  intros svc s.
  apply (assign_then_complete_rotates_pool s "q_1" None 9 1
           (fmap (M := list) Z.of_nat (seq 2 19)) DINE_IN 0);
    try reflexivity; [done | by apply list_elem_of_singleton].
Defined.

(** * Further properties: exhausting the pool *)

Lemma assign_tables_cons s qid qids :
  assign_tables s (qid :: qids)
  = ((assign_tables (assign_table s qid None).1 qids).1,
     (assign_table s qid None).2
     :: (assign_tables (assign_table s qid None).1 qids).2).
Proof.
  cbn [assign_tables]. destruct (assign_table s qid None) as [s1 t].
  cbn [fst snd]. by destruct (assign_tables s1 qids) as [s2 ts].
Qed.

Lemma assign_tables_spec s qids :
  (assign_tables s qids).2
  = (Some <$> take (length qids) (available_tables s))
    ++ replicate (length qids - length (available_tables s)) None
  ∧ available_tables (assign_tables s qids).1
    = drop (length qids) (available_tables s).
Proof.
  revert s. induction qids as [|qid qids IH]; intros s; [done|].
  rewrite assign_tables_cons. cbn [fst snd length].
  destruct (IH (assign_table s qid None).1) as [IH1 IH2].
  rewrite IH1, IH2. unfold assign_table.
  destruct (available_tables s) as [|t rest] eqn:Ha;
    cbn [fst snd available_tables with_tables with_heap].
  - rewrite Ha, !take_nil, !drop_nil. cbn [length fmap list_fmap app].
    rewrite !Nat.sub_0_r. done.
  - done.
Qed.

Lemma length_table_range n : length (table_range n) = n.
Proof. unfold table_range. by rewrite length_fmap, length_seq. Qed.

(** X9.  Tables are handed out from the front of the pool, one per call,
    until the pool is empty; every later call returns nothing.  On a new
    manager with tables [1..n], successive calls of [assign_table] return
    [1], [2], ..., [n] and then nothing, whatever the identifiers are. *)
Theorem assign_table_until_exhausted h n qids :
  let out := assign_tables (new_manager h n) qids in
  out.2 = (Some <$> take (length qids) (table_range n))
          ++ replicate (length qids - n) None
  ∧ available_tables out.1 = drop (length qids) (table_range n).
Proof.
  intros out. subst out.
  destruct (assign_tables_spec (new_manager h n) qids) as [H1 H2].
  cbn [available_tables new_manager] in H1, H2.
  by rewrite length_table_range in H1.
Qed.

(** Scenario of the specification: on a manager with 3 tables the fourth
    [assign_table] returns nothing. *)
Example fourth_assignment_of_three_tables :
  (assign_tables (new_manager no_entries 3) ["a"; "b"; "c"; "d"]%string).2
  = [Some 1; Some 2; Some 3; None]%Z.
Proof. by vm_compute. Qed.

(** * Further properties: the summary *)

Lemma count_status_bound h (queue : list oid) :
  (0 ≤ count_status h WAITING queue
   ∧ 0 ≤ count_status h CALLED queue
   ∧ 0 ≤ count_status h PREPARING queue
   ∧ count_status h WAITING queue + count_status h CALLED queue
     + count_status h PREPARING queue ≤ Z.of_nat (length queue))%Z.
Proof.
  unfold count_status. split_and!; try lia.
  induction queue as [|r rest IH]; [done|].
  rewrite !filter_cons.
  destruct (status (h r)); repeat case_decide; try done; cbn [length]; lia.
Qed.

Lemma tables_ok_count n s :
  tables_ok n s →
  length (available_tables s) + size (occupied_tables s) = n.
Proof.
  intros (Hnd & Hdisj & Hall).
  rewrite <- (size_dom (D := gset Z)).
  rewrite <- (size_list_to_set (C := gset Z)) by done.
  rewrite <- size_union by by apply disjoint_intersection_L.
  rewrite Hall, size_list_to_set, length_table_range; [done|].
  apply (NoDup_fmap_2 _), NoDup_seq.
Qed.

(** X10.  In every state reached from a manager with tables [1..n], the
    overall summary reports numbers of available and of occupied tables
    that add up to [n]; and in the summary of each queue the counts of
    waiting, called and preparing entries are not negative and add up to at
    most the total, which is the length of the queue. *)
Theorem queue_summary_counts h n ops :
  let s := run (new_manager h n) ops in
  (overall_available_tables (get_queue_summary s).2
   + overall_occupied_tables (get_queue_summary s).2 = Z.of_nat n)%Z
  ∧ ∀ qt,
      let q := (get_queue_summary s).1 qt in
      (0 ≤ waiting q ∧ 0 ≤ called q ∧ 0 ≤ preparing q
       ∧ waiting q + called q + preparing q ≤ total q)%Z
      ∧ total q = Z.of_nat (length (current_queues s qt))
      ∧ estimated_wait q = (waiting q * average_service_time s)%Z.
Proof.
  intros s. split.
  - cbn [snd get_queue_summary overall_summary overall_available_tables
         overall_occupied_tables].
    pose proof (tables_ok_count n s
                  (run_tables_ok n _ ops (tables_ok_new h n))). lia.
  - intros qt q. subst q.
    cbn [fst get_queue_summary queue_summary total waiting called preparing
         estimated_wait].
    split_and!; try done; apply count_status_bound.
Qed.

(** * Further properties: notifications and reminders *)

(** X11.  Recording a notification of a type at time [t] makes the entry
    not ready for that type at every time [now] with
    [now - cooldown < t], and changes nothing for the other types or once
    the cooldown has passed. *)
Theorem notification_cooldown e ty method success t ty' cooldown now :
  is_ready_for_notification (add_notification e ty method success t) ty'
    cooldown now
  = is_ready_for_notification e ty' cooldown now
    && negb (bool_decide (ty = ty' ∧ (now - minutes cooldown < t)%Z)).
Proof.
  unfold is_ready_for_notification, add_notification.
  cbn [notifications_sent set_notifications_sent].
  rewrite filter_app, length_app, filter_cons, filter_nil.
  cbn [n_type n_sent_at].
  destruct (decide (ty = ty' ∧ (now - minutes cooldown < t)%Z)) as [Hd|Hd].
  - rewrite (bool_decide_eq_true_2 _ Hd). cbn [length negb].
    rewrite andb_false_r. apply bool_decide_eq_false_2. lia.
  - rewrite (bool_decide_eq_false_2 _ Hd). cbn [length negb].
    by rewrite andb_true_r, Nat.add_0_r.
Qed.

Lemma should_send_reminder_true a hours_before now :
  should_send_reminder a hours_before now = true
  ↔ (scheduled_time a - hours hours_before - minutes 15 < now
     < scheduled_time a - hours hours_before + minutes 15)%Z.
Proof.
  unfold should_send_reminder. rewrite bool_decide_eq_true. lia.
Qed.

Lemma reminders_never_both a now :
  should_send_reminder a 24 now = true →
  should_send_reminder a 1 now = true → False.
Proof.
  rewrite !should_send_reminder_true.
  unfold hours, minutes, us_per_hour, us_per_minute. lia.
Qed.

(** X12.  A reminder for [hours_before] hours is due exactly at the times
    strictly less than 15 minutes away from [hours_before] hours before the
    scheduled time; the 24-hour and the 1-hour reminder are never due at
    the same time, so one call of [process_appointment_reminders] sends at
    most one notification for an appointment. *)
Theorem reminder_windows a now :
  (∀ hours_before,
     should_send_reminder a hours_before now = true
     ↔ (scheduled_time a - hours hours_before - minutes 15 < now
        < scheduled_time a - hours hours_before + minutes 15)%Z)
  ∧ ¬ (should_send_reminder a 24 now = true
       ∧ should_send_reminder a 1 now = true)
  ∧ length (reminders_due now a) ≤ 1.
Proof.
  split_and!.
  - intros hours_before. apply should_send_reminder_true.
  - intros [H24 H1]. by eapply reminders_never_both.
  - unfold reminders_due. destruct (decide _); [simpl; lia|].
    destruct (negb (reminder_sent_24h a) && should_send_reminder a 24 now)
      eqn:E24.
    + change (negb (reminder_sent_1h (set_reminder_sent_24h a true))
              && should_send_reminder (set_reminder_sent_24h a true) 1 now)
        with (negb (reminder_sent_1h a) && should_send_reminder a 1 now).
      destruct (negb (reminder_sent_1h a) && should_send_reminder a 1 now)
        eqn:E1; [|simpl; lia].
      apply andb_prop in E24 as [_ E24]. apply andb_prop in E1 as [_ E1].
      by destruct (reminders_never_both a now).
    + destruct (negb (reminder_sent_1h a) && should_send_reminder a 1 now);
        simpl; lia.
Qed.

Lemma reminders_due_sent_24h now a :
  reminder_sent_24h a = true →
  filter (λ x, x = "appointment_reminder_24h"%string) (reminders_due now a)
  = []
  ∧ reminder_sent_24h (remind now a) = true.
Proof.
  intros H. unfold reminders_due, remind. destruct (decide _); [done|].
  rewrite H. cbn [negb andb app].
  destruct (negb (reminder_sent_1h a) && should_send_reminder a 1 now);
    by rewrite ?H.
Qed.

Lemma reminders_due_sent_1h now a :
  reminder_sent_1h a = true →
  filter (λ x, x = "appointment_reminder_1h"%string) (reminders_due now a)
  = []
  ∧ reminder_sent_1h (remind now a) = true.
Proof.
  intros H. unfold reminders_due, remind. destruct (decide _); [done|].
  destruct (negb (reminder_sent_24h a) && should_send_reminder a 24 now);
    cbn [reminder_sent_1h set_reminder_sent_24h]; by rewrite H.
Qed.

Lemma reminders_log_sent_24h nows a :
  reminder_sent_24h a = true →
  filter (λ x, x = "appointment_reminder_24h"%string) (reminders_log nows a)
  = [].
Proof.
  revert a. induction nows as [|now rest IH]; intros a H; [done|].
  cbn [reminders_log]. rewrite filter_app.
  destruct (reminders_due_sent_24h now a H) as [-> H'].
  by rewrite IH.
Qed.

Lemma reminders_log_sent_1h nows a :
  reminder_sent_1h a = true →
  filter (λ x, x = "appointment_reminder_1h"%string) (reminders_log nows a)
  = [].
Proof.
  revert a. induction nows as [|now rest IH]; intros a H; [done|].
  cbn [reminders_log]. rewrite filter_app.
  destruct (reminders_due_sent_1h now a H) as [-> H'].
  by rewrite IH.
Qed.

Lemma reminders_due_first_24h now a :
  filter (λ x, x = "appointment_reminder_24h"%string) (reminders_due now a)
  = []
  ∨ filter (λ x, x = "appointment_reminder_24h"%string) (reminders_due now a)
    = ["appointment_reminder_24h"%string]
    ∧ reminder_sent_24h (remind now a) = true.
Proof.
  unfold reminders_due, remind. destruct (decide _); [by left|].
  destruct (negb (reminder_sent_24h a) && should_send_reminder a 24 now);
    [right | left];
    match goal with
    | |- context [negb (reminder_sent_1h ?x) && should_send_reminder ?x 1 now] =>
        destruct (negb (reminder_sent_1h x) && should_send_reminder x 1 now)
    end; done.
Qed.

Lemma reminders_due_first_1h now a :
  filter (λ x, x = "appointment_reminder_1h"%string) (reminders_due now a)
  = []
  ∨ filter (λ x, x = "appointment_reminder_1h"%string) (reminders_due now a)
    = ["appointment_reminder_1h"%string]
    ∧ reminder_sent_1h (remind now a) = true.
Proof.
  unfold reminders_due, remind. destruct (decide _); [by left|].
  destruct (negb (reminder_sent_24h a) && should_send_reminder a 24 now);
    match goal with
    | |- context [negb (reminder_sent_1h ?x) && should_send_reminder ?x 1 now] =>
        destruct (negb (reminder_sent_1h x) && should_send_reminder x 1 now)
    end; (by left) || (by right).
Qed.

(** X13.  Over any sequence of calls of [process_appointment_reminders], at
    any times, an appointment gets the 24-hour reminder at most once and
    the 1-hour reminder at most once. *)
Theorem each_reminder_sent_at_most_once nows a :
  length (filter (λ x, x = "appointment_reminder_24h"%string)
            (reminders_log nows a)) ≤ 1
  ∧ length (filter (λ x, x = "appointment_reminder_1h"%string)
              (reminders_log nows a)) ≤ 1.
Proof.
  revert a. induction nows as [|now rest IH]; intros a; [simpl; lia|].
  cbn [reminders_log]. rewrite !filter_app, !length_app.
  destruct (IH (remind now a)) as [IH1 IH2]. split.
  - destruct (reminders_due_first_24h now a) as [-> | [-> Hflag]];
      [simpl; lia|].
    rewrite (reminders_log_sent_24h rest _ Hflag). simpl. lia.
  - destruct (reminders_due_first_1h now a) as [-> | [-> Hflag]];
      [simpl; lia|].
    rewrite (reminders_log_sent_1h rest _ Hflag). simpl. lia.
Qed.

(** Scenario of the specification: two calls within the 24-hour window
    send that reminder once. *)
Example reminder_within_window_twice :
  reminders_log [at_time 9 0 - hours 24 - minutes 5;
                 at_time 9 0 - hours 24 + minutes 5]%Z
    (mkAppointment "apt_1" COFFEE_MEETING (at_time 9 0) 60 "Ann" None None
       2 None "confirmed" false false)
  = ["appointment_reminder_24h"%string].
Proof. by vm_compute. Qed.

(** * Further properties: QR-code sessions *)

Lemma qr_scan_all_snoc q l x :
  QRCodeSession.scan_all q (l ++ [x])
  = (QRCodeSession.scan (QRCodeSession.scan_all q l) x.1.1 x.1.2 x.2).1.
Proof. unfold QRCodeSession.scan_all. by rewrite foldl_snoc. Qed.

(** X14.  A session counts and remembers its successful scans only.  After
    any sequence of scans of a new session, the scans that came before the
    expiry (8 hours after creation) are the successful ones: [scans] is
    their number, [active_sessions] holds exactly their session
    identifiers, each once, and [last_scanned_at] is the clock of the last
    of them; the table number and the expiry never change. *)
Theorem qr_scans_tracked id table t0 t0' (l : list (string * datetime * datetime)) :
  let q := QRCodeSession.scan_all (QRCodeSession.new id table t0 t0') l in
  let successful := filter (λ x, (x.1.2 < t0' + hours 8)%Z) l in
  NoDup (QRCodeSession.active_sessions q)
  ∧ (∀ sid, sid ∈ QRCodeSession.active_sessions q
            ↔ sid ∈ (λ x, x.1.1) <$> successful)
  ∧ QRCodeSession.scans q = Z.of_nat (length successful)
  ∧ QRCodeSession.last_scanned_at q = (λ x, x.2) <$> last successful
  ∧ QRCodeSession.expires_at q = (t0' + hours 8)%Z
  ∧ QRCodeSession.table_number q = table.
Proof.
  induction l as [|[[sid now] now'] l IH] using rev_ind.
  - cbn. split_and!; try done. apply NoDup_nil_2.
  - cbn zeta in *. rewrite qr_scan_all_snoc, filter_app.
    destruct IH as (Hnd & Hmem & Hscans & Hlast & Hexp & Htable).
    set (q := QRCodeSession.scan_all _ l) in *.
    unfold QRCodeSession.scan, QRCodeSession.is_valid.
    cbn [fst snd]. rewrite Hexp, filter_cons, filter_nil. cbn [fst snd].
    destruct (decide (now < t0' + hours 8)%Z) as [Hv|Hv].
    + rewrite bool_decide_eq_true_2 by done.
      cbn [negb fst QRCodeSession.active_sessions QRCodeSession.scans
           QRCodeSession.last_scanned_at QRCodeSession.expires_at
           QRCodeSession.table_number].
      rewrite fmap_app, length_app, last_snoc. cbn [fmap list_fmap length].
      split_and!; try done;
        [| |rewrite Hscans, Nat2Z.inj_add; reflexivity].
      * destruct (decide (sid ∈ QRCodeSession.active_sessions q)); [done|].
        apply NoDup_app. split_and!; [done | | apply NoDup_singleton].
        intros x Hx ->%list_elem_of_singleton. done.
      * intros sid'. rewrite elem_of_app, <- Hmem, list_elem_of_singleton.
        cbn [fst snd].
        destruct (decide (sid ∈ QRCodeSession.active_sessions q)).
        -- split; [by left | intros [?| ->]; done].
        -- by rewrite elem_of_app, list_elem_of_singleton.
    + rewrite bool_decide_eq_false_2 by done. cbn [negb fst].
      by rewrite app_nil_r.
Qed.

(** X15.  A code that was just generated is found by [scan_table_qr]: the
    scan returns the table number exactly when it comes before the expiry,
    8 hours after the code was generated, and nothing otherwise; the
    sessions stored under other identifiers are not touched; and a scan of
    an identifier that is not stored returns nothing and changes nothing. *)
Theorem scan_after_generate sessions table id t0 t0' sid now now' :
  let sessions1 := (generate_table_qr sessions table id t0 t0').1 in
  (scan_table_qr sessions1 id sid now now').2
  = (if bool_decide (now < t0' + hours 8)%Z then Some table else None)
  ∧ (∀ id', id' ≠ id →
       (scan_table_qr sessions1 id sid now now').1 !! id' = sessions !! id')
  ∧ (∀ id', sessions1 !! id' = None →
       scan_table_qr sessions1 id' sid now now' = (sessions1, None)).
Proof.
  intros sessions1. subst sessions1. unfold generate_table_qr, scan_table_qr.
  cbn [fst]. rewrite lookup_insert_eq.
  unfold QRCodeSession.scan, QRCodeSession.is_valid, QRCodeSession.new.
  cbn [QRCodeSession.expires_at].
  split_and!.
  - by destruct (bool_decide (now < t0' + hours 8)%Z).
  - intros id' Hne.
    destruct (bool_decide (now < t0' + hours 8)%Z); cbn [negb fst];
      by rewrite !lookup_insert_ne.
  - intros id' Hnone. by rewrite Hnone.
Qed.

(** * Further properties: the service's queues *)

Lemma progress_entry_static now h i r :
  static_eq h (progress_entry now h i r).
Proof.
  unfold progress_entry, _send_notification.
  destruct (decide _); [done|]. destruct (decide _).
  - destruct (is_ready_for_notification _ _ _ _).
    + eapply static_eq_trans; by apply static_eq_hset.
    + by apply static_eq_hset.
  - destruct (_ && _); [by apply static_eq_hset | done].
Qed.

Lemma progress_queue_static now queue :
  ∀ h i, static_eq h (progress_queue now h i queue).
Proof.
  induction queue as [|r rest IH]; intros h i; [done|].
  cbn [progress_queue].
  eapply static_eq_trans; [apply progress_entry_static | apply IH].
Qed.

Lemma progress_queues_static now (queues : QueueType → list oid) qts :
  ∀ h, static_eq h
         (foldl (λ h qt, progress_queue now h 0 (queues qt)) h qts).
Proof.
  induction qts as [|qt rest IH]; intros h; [done|]. cbn [foldl].
  eapply static_eq_trans; [apply progress_queue_static | apply IH].
Qed.

(** An operation other than [join_queue] adds no entry to a queue and
    changes neither the identifier, nor the type, nor the priority of an
    entry. *)
Lemma svc_step_frame svc o :
  not_join o →
  (∀ qt x, x ∈ current_queues (queue_manager (svc_step svc o)) qt →
           x ∈ current_queues (queue_manager svc) qt)
  ∧ static_eq (heap (queue_manager svc))
      (heap (queue_manager (svc_step svc o)))
  ∧ next_oid (svc_step svc o) = next_oid svc.
Proof.
  intros Ho. destruct o; try done; cbn [svc_step].
  - (* update_queue_progress *)
    unfold update_queue_progress.
    cbn [queue_manager with_manager heap with_heap current_queues next_oid].
    split_and!; [done | apply progress_queues_static | done].
  - (* call_next_customer *)
    unfold svc_call_next_customer.
    pose proof (call_next_customer_frame (queue_manager svc) qt now)
      as (Hq1 & _).
    pose proof (call_next_customer_static (queue_manager svc) qt now) as Hst1.
    destruct (call_next_customer (queue_manager svc) qt now) as [s1 [r|]];
      cbn [fst snd] in *;
      [|cbn [queue_manager with_manager next_oid]; rewrite Hq1;
        by split_and!].
    set (s2 := if decide (qt = DINE_IN) then _ else s1).
    assert (current_queues s2 = current_queues s1
            ∧ static_eq (heap s1) (heap s2)) as [Hq2 Hst2].
    { subst s2. destruct (decide (qt = DINE_IN)); [|done]. split.
      - apply assign_table_frame.
      - apply assign_table_static. }
    cbn [queue_manager with_manager heap with_heap current_queues next_oid].
    rewrite Hq2, Hq1. split_and!; [done | | done].
    eapply static_eq_trans; [exact Hst1|].
    eapply static_eq_trans; [exact Hst2|].
    unfold _send_notification. by apply static_eq_hset.
  - (* complete_service *)
    unfold svc_complete_service.
    pose proof (complete_service_queues (queue_manager svc) qid None now)
      as Hq.
    pose proof (complete_service_static (queue_manager svc) qid None now)
      as Hst.
    destruct (complete_service (queue_manager svc) qid None now)
      as [s1 entry]; cbn [fst snd] in *.
    cbn [queue_manager with_manager next_oid].
    split_and!; [|done..]. intros qt' x. rewrite Hq.
    apply remove_from_queue_subset.
  - (* cancel_queue_entry *)
    unfold cancel_queue_entry.
    pose proof (remove_from_queue_subset (queue_manager svc) qid) as Hsub.
    pose proof (remove_from_queue_static (queue_manager svc) qid) as Hst.
    destruct (remove_from_queue (queue_manager svc) qid) as [s1 [r|]];
      cbn [fst snd queue_manager with_manager heap with_heap current_queues
           next_oid] in *; split_and!; try done.
    eapply static_eq_trans; [exact Hst|]. by apply static_eq_hset.
  - (* schedule_appointment *)
    unfold schedule_appointment.
    destruct (negb _); [done|].
    by destruct (new_appointment _ _ _ _ _ _ _ _ _ _).
Qed.

Lemma new_entry_Ok qid qt name phone email size order e0 :
  new_entry qid qt name phone email size order = Ok e0 →
  e0 = mkQueueEntry qid qt WAITING 0 name phone email size order
         (truthy order) 5 None None None 0 0 [] [] None None
  ∧ (1 ≤ size ≤ 12)%Z.
Proof.
  unfold new_entry. destruct (decide _); [|done]. by intros [= <-].
Qed.

(** What [join_queue] does when every queued entry has priority 0 and was
    constructed earlier: the new entry goes to the back of its queue. *)
Lemma join_queue_spec svc name qt size phone email special_requests
    session_id order qid now now_sent :
  svc_plain svc →
  (∀ qt' x, x ∈ current_queues (queue_manager svc) qt' → x < next_oid svc) →
  (1 ≤ size ≤ 12)%Z →
  let out := join_queue svc name qt size phone email special_requests
               session_id order qid now now_sent in
  let r := next_oid svc in
  let s := queue_manager svc in
  let s' := queue_manager out.1 in
  let position := (Z.of_nat (length (current_queues s qt)) + 1)%Z in
  out.2 = Ok r
  ∧ next_oid out.1 = S r
  ∧ current_queues s' qt = current_queues s qt ++ [r]
  ∧ (∀ qt', qt' ≠ qt → current_queues s' qt' = current_queues s qt')
  ∧ (∀ x, x ≠ r → ∃ v, heap s' x = set_current_position (heap s x) v
                         ∨ heap s' x = heap s x)
  ∧ queue_id (heap s' r) = qid
  ∧ queue_type (heap s' r) = qt
  ∧ priority (heap s' r) = 0%Z
  ∧ status (heap s' r) = WAITING
  ∧ original_position (heap s' r) = position
  ∧ current_position (heap s' r) = position
  ∧ estimated_ready_time (heap s' r)
    = Some (now + minutes ((position - 1) * average_service_time s + 5))%Z
  ∧ same_tables s s' ∧ same_settings s s'.
Proof.
  intros Hplain Hlt Hsize out r s s' position. subst out s'.
  unfold join_queue, new_entry. rewrite decide_True by done.
  cbn zeta. fold r.
  match goal with |- context [add_to_queue ?s0' r] => set (s0 := s0') end.
  set (e2 := heap s0 r).
  assert (queue_id e2 = qid ∧ queue_type e2 = qt ∧ priority e2 = 0%Z
          ∧ status e2 = WAITING ∧ estimated_prep_time e2 = 5%Z)
    as (Hid & Hty & Hpr & Hstat & Hprep).
  { subst e2 s0. cbn [heap with_heap]. rewrite hset_eq.
    by destruct (truthy order). }
  assert (∀ x, x ≠ r → heap s0 x = heap s x) as Hold.
  { intros x Hx. subst s0. cbn [heap with_heap]. by rewrite hset_ne. }
  destruct (add_to_queue_spec s0 r)
    as (l1 & l2 & Hq & Hq' & Hne & _ & Hl2 & Hret & H1 & _ & Hheap).
  fold e2 in Hq, Hq', Hne, Hl2, H1. rewrite Hty in Hq, Hq', Hne.
  change (current_queues s0) with (current_queues s) in Hq, Hne.
  assert (l2 = []) as ->.
  { destruct l2 as [|y l2']; [done|]. specialize (Hl2 y l2' eq_refl).
    assert (y ∈ current_queues s qt) as Hy by (rewrite Hq; set_solver).
    assert (y ≠ r) as Hyr by (apply Hlt in Hy; unfold r; lia).
    assert (priority (heap s0 y) = 0%Z) as Hy0
      by (rewrite Hold by done; exact (Hplain qt y Hy)).
    lia. }
  rewrite app_nil_r in Hq.
  assert (heap (add_to_queue s0 r).1 r
          = set_current_position
              (set_current_position
                 (set_original_position e2 (Z.of_nat (length l1) + 1))
                 (Z.of_nat (length l1) + 1))
              (Z.of_nat (0 + length l1) + 1)) as Hr.
  { rewrite Hheap, update_positions_from_last by apply not_elem_of_nil.
    by rewrite H1, hset_eq. }
  assert (∀ x, x ≠ r →
               ∃ v, heap (add_to_queue s0 r).1 x
                    = set_current_position (heap s x) v
                    ∨ heap (add_to_queue s0 r).1 x = heap s x) as Hother.
  { intros x Hx. rewrite Hheap.
    destruct (update_positions_from_fields (heap (enqueue s0 r).1) 0
                (l1 ++ [r]) x) as [v Hv].
    exists v. rewrite H1. by rewrite H1, hset_ne, Hold in Hv. }
  pose proof (add_to_queue_frame s0 r) as (Hap & Hav & Hoc & Htt & Havg).
  destruct (add_to_queue s0 r) as [s1 pos]. cbn [fst snd] in *.
  cbn [fst snd queue_manager next_oid heap with_heap current_queues].
  unfold _send_notification. subst position pos.
  rewrite !hset_eq, Hr, !Hq.
  split_and!; try done.
  - intros x Hx. rewrite !hset_ne by done. by apply Hother.
  - cbn [estimated_ready_time add_notification set_notifications_sent
         set_estimated_ready_time].
    unfold entry_estimated_wait_time.
    cbn [estimated_prep_time set_current_position set_original_position].
    by rewrite Havg, Hprep.
Qed.

Lemma join_queue_invalid svc name qt size phone email special_requests
    session_id order qid now now_sent :
  ¬ (1 ≤ size ≤ 12)%Z →
  join_queue svc name qt size phone email special_requests session_id order
    qid now now_sent = (svc, Raise ValidationError).
Proof.
  intros Hsize. unfold join_queue, new_entry. by rewrite decide_False.
Qed.

Lemma svc_step_plain svc o :
  svc_ok svc → svc_plain svc → svc_plain (svc_step svc o).
Proof.
  intros [_ Hlt] Hplain.
  assert (∀ o', not_join o' → svc_plain (svc_step svc o')) as Hframe.
  { intros o' Ho. destruct (svc_step_frame svc o' Ho) as (Hsub & Hst & _).
    intros qt r Hr%Hsub. destruct (Hst r) as (_ & _ & ->). by eapply Hplain. }
  destruct o; try (by apply Hframe). cbn [svc_step].
  destruct (decide (1 ≤ size ≤ 12)%Z) as [Hsize|Hsize];
    [|by rewrite join_queue_invalid].
  destruct (join_queue_spec svc name qt size phone email special_requests
              session_id order qid now now_sent Hplain Hlt Hsize)
    as (_ & _ & Hq & Hne & Hother & _ & _ & Hpr & _).
  intros qt' x Hx.
  destruct (decide (x = next_oid svc)) as [->|Hxr]; [done|].
  destruct (Hother x Hxr) as [v Hv].
  assert (priority (heap (queue_manager (join_queue svc name qt size phone
            email special_requests session_id order qid now now_sent).1) x)
          = priority (heap (queue_manager svc) x)) as ->
    by by destruct Hv as [-> | ->].
  apply (Hplain qt').
  destruct (decide (qt' = qt)) as [->|Hqt].
  - rewrite Hq in Hx. set_solver.
  - by rewrite Hne in Hx.
Qed.

Lemma svc_run_plain h ops : svc_plain (svc_run (new_service h) ops).
Proof.
  induction ops as [|o ops IH] using rev_ind.
  - intros qt r []%elem_of_nil.
  - rewrite svc_run_snoc. apply svc_step_plain; [apply svc_run_ok | done].
Qed.

(** X16.  The service serves first come, first served.  In every state
    the service reaches, [join_queue] with a party size from 1 to 12
    returns a new entry that goes to the back of the queue of its type,
    with [original_position] and [current_position] one more than the number
    of entries already queued, status [waiting], priority 0 and a ready
    time of [now] plus the estimated wait; no other queue, no table, no
    appointment and no field of another entry but [current_position]
    changes.  With another party size it raises the validation error of
    the model and leaves the service as it is. *)
Theorem join_queue_goes_to_the_back h ops name qt size phone email
    special_requests session_id order qid now now_sent :
  let svc := svc_run (new_service h) ops in
  let out := join_queue svc name qt size phone email special_requests
               session_id order qid now now_sent in
  let r := next_oid svc in
  let s := queue_manager svc in
  let s' := queue_manager out.1 in
  let position := (Z.of_nat (length (current_queues s qt)) + 1)%Z in
  ((1 ≤ size ≤ 12)%Z →
   out.2 = Ok r
   ∧ next_oid out.1 = S r
   ∧ current_queues s' qt = current_queues s qt ++ [r]
   ∧ (∀ qt', qt' ≠ qt → current_queues s' qt' = current_queues s qt')
   ∧ (∀ x, x ≠ r → ∃ v, heap s' x = set_current_position (heap s x) v
                          ∨ heap s' x = heap s x)
   ∧ queue_id (heap s' r) = qid
   ∧ queue_type (heap s' r) = qt
   ∧ priority (heap s' r) = 0%Z
   ∧ status (heap s' r) = WAITING
   ∧ original_position (heap s' r) = position
   ∧ current_position (heap s' r) = position
   ∧ estimated_ready_time (heap s' r)
     = Some (now + minutes ((position - 1) * average_service_time s + 5))%Z
   ∧ same_tables s s' ∧ same_settings s s')
  ∧ (¬ (1 ≤ size ≤ 12)%Z → out = (svc, Raise ValidationError)).
Proof.
  intros svc out r s s' position. split.
  - apply join_queue_spec; [apply svc_run_plain | apply svc_run_ok].
  - apply join_queue_invalid.
Qed.

Lemma join_queue_goes_to_the_back_witness :
  let svc := svc_run (new_service no_entries)
               [JoinQueue "Ann" WALK_IN 2 None None None None None "q_1" 0 0;
                JoinQueue "Bob" DINE_IN 4 None None None None None "q_2" 1 1;
                JoinQueue "Cy" WALK_IN 1 None None None None None "q_3" 2 2;
                CancelQueueEntry "q_1" "left"] in
  let out := join_queue svc "Dee" WALK_IN 3 None None None None (Some "o_1")
               "q_4" 60 60 in
  out.2 = Ok 3
  ∧ current_queues (queue_manager out.1) WALK_IN = [2; 3]
  ∧ current_position (heap (queue_manager out.1) 3) = 2%Z.
Proof.
  intros svc out.
  destruct (proj1 (join_queue_goes_to_the_back no_entries
              [JoinQueue "Ann" WALK_IN 2 None None None None None "q_1" 0 0;
               JoinQueue "Bob" DINE_IN 4 None None None None None "q_2" 1 1;
               JoinQueue "Cy" WALK_IN 1 None None None None None "q_3" 2 2;
               CancelQueueEntry "q_1" "left"]
              "Dee" WALK_IN 3 None None None None (Some "o_1"%string) "q_4"
              60 60))
    as (H1 & _ & H2 & _ & _ & _ & _ & _ & _ & _ & H3 & _); [lia|].
  split_and!; [exact H1 | exact H2 | exact H3].
Defined.

(** * Further properties: calling a dine-in customer twice *)

Lemma svc_call_next_customer_dine_in svc r rest t pool now now_sent :
  current_queues (queue_manager svc) DINE_IN = r :: rest →
  available_tables (queue_manager svc) = t :: pool →
  let s := queue_manager svc in
  let out := svc_call_next_customer svc DINE_IN now now_sent in
  let s' := queue_manager out.1 in
  out.2 = Some r
  ∧ current_queues s' = current_queues s
  ∧ available_tables s' = pool
  ∧ occupied_tables s' = <[t := queue_id (heap s r)]> (occupied_tables s)
  ∧ table_number (heap s' r) = Some t
  ∧ status (heap s' r) = CALLED
  ∧ queue_id (heap s' r) = queue_id (heap s r).
Proof.
  intros Hq Ha s out s'. subst out s' s. unfold svc_call_next_customer.
  destruct (call_next_customer_front (queue_manager svc) DINE_IN now r rest
              Hq) as (Hret & Hr & _ & Hq1 & [Ha1 Ho1] & _).
  destruct (call_next_customer (queue_manager svc) DINE_IN now)
    as [s1 [r'|]] eqn:Hcall; cbn [fst snd] in *; [|done].
  injection Hret as ->. rewrite decide_True by done.
  assert (queue_id (heap s1 r) = queue_id (heap (queue_manager svc) r))
    as Hid by by rewrite Hr.
  rewrite Ha in Ha1.
  destruct (assign_table_spec s1 (queue_id (heap s1 r))
              (seating_preference (heap s1 r)) t pool Ha1)
    as (_ & Ha2 & Ho2 & Hq2 & _ & Hfields & Hmark).
  set (s2 := (assign_table s1 _ _).1) in *.
  cbn [fst snd queue_manager with_manager heap with_heap current_queues
       available_tables occupied_tables].
  unfold _send_notification. rewrite hset_eq.
  assert (table_number (heap s2 r) = Some t) as Ht.
  { apply (Hmark DINE_IN 0). rewrite Hq1, Hq. simpl.
    by rewrite decide_True. }
  split_and!; try done.
  - by rewrite Hq2.
  - by rewrite Ho2, Ho1, Hid.
  - destruct (Hfields r) as [-> | ->]; by rewrite Hr.
  - destruct (Hfields r) as [-> | ->]; by rewrite Hr.
Qed.

(** X17.  Calling the next dine-in customer twice, with no completion in
    between, takes two tables for the same customer: both calls return the
    front entry, the first two free tables both end up occupied under its
    [queue_id], and the entry carries the second one. *)
Theorem dine_in_called_twice_takes_two_tables svc r rest t1 t2 pool
    now1 sent1 now2 sent2 :
  current_queues (queue_manager svc) DINE_IN = r :: rest →
  available_tables (queue_manager svc) = t1 :: t2 :: pool →
  t1 ≠ t2 →
  let s := queue_manager svc in
  let first := svc_call_next_customer svc DINE_IN now1 sent1 in
  let second := svc_call_next_customer first.1 DINE_IN now2 sent2 in
  let s' := queue_manager second.1 in
  first.2 = Some r ∧ second.2 = Some r
  ∧ available_tables s' = pool
  ∧ occupied_tables s' !! t1 = Some (queue_id (heap s r))
  ∧ occupied_tables s' !! t2 = Some (queue_id (heap s r))
  ∧ table_number (heap s' r) = Some t2.
Proof.
  intros Hq Ha Hne s first second s'. subst second s'.
  destruct (svc_call_next_customer_dine_in svc r rest t1 (t2 :: pool)
              now1 sent1 Hq Ha) as (H1 & Hq1 & Ha1 & Ho1 & _ & _ & Hid1).
  fold first in H1, Hq1, Ha1, Ho1, Hid1.
  assert (current_queues (queue_manager first.1) DINE_IN = r :: rest) as Hq1'
    by by rewrite Hq1.
  destruct (svc_call_next_customer_dine_in first.1 r rest t2 pool
              now2 sent2 Hq1' Ha1) as (H2 & _ & Ha2 & Ho2 & Ht2 & _).
  split_and!; try done.
  - rewrite Ho2, Ho1, lookup_insert_ne, lookup_insert_eq by done. done.
  - by rewrite Ho2, lookup_insert_eq, Hid1.
Qed.

Lemma dine_in_called_twice_takes_two_tables_witness :
  let svc := (join_queue (new_service no_entries) "Ann" DINE_IN 2 None None
                None None None "q_1" 0 0).1 in
  let first := svc_call_next_customer svc DINE_IN 5 5 in
  let second := svc_call_next_customer first.1 DINE_IN 6 6 in
  let s' := queue_manager second.1 in
  first.2 = Some 0 ∧ second.2 = Some 0
  ∧ available_tables s' = fmap (M := list) Z.of_nat (seq 3 18)
  ∧ occupied_tables s' !! 1%Z = Some "q_1"%string
  ∧ occupied_tables s' !! 2%Z = Some "q_1"%string
  ∧ table_number (heap s' 0) = Some 2%Z.
Proof.
  intros svc.
  apply (dine_in_called_twice_takes_two_tables svc 0 [] 1 2
           (fmap (M := list) Z.of_nat (seq 3 18)) 5 5 6 6);
    [reflexivity | reflexivity | lia].
Defined.

(** * Further properties: cancelling *)

(** X18.  [cancel_queue_entry] returns false exactly when no queued entry
    has the identifier, and then leaves the service as it is; otherwise the
    entry [remove_from_queue] finds leaves its queue with status
    [cancelled].  In no case does a table change hands: a table assigned to
    the cancelled entry stays occupied. *)
Theorem cancel_queue_entry_effect svc qid reason :
  let s := queue_manager svc in
  let out := cancel_queue_entry svc qid reason in
  let s' := queue_manager out.1 in
  (out.2 = false ↔ unknown_id s qid)
  ∧ (unknown_id s qid → out.1 = svc)
  ∧ same_tables s s'
  ∧ ∀ r, (remove_from_queue s qid).2 = Some r →
         out.2 = true
         ∧ status (heap s' r) = CANCELLED
         ∧ current_queues s' = current_queues (remove_from_queue s qid).1.
Proof.
  intros s out s'. subst out s'. unfold cancel_queue_entry. fold s.
  pose proof (remove_from_queue_unknown_iff_aux s qid) as Hnone.
  pose proof (remove_from_queue_unknown s qid) as Hunknown.
  pose proof (remove_from_queue_frame s qid) as [Htab _].
  destruct (remove_from_queue s qid) as [s1 [r|]];
    cbn [fst snd queue_manager with_manager heap with_heap current_queues]
      in *.
  - split_and!; try done.
    + split; [done|]. by intros Hu%Hunknown.
    + by intros Hu%Hunknown.
    + intros r' [= <-]. by rewrite hset_eq.
  - destruct (proj1 Hnone eq_refl) as [-> Hu].
    split_and!; try done. intros _. subst s. by destruct svc.
Qed.

(** * Further properties: booked intervals *)

Lemma slot_conflict_true apts start_time end_time b :
  b ∈ apts → apt_status b ≠ "cancelled"%string →
  (start_time < scheduled_time b + minutes (duration_minutes b))%Z →
  (end_time > scheduled_time b)%Z →
  slot_conflict apts start_time end_time = true.
Proof.
  intros Hb Hst H1 H2.
  destruct (slot_conflict apts start_time end_time) eqn:E; [done|].
  rewrite slot_conflict_false in E. by destruct (E b Hb Hst).
Qed.

Lemma booked_unavailable svc time duration t d :
  booked svc time duration →
  (t < time + minutes duration)%Z → (t + minutes d > time)%Z →
  _is_time_slot_available (queue_manager svc) t d = false.
Proof.
  intros (b & Hb & <- & <- & Hst) H1 H2. unfold _is_time_slot_available.
  rewrite (slot_conflict_true _ _ _ b); try done. by rewrite Hst.
Qed.

Lemma booked_step svc o time duration :
  booked svc time duration → booked (svc_step svc o) time duration.
Proof.
  intros (b & Hb & Ht & Hd & Hst). unfold booked. destruct o; cbn [svc_step].
  - rewrite join_queue_appointments. by exists b.
  - by exists b.
  - rewrite svc_call_next_customer_appointments. by exists b.
  - rewrite svc_complete_service_appointments. by exists b.
  - rewrite cancel_queue_entry_appointments. by exists b.
  - exists b. split; [|done]. unfold schedule_appointment.
    destruct (negb _); [done|].
    destruct (new_appointment _ _ _ _ _ _ _ _ _ _); [|done].
    cbn [fst queue_manager with_manager appointments with_appointments].
    apply elem_of_app. by left.
  - exists (remind now b).
    destruct (remind_fields now b) as (-> & -> & ->).
    split; [|done]. unfold process_appointment_reminders.
    cbn [queue_manager with_manager appointments with_appointments].
    by apply list_elem_of_fmap_2.
Qed.

Lemma booked_run svc ops time duration :
  booked svc time duration → booked (svc_run svc ops) time duration.
Proof.
  intros Hb. induction ops as [|o ops IH] using rev_ind; [done|].
  rewrite svc_run_snoc. by apply booked_step.
Qed.

(** X19.  A booked interval stays blocked.  Once [schedule_appointment] has
    returned an appointment, then after any further operations of the
    service every request whose interval passes the overlap test against
    the booked one is unavailable, and scheduling it raises
    [SlotUnavailable]: no operation cancels or removes an appointment. *)
Theorem booked_interval_stays_blocked svc name ty time duration count phone
    email requirements apt_id a ops t d :
  (schedule_appointment svc name ty time duration count phone email
     requirements apt_id).2 = Ok a →
  (t < time + minutes duration)%Z → (t + minutes d > time)%Z →
  let later :=
    svc_run (schedule_appointment svc name ty time duration count phone
               email requirements apt_id).1 ops in
  _is_time_slot_available (queue_manager later) t d = false
  ∧ ∀ name' ty' count' phone' email' requirements' apt_id',
      schedule_appointment later name' ty' t d count' phone' email'
        requirements' apt_id'
      = (later, Raise SlotUnavailable).
Proof.
  intros Hok H1 H2 later.
  assert (_is_time_slot_available (queue_manager later) t d = false) as Hno.
  { apply (booked_unavailable _ time duration); [|done..].
    apply booked_run. revert Hok. unfold schedule_appointment.
    destruct (negb _); [done|].
    destruct (new_appointment _ _ _ _ _ _ _ _ _ _) as [b|] eqn:Hb; [|done].
    intros _. apply new_appointment_Ok in Hb as (-> & _).
    exists (mkAppointment apt_id ty time duration name phone email count
              requirements "confirmed" false false).
    split; [|done].
    cbn [fst queue_manager with_manager appointments with_appointments].
    apply elem_of_app. right. by apply list_elem_of_singleton. }
  split; [done|]. intros. unfold schedule_appointment. by rewrite Hno.
Qed.

Lemma booked_interval_stays_blocked_witness :
  let later :=
    svc_run (schedule_appointment (new_service no_entries) "Ann"
               COFFEE_MEETING (at_time 9 0) 60 2 None None None "apt_1").1
      [ProcessAppointmentReminders (at_time 8 0);
       JoinQueue "Bob" WALK_IN 2 None None None None None "q_1" 0 0] in
  _is_time_slot_available (queue_manager later) (at_time 9 30) 30 = false
  ∧ ∀ name' ty' count' phone' email' requirements' apt_id',
      schedule_appointment later name' ty' (at_time 9 30) 30 count' phone'
        email' requirements' apt_id'
      = (later, Raise SlotUnavailable).
Proof.
  apply (booked_interval_stays_blocked (new_service no_entries) "Ann"
           COFFEE_MEETING (at_time 9 0) 60 2 None None None "apt_1"
           (mkAppointment "apt_1" COFFEE_MEETING (at_time 9 0) 60 "Ann" None
              None 2 None "confirmed" false false));
    by vm_compute.
Defined.

(** * Further properties: the slots of a day *)

Lemma minutes_15_pos : (0 < minutes 15)%Z.
Proof. by vm_compute. Qed.

Lemma slots_loop_sorted s duration end_time fuel :
  ∀ current_time slots res,
    slots_loop fuel s duration end_time current_time slots = Some res →
    ∃ l, res = slots ++ l
         ∧ StronglySorted Z.lt l
         ∧ Forall (λ t, (current_time ≤ t)%Z) l.
Proof.
  induction fuel as [|fuel IH]; intros current_time slots res; [done|].
  cbn [slots_loop]. destruct (decide _) as [Hle|Hgt].
  - intros (l & -> & Hs & Hge)%IH. pose proof minutes_15_pos as Hpos.
    destruct (_is_time_slot_available s current_time duration).
    + exists (current_time :: l). rewrite <- app_assoc. split_and!; [done| |].
      * constructor; [done|]. eapply Forall_impl; [exact Hge|].
        intros t Ht. simpl in Ht. lia.
      * constructor; [lia|]. eapply Forall_impl; [exact Hge|].
        intros t Ht. simpl in Ht. lia.
    + exists l. split_and!; [done..|]. eapply Forall_impl; [exact Hge|].
      intros t Ht. simpl in Ht. lia.
  - intros [= <-]. exists []. rewrite app_nil_r. by repeat constructor.
Qed.

(** The hour of a time of day [x] on any day. *)
Lemma hour_in_day (day x : Z) :
  (0 ≤ x < us_per_day)%Z →
  hour (day * us_per_day + x) = (x / us_per_hour)%Z.
Proof.
  intros Hx. unfold hour, us_per_day.
  replace (day * (24 * us_per_hour) + x)%Z
    with (x + (day * 24) * us_per_hour)%Z by lia.
  rewrite Z.div_add by done. rewrite Z_mod_plus_full.
  apply Z.mod_small. split.
  - apply Z.div_pos; [lia | done].
  - apply Z.div_lt_upper_bound; [done|]. unfold us_per_day in Hx. lia.
Qed.

(** A candidate whose interval, of positive length, ends by 20:00 starts
    at an hour from 8 to 19. *)
Lemma candidate_hour date t duration :
  candidate date t → (0 < duration)%Z →
  (t + minutes duration ≤ replace_hour date 20)%Z →
  (8 ≤ hour t < 20)%Z ∧ (replace_hour date 8 ≤ t < replace_hour date 20)%Z.
Proof.
  intros (k & Hk & ->) Hd Hend. unfold replace_hour in *.
  assert (0 < minutes duration)%Z as Hdm
    by (unfold minutes, us_per_minute; lia).
  pose proof minutes_15_pos as H15.
  assert (0 ≤ k * minutes 15)%Z as Hk15 by lia.
  split; [|lia].
  replace (date `div` us_per_day * us_per_day + 8 * us_per_hour
           + k * minutes 15)%Z
    with (date `div` us_per_day * us_per_day
          + (8 * us_per_hour + k * minutes 15))%Z by lia.
  rewrite hour_in_day by (unfold us_per_day, us_per_hour, us_per_minute in *; lia).
  split.
  - apply Z.div_le_lower_bound; [done | lia].
  - apply Z.div_lt_upper_bound; [done | lia].
Qed.

(** X20.  For a positive duration [get_available_slots] returns the slots
    of the day in strictly increasing order, all from 8:00 and before
    20:00, and the business-hours test of the availability check never
    excludes one: a candidate whose interval ends by 20:00 is returned
    exactly when it conflicts with no appointment that is not cancelled. *)
Theorem available_slots_of_a_day svc date ty duration :
  (0 < duration)%Z →
  ∃ slots,
    get_available_slots svc date ty duration = Some slots
    ∧ StronglySorted Z.lt slots
    ∧ (∀ t, t ∈ slots →
            (replace_hour date 8 ≤ t < replace_hour date 20)%Z)
    ∧ ∀ t, t ∈ slots ↔
        candidate date t
        ∧ (t + minutes duration ≤ replace_hour date 20)%Z
        ∧ slot_conflict (appointments (queue_manager svc)) t
            (t + minutes duration) = false.
Proof.
  intros Hd.
  destruct (get_available_slots_spec svc date ty duration)
    as (slots & Hslots & Hmem).
  exists slots. split; [done|].
  pose proof Hslots as Hloop. unfold get_available_slots in Hloop.
  apply slots_loop_sorted in Hloop as (l & -> & Hsorted & _).
  split_and!; [done | |].
  - intros t (Hc & Hend & _)%Hmem. by eapply candidate_hour.
  - intros t. rewrite Hmem. split.
    + intros (Hc & Hend & Hav). split_and!; [done..|].
      by apply is_time_slot_available_conflict.
    + intros (Hc & Hend & Hfree). split_and!; [done..|].
      unfold _is_time_slot_available. rewrite Hfree.
      destruct (candidate_hour date t duration Hc Hd Hend) as [Hh _].
      destruct (decide _); [lia | done].
Qed.

Lemma available_slots_of_a_day_witness :
  ∃ slots,
    get_available_slots (new_service no_entries) 0 COFFEE_DATE 60 = Some slots
    ∧ StronglySorted Z.lt slots
    ∧ (∀ t, t ∈ slots → (replace_hour 0 8 ≤ t < replace_hour 0 20)%Z)
    ∧ ∀ t, t ∈ slots ↔
        candidate 0 t
        ∧ (t + minutes 60 ≤ replace_hour 0 20)%Z
        ∧ slot_conflict (appointments (queue_manager (new_service no_entries)))
            t (t + minutes 60) = false.
Proof.
  apply (available_slots_of_a_day (new_service no_entries) 0 COFFEE_DATE 60).
  lia.
Defined.

(** * Further properties: the status report *)

(** X21.  In every state the service reaches, [get_queue_status] returns
    nothing exactly when no queued entry has the identifier; otherwise it
    reports on one queued entry with that identifier: the reported position
    is the [current_position] stored in the entry and its 1-based index in
    the queue of its type, and the reported wait is
    [(position - 1) * average_service_time + estimated_prep_time]. *)
Theorem queue_status_consistent h ops qid :
  let svc := svc_run (new_service h) ops in
  let s := queue_manager svc in
  match get_queue_status svc qid with
  | None => unknown_id s qid
  | Some report =>
      ∃ r,
        let e := heap s r in
        let p := current_position e in
        (1 ≤ p)%Z
        ∧ current_queues s (queue_type e) !! Z.to_nat (p - 1) = Some r
        ∧ queue_id e = qid
        ∧ report
          = mkStatusReport qid (status e) (Some p)
              (Some ((p - 1) * average_service_time s
                     + estimated_prep_time e)%Z)
              (estimated_ready_time e) (party_size e) (table_number e)
              (has_order e)
  end.
Proof.
  intros svc s. unfold get_queue_status, get_queue_position,
    get_estimated_wait_time. fold s.
  rewrite find_in_queues_locate, queue_position_in_locate,
    estimated_wait_time_in_locate.
  destruct (locate s qid queue_order) as [[[qt k] r]|] eqn:Hloc;
    cbn [fmap option_fmap option_map fst snd];
    [|by apply unknown_id_locate].
  apply locate_Some in Hloc as (_ & _ & l1 & l2 & _ & _ & Hq & -> & Hid & _).
  destruct (svc_run_ok h ops) as [(_ & Hty & Hpos) _]. fold svc s in Hty, Hpos.
  assert (current_queues s qt !! length l1 = Some r) as Hk
    by by rewrite Hq, list_lookup_middle.
  pose proof (Hpos qt _ _ Hk) as Hp.
  pose proof (Hty qt r (list_elem_of_lookup_2 _ _ _ Hk)) as Hqt.
  exists r. cbn zeta. rewrite Hp, Hqt.
  replace (Z.to_nat (Z.of_nat (length l1) + 1 - 1)) with (length l1) by lia.
  split_and!; [lia | done | done |].
  unfold entry_estimated_wait_time. do 3 f_equal. lia.
Qed.

(** * Further properties: progress updates *)

Lemma progress_effect_refl now e : progress_effect now e e.
Proof. by left. Qed.

Lemma progress_entry_effect now h i r :
  current_position (h r) = (Z.of_nat i + 1)%Z →
  (∀ x, x ≠ r → progress_entry now h i r x = h x)
  ∧ progress_effect now (h r) (progress_entry now h i r r).
Proof.
  intros Hp. unfold progress_entry, progress_effect.
  destruct (decide (status (h r) ≠ WAITING)) as [|Hw]; [split; [done | by left]|].
  assert (status (h r) = WAITING) as Hst
    by (destruct (decide (status (h r) = WAITING)); [done | by destruct Hw]).
  destruct (decide _) as [Hge|_]; [lia|].
  destruct (bool_decide (Z.of_nat i + 1 ≤ 2)%Z) eqn:Hle;
    [|split; [done | by left]].
  apply bool_decide_eq_true in Hle. cbn [andb].
  destruct (is_ready_for_notification (h r) "ready_soon" 10 now) eqn:Hready;
    [|split; [done | by left]].
  unfold _send_notification. split.
  - intros x Hx. by rewrite hset_ne.
  - right. rewrite hset_eq. split_and!; [done | done | lia | done].
Qed.

Lemma progress_queue_effect now queue :
  ∀ h i,
    NoDup queue →
    (∀ k x, queue !! k = Some x →
            current_position (h x) = (Z.of_nat (i + k) + 1)%Z) →
    ∀ x, (x ∉ queue → progress_queue now h i queue x = h x)
         ∧ progress_effect now (h x) (progress_queue now h i queue x).
Proof.
  induction queue as [|r rest IH]; intros h i Hnd Hpos x;
    [split; [done | by left]|].
  apply NoDup_cons in Hnd as [Hr Hnd]. cbn [progress_queue].
  pose proof (Hpos 0 r eq_refl) as Hr0. rewrite Nat.add_0_r in Hr0.
  destruct (progress_entry_effect now h i r Hr0) as [Hother Heff].
  destruct (IH (progress_entry now h i r) (S i) Hnd) with (x := x)
    as [Hout Hin].
  { intros k y Hk.
    assert (y ≠ r) as Hy
      by (intros ->; by apply list_elem_of_lookup_2 in Hk).
    rewrite Hother by done. rewrite (Hpos (S k) y Hk). lia. }
  split.
  - intros [Hx1 Hx2]%not_elem_of_cons. rewrite Hout by done. by apply Hother.
  - destruct (decide (x = r)) as [->|Hx].
    + by rewrite Hout.
    + by rewrite Hother in Hin.
Qed.

Lemma progress_queues_effect now (queues : QueueType → list oid) qts :
  NoDup qts →
  (∀ qt, NoDup (queues qt)) →
  (∀ qt qt' x, x ∈ queues qt → x ∈ queues qt' → qt = qt') →
  ∀ h,
    (∀ qt k x, queues qt !! k = Some x →
               current_position (h x) = (Z.of_nat k + 1)%Z) →
    ∀ x,
      ((∀ qt, qt ∈ qts → x ∉ queues qt) →
       foldl (λ h qt, progress_queue now h 0 (queues qt)) h qts x = h x)
      ∧ progress_effect now (h x)
          (foldl (λ h qt, progress_queue now h 0 (queues qt)) h qts x).
Proof.
  intros Hqts Hnd Hdisj.
  induction qts as [|qt rest IH]; intros h Hpos x; [split; [done | by left]|].
  apply NoDup_cons in Hqts as [Hqt Hrest]. cbn [foldl].
  destruct (progress_queue_effect now (queues qt) h 0 (Hnd qt)) with (x := x)
    as [Hout Hin]; [intros k y Hk; by apply (Hpos qt)|].
  destruct (IH Hrest (progress_queue now h 0 (queues qt))) with (x := x)
    as [Hout' Hin'].
  { intros qt' k y Hk.
    destruct (progress_queues_keeps now queues [qt] h Hnd Hpos y) as [_ Hc].
    cbn [foldl] in Hc. rewrite Hc. by apply (Hpos qt'). }
  split.
  - intros Hx. rewrite Hout'; [|intros qt' Hin''; apply Hx; by right].
    apply Hout, Hx. by left.
  - destruct (decide (x ∈ queues qt)) as [Hx|Hx].
    + rewrite Hout'; [done|]. intros qt' Hqt' Hx'.
      assert (qt = qt') as -> by by eapply Hdisj. done.
    + by rewrite Hout in Hin'.
Qed.

Lemma queue_order_NoDup : NoDup queue_order.
Proof. unfold queue_order. by apply (bool_decide_unpack _). Qed.

(** X22.  In every state the service reaches, [update_queue_progress]
    changes neither a queue, nor a table, nor an appointment, nor a
    position: to each entry it does nothing, or records one [ready_soon]
    notification for it, and that only for a waiting entry in position 1 or
    2 that is ready for it.  The branch that moves an entry up and sends
    [queue_progress] is never taken, because the positions are already
    recomputed at every insertion and removal. *)
Theorem update_queue_progress_effect h ops now :
  let svc := svc_run (new_service h) ops in
  let svc' := update_queue_progress svc now in
  current_queues (queue_manager svc') = current_queues (queue_manager svc)
  ∧ same_tables (queue_manager svc) (queue_manager svc')
  ∧ same_settings (queue_manager svc) (queue_manager svc')
  ∧ next_oid svc' = next_oid svc
  ∧ ∀ x, progress_effect now (heap (queue_manager svc) x)
           (heap (queue_manager svc') x).
Proof.
  intros svc svc'. subst svc'. unfold update_queue_progress.
  cbn [queue_manager with_manager heap with_heap current_queues next_oid].
  split_and!; try done. intros x.
  destruct (svc_run_ok h ops) as [(Hnd & Hty & Hpos) _].
  fold svc in Hnd, Hty, Hpos.
  apply progress_queues_effect; try done.
  - apply queue_order_NoDup.
  - intros qt qt' y Hy Hy'. by rewrite <- (Hty qt y Hy), <- (Hty qt' y Hy').
Qed.

(** * Further properties: the order of the queues under every operation *)

Lemma StronglySorted_sublist {A} (R : relation A) (l' l : list A) :
  l' `sublist_of` l → StronglySorted R l → StronglySorted R l'.
Proof.
  induction 1 as [|x l1 l2 Hsub IH|x l1 l2 Hsub IH]; intros Hs.
  - constructor.
  - apply StronglySorted_inv in Hs as [Hs Hall]. constructor; [by apply IH|].
    rewrite Forall_forall in Hall |- *. intros y Hy. apply Hall.
    by eapply elem_of_sublist.
  - apply StronglySorted_inv in Hs as [Hs _]. by apply IH.
Qed.

Lemma remove_from_queue_sublist s qid qt :
  current_queues (remove_from_queue s qid).1 qt
  `sublist_of` current_queues s qt.
Proof.
  unfold remove_from_queue. rewrite remove_from_queues_locate.
  destruct (locate s qid queue_order) as [[[qt0 i] r]|]; [|done].
  cbn [fst _update_positions with_heap with_queue current_queues].
  case_decide; [subst; apply sublist_delete | done].
Qed.

Lemma step_by_priority s o :
  (∀ qt, by_priority (heap s) (current_queues s qt)) →
  ∀ qt, by_priority (heap (step s o)) (current_queues (step s o) qt).
Proof.
  intros H qt. destruct o; cbn [step].
  - by apply add_to_queue_by_priority.
  - apply (by_priority_static (heap s)); [apply remove_from_queue_static|].
    eapply StronglySorted_sublist; [apply remove_from_queue_sublist | apply H].
  - apply (by_priority_static (heap s)); [apply call_next_customer_static|].
    destruct (call_next_customer_frame s qt0 now) as [-> _]. apply H.
  - apply (by_priority_static (heap s)); [apply complete_service_static|].
    rewrite complete_service_queues.
    eapply StronglySorted_sublist; [apply remove_from_queue_sublist | apply H].
  - apply (by_priority_static (heap s)); [apply assign_table_static|].
    destruct (assign_table_frame s qid preference) as [-> _]. apply H.
Qed.

(** X23.  Whatever sequence of [add_to_queue], [remove_from_queue],
    [call_next_customer], [complete_service] and [assign_table] a new manager
    goes through, every queue stays ordered by decreasing priority, and no
    operation changes the [priority], the [queue_type] or the [queue_id] of
    an entry. *)
Theorem queues_stay_ordered_by_priority h n ops :
  let s := run (new_manager h n) ops in
  (∀ qt, StronglySorted (λ a b, (priority (heap s a) >= priority (heap s b))%Z)
           (current_queues s qt))
  ∧ ∀ x, priority (heap s x) = priority (h x)
         ∧ queue_type (heap s x) = queue_type (h x)
         ∧ queue_id (heap s x) = queue_id (h x).
Proof.
  intros s. split.
  - subst s. induction ops as [|o ops IH] using rev_ind.
    + intros qt. constructor.
    + rewrite run_snoc. by apply step_by_priority.
  - intros x. destruct (run_static (new_manager h n) ops x) as (? & ? & ?).
    by split_and!.
Qed.

(** * Further properties: first come, first served *)

(** An operation other than [join_queue] only takes entries out of a queue:
    those that stay keep their relative order. *)
Lemma svc_step_sublist svc o qt :
  not_join o →
  current_queues (queue_manager (svc_step svc o)) qt
  `sublist_of` current_queues (queue_manager svc) qt.
Proof.
  intros Ho. destruct o; cbn [svc_step]; [done|..].
  - (* update_queue_progress *)
    unfold update_queue_progress.
    cbn [queue_manager with_manager heap with_heap current_queues].
    reflexivity.
  - (* call_next_customer *)
    unfold svc_call_next_customer.
    pose proof (call_next_customer_frame (queue_manager svc) qt0 now)
      as (Hq1 & _).
    destruct (call_next_customer (queue_manager svc) qt0 now) as [s1 [r|]];
      cbn [fst snd] in *;
      [|cbn [queue_manager with_manager]; rewrite Hq1; reflexivity].
    set (s2 := if decide (qt0 = DINE_IN) then _ else s1).
    assert (current_queues s2 = current_queues s1) as Hq2.
    { subst s2. destruct (decide (qt0 = DINE_IN)); [|done].
      apply assign_table_frame. }
    cbn [queue_manager with_manager heap with_heap current_queues].
    rewrite Hq2, Hq1. reflexivity.
  - (* complete_service *)
    unfold svc_complete_service.
    pose proof (complete_service_queues (queue_manager svc) qid None now)
      as Hq.
    destruct (complete_service (queue_manager svc) qid None now)
      as [s1 entry]; cbn [fst snd] in *.
    cbn [queue_manager with_manager]. rewrite Hq.
    apply remove_from_queue_sublist.
  - (* cancel_queue_entry *)
    unfold cancel_queue_entry.
    pose proof (remove_from_queue_sublist (queue_manager svc) qid qt) as Hsub.
    destruct (remove_from_queue (queue_manager svc) qid) as [s1 [r|]];
      cbn [fst snd queue_manager with_manager heap with_heap current_queues]
        in *; exact Hsub.
  - (* schedule_appointment *)
    unfold schedule_appointment.
    destruct (negb _); [reflexivity|].
    destruct (new_appointment _ _ _ _ _ _ _ _ _ _); reflexivity.
  - (* process_appointment_reminders *)
    reflexivity.
Qed.

(** What one operation does to a queue: it takes entries out, or it is a
    [join_queue] that puts the entry it constructs at the back. *)
Lemma svc_step_queue svc o qt :
  svc_ok svc → svc_plain svc →
  current_queues (queue_manager (svc_step svc o)) qt
  `sublist_of` current_queues (queue_manager svc) qt
  ∨ current_queues (queue_manager (svc_step svc o)) qt
    = current_queues (queue_manager svc) qt ++ [next_oid svc].
Proof.
  intros [_ Hbound] Hplain.
  destruct o as [name qt0 size phone email special_requests session_id order
                 qid now now_sent| | | | | |];
    try (left; by apply svc_step_sublist).
  cbn [svc_step]. destruct (decide (1 ≤ size ≤ 12)%Z) as [Hsize|Hsize].
  - destruct (join_queue_spec svc name qt0 size phone email special_requests
                session_id order qid now now_sent Hplain Hbound Hsize)
      as (_ & _ & Hq & Hother & _).
    destruct (decide (qt = qt0)) as [->|Hne]; [by right|].
    left. rewrite Hother by done. reflexivity.
  - left. rewrite join_queue_invalid by done. reflexivity.
Qed.

(** X24.  The service serves first come, first served, whatever happens in
    between.  [join_queue] hands out the object identities in the order of
    the calls; in every state the service reaches, every queue lists its
    entries in that order.  No operation swaps two entries: each one either
    takes entries out of a queue, or is a [join_queue] that puts the entry it
    constructs at the back. *)
Theorem service_keeps_arrival_order h ops :
  let svc := svc_run (new_service h) ops in
  (∀ qt, StronglySorted lt (current_queues (queue_manager svc) qt))
  ∧ (∀ qt r, r ∈ current_queues (queue_manager svc) qt → r < next_oid svc)
  ∧ ∀ o qt,
      current_queues (queue_manager (svc_step svc o)) qt
      `sublist_of` current_queues (queue_manager svc) qt
      ∨ current_queues (queue_manager (svc_step svc o)) qt
        = current_queues (queue_manager svc) qt ++ [next_oid svc].
Proof.
  intros svc. split_and!.
  - subst svc. induction ops as [|o ops IH] using rev_ind.
    + intros qt. constructor.
    + intros qt. rewrite svc_run_snoc.
      destruct (svc_step_queue (svc_run (new_service h) ops) o qt
                  (svc_run_ok h ops) (svc_run_plain h ops)) as [Hsub|Hq].
      * eapply StronglySorted_sublist; [exact Hsub | apply IH].
      * rewrite Hq. apply StronglySorted_app_2; [|apply IH|].
        -- intros x1 x2 Hx1 ->%list_elem_of_singleton.
           by apply (svc_run_ok h ops) in Hx1.
        -- repeat constructor.
  - apply (svc_run_ok h ops).
  - intros o qt. apply svc_step_queue; [apply svc_run_ok | apply svc_run_plain].
Qed.

(** * Further properties: the table pool of the service *)

(** The only thing an operation of the service does to the tables is to take
    the first free one. *)
Lemma svc_step_tables svc o :
  let s := queue_manager svc in
  let s' := queue_manager (svc_step svc o) in
  same_tables s s'
  ∨ ∃ t rest qid,
      available_tables s = t :: rest
      ∧ available_tables s' = rest
      ∧ occupied_tables s' = <[t := qid]> (occupied_tables s).
Proof.
  intros s s'. subst s s'. destruct o; cbn [svc_step].
  - (* join_queue *)
    left. unfold join_queue.
    destruct (new_entry _ _ _ _ _ _ _) as [e0|f]; [|done].
    match goal with |- context [add_to_queue ?s0 ?r] =>
      pose proof (add_to_queue_frame s0 r) as (_ & Ha & Ho & _);
      destruct (add_to_queue s0 r) as [s1 position] end.
    by split.
  - (* update_queue_progress *)
    by left.
  - (* call_next_customer *)
    unfold svc_call_next_customer.
    pose proof (call_next_customer_frame (queue_manager svc) qt now)
      as (_ & [Ha Ho] & _).
    destruct (call_next_customer (queue_manager svc) qt now) as [s1 [r|]];
      cbn [fst snd] in *; [|by left].
    cbn [queue_manager with_manager available_tables occupied_tables
         with_heap].
    destruct (decide (qt = DINE_IN)); [|by left].
    destruct (available_tables s1) as [|t rest] eqn:Hpool.
    + left. unfold assign_table. rewrite Hpool.
      split; cbn [fst available_tables occupied_tables with_heap]; congruence.
    + right. exists t, rest, (queue_id (heap s1 r)).
      destruct (assign_table_spec s1 (queue_id (heap s1 r))
                  (seating_preference (heap s1 r)) t rest Hpool)
        as (_ & Ha' & Ho' & _).
      rewrite Ha', Ho', Ho. by split_and!.
  - (* complete_service *)
    left. apply svc_complete_service_tables.
  - (* cancel_queue_entry *)
    left. unfold cancel_queue_entry.
    pose proof (remove_from_queue_frame (queue_manager svc) qid) as (H & _).
    by destruct (remove_from_queue (queue_manager svc) qid) as [s1 [r|]].
  - (* schedule_appointment *)
    left. unfold schedule_appointment.
    destruct (negb _); [done|].
    by destruct (new_appointment _ _ _ _ _ _ _ _ _ _).
  - (* process_appointment_reminders *)
    by left.
Qed.

Lemma svc_run_app svc ops ops' :
  svc_run svc (ops ++ ops') = svc_run (svc_run svc ops) ops'.
Proof. unfold svc_run. by rewrite foldl_app. Qed.

Lemma svc_run_pool_suffix svc ops :
  available_tables (queue_manager (svc_run svc ops))
  `suffix_of` available_tables (queue_manager svc).
Proof.
  induction ops as [|o ops IH] using rev_ind; [done|].
  rewrite svc_run_snoc.
  destruct (svc_step_tables (svc_run svc ops) o)
    as [[Ha _]|(t & rest & qid & Hpool & Ha & _)].
  - by rewrite Ha.
  - rewrite Ha. etrans; [|exact IH]. rewrite Hpool. by apply suffix_cons_r.
Qed.

(** X25.  The service only ever takes tables.  In every state it reaches,
    the free tables are the last [20 - k] of [1..20] and the occupied ones
    the first [k], for some [k]; whatever follows, the pool of free tables
    is a final part of what it was: no operation of the service puts a table
    back. *)
Theorem service_only_takes_tables h ops :
  let s := queue_manager (svc_run (new_service h) ops) in
  (∃ k, available_tables s = drop k (table_range 20)
        ∧ dom (occupied_tables s)
          = (list_to_set (take k (table_range 20)) : gset Z))
  ∧ ∀ ops',
      available_tables (queue_manager (svc_run (new_service h) (ops ++ ops')))
      `suffix_of` available_tables s.
Proof.
  intros s. split.
  - subst s. induction ops as [|o ops IH] using rev_ind.
    + exists 0. split; [done|]. cbn [take list_to_set]. apply dom_empty_L.
    + rewrite svc_run_snoc. destruct IH as (k & Ha & Ho).
      destruct (svc_step_tables (svc_run (new_service h) ops) o)
        as [[Ha' Ho']|(t & rest & qid & Hpool & Ha' & Ho')].
      * exists k. by rewrite Ha', Ho'.
      * assert (table_range 20 !! k = Some t) as Hk.
        { rewrite <- (Nat.add_0_r k), <- lookup_drop, <- Ha, Hpool. done. }
        exists (S k). rewrite Ha', Ho'. split.
        -- rewrite (drop_S _ _ _ Hk) in Ha. rewrite Hpool in Ha. congruence.
        -- rewrite (take_S_r _ _ _ Hk), dom_insert_L, Ho, list_to_set_app_L.
           cbn [list_to_set]. set_solver.
  - intros ops'. rewrite svc_run_app. apply svc_run_pool_suffix.
Qed.

(** * Further properties: booking an offered slot *)

Lemma is_time_slot_available_snoc s a t d :
  apt_status a ≠ "cancelled"%string →
  _is_time_slot_available (with_appointments s (appointments s ++ [a])) t d
  = true
  ↔ _is_time_slot_available s t d = true
    ∧ ¬ (t < scheduled_time a + minutes (duration_minutes a)
         ∧ t + minutes d > scheduled_time a)%Z.
Proof.
  intros Ha. rewrite !is_time_slot_available_true.
  cbn [appointments with_appointments]. split.
  - intros [Hall Hh]. split; [split; [|done]|].
    + intros b Hb. apply Hall. apply elem_of_app. by left.
    + apply Hall; [|done]. apply elem_of_app. right. by apply list_elem_of_singleton.
  - intros [[Hall Hh] Hnew]. split; [|done].
    intros b [Hb| ->%list_elem_of_singleton]%elem_of_app; [by apply Hall|done].
Qed.

(** X26.  What [get_available_slots] offers can be booked.  For a duration
    and a number of participants the [Appointment] model accepts,
    [schedule_appointment] succeeds on every slot that [get_available_slots]
    returns for that duration; after the booking [get_available_slots]
    returns the slots it returned before except those whose interval meets
    the booked one. *)
Theorem offered_slot_can_be_booked svc date ty duration slots t name ty'
    count phone email requirements apt_id :
  get_available_slots svc date ty duration = Some slots →
  t ∈ slots →
  (15 ≤ duration ≤ 240)%Z → (1 ≤ count ≤ 8)%Z →
  let out := schedule_appointment svc name ty' t duration count phone email
               requirements apt_id in
  out.2 = Ok (mkAppointment apt_id ty' t duration name phone email count
                requirements "confirmed" false false)
  ∧ ∃ slots',
      get_available_slots out.1 date ty duration = Some slots'
      ∧ ∀ t', t' ∈ slots'
              ↔ t' ∈ slots
                ∧ ¬ (t' < t + minutes duration
                     ∧ t' + minutes duration > t)%Z.
Proof.
  intros Hslots Ht Hd Hc out.
  destruct (get_available_slots_spec svc date ty duration)
    as (sl & Hsl & Hspec).
  rewrite Hslots in Hsl. injection Hsl as <-.
  pose proof (proj1 (Hspec t) Ht) as (_ & _ & Hav).
  assert (out = (with_manager svc
                   (with_appointments (queue_manager svc)
                      (appointments (queue_manager svc)
                       ++ [mkAppointment apt_id ty' t duration name phone
                             email count requirements "confirmed" false
                             false])),
                 Ok (mkAppointment apt_id ty' t duration name phone email
                       count requirements "confirmed" false false)))
    as Hout.
  { subst out. unfold schedule_appointment. rewrite Hav. cbn [negb].
    unfold new_appointment. by rewrite decide_True. }
  rewrite Hout. cbn [fst snd]. split; [done|].
  match goal with |- context [get_available_slots ?svc' _ _ _] =>
    destruct (get_available_slots_spec svc' date ty duration)
      as (sl' & Hsl' & Hspec') end.
  exists sl'. split; [done|]. intros t'. rewrite Hspec', Hspec.
  cbn [queue_manager with_manager].
  rewrite is_time_slot_available_snoc by done.
  cbn [scheduled_time duration_minutes]. tauto.
Qed.

Lemma offered_slot_can_be_booked_witness :
  let svc := new_service no_entries in
  let out := schedule_appointment svc "Ann" COFFEE_MEETING (at_time 9 0) 60 2
               None None None "apt_1" in
  out.2 = Ok (mkAppointment "apt_1" COFFEE_MEETING (at_time 9 0) 60 "Ann"
                None None 2 None "confirmed" false false)
  ∧ ∃ slots',
      get_available_slots out.1 0 COFFEE_DATE 60 = Some slots'
      ∧ ∀ t', t' ∈ slots'
              ↔ t' ∈ default [] (get_available_slots svc 0 COFFEE_DATE 60)
                ∧ ¬ (t' < at_time 9 0 + minutes 60
                     ∧ t' + minutes 60 > at_time 9 0)%Z.
Proof.
  apply (offered_slot_can_be_booked (new_service no_entries) 0 COFFEE_DATE 60
           (default [] (get_available_slots (new_service no_entries) 0
                          COFFEE_DATE 60))
           (at_time 9 0) "Ann" COFFEE_MEETING 2 None None None "apt_1").
  - vm_compute. reflexivity.
  - apply (list_elem_of_lookup_2 _ 4). vm_compute. reflexivity.
  - lia.
  - lia.
Defined.

(** * Further properties: serving the front customer *)

Lemma svc_call_next_customer_front svc qt r rest now now_sent :
  current_queues (queue_manager svc) qt = r :: rest →
  let out := svc_call_next_customer svc qt now now_sent in
  out.2 = Some r
  ∧ current_queues (queue_manager out.1) = current_queues (queue_manager svc)
  ∧ static_eq (heap (queue_manager svc)) (heap (queue_manager out.1)).
Proof.
  intros Hq out.
  destruct (svc_step_frame svc (SvcCallNextCustomer qt now now_sent) I)
    as (_ & Hst & _).
  cbn [svc_step] in Hst. fold out in Hst. split_and!; [| |done].
  - subst out. unfold svc_call_next_customer.
    destruct (call_next_customer_front (queue_manager svc) qt now r rest Hq)
      as (Hret & _).
    by destruct (call_next_customer (queue_manager svc) qt now)
      as [s1 [r'|]]; cbn [fst snd] in *.
  - subst out. unfold svc_call_next_customer.
    pose proof (call_next_customer_frame (queue_manager svc) qt now)
      as (Hq1 & _).
    destruct (call_next_customer (queue_manager svc) qt now) as [s1 [r'|]];
      cbn [fst snd] in *; [|done].
    cbn [queue_manager with_manager heap with_heap current_queues].
    destruct (decide (qt = DINE_IN)); [|done].
    destruct (assign_table_frame s1 (queue_id (heap s1 r'))
                (seating_preference (heap s1 r'))) as [Hq2 _].
    by rewrite Hq2.
Qed.

(** X27.  Calling and then completing serves the customer at the front.  In
    a state the service reaches, when the front entry of a queue is the only
    queued entry with its [queue_id], [call_next_customer] followed by
    [complete_service] with that [queue_id] returns that entry both times,
    marks it completed and takes it out: its queue is left with the entries
    that were behind it, each one position further to the front, and the
    other queues are as they were. *)
Theorem call_then_complete_serves_the_front h ops qt r rest now now_sent
    now' :
  let svc := svc_run (new_service h) ops in
  let s := queue_manager svc in
  current_queues s qt = r :: rest →
  (∀ qt' x, x ∈ current_queues s qt' →
            queue_id (heap s x) = queue_id (heap s r) → x = r) →
  let first := svc_call_next_customer svc qt now now_sent in
  let second := svc_complete_service first.1 (queue_id (heap s r)) now' in
  let s' := queue_manager second.1 in
  first.2 = Some r ∧ second.2 = Some r
  ∧ current_queues s' qt = rest
  ∧ (∀ qt', qt' ≠ qt → current_queues s' qt' = current_queues s qt')
  ∧ status (heap s' r) = COMPLETED
  ∧ completed_at (heap s' r) = Some now'
  ∧ ∀ (i : nat) x, rest !! i = Some x →
                   current_position (heap s' x) = (Z.of_nat i + 1)%Z.
Proof.
  intros svc s Hq Huniq first second s'.
  destruct (svc_call_next_customer_front svc qt r rest now now_sent Hq)
    as (Hret & Hq1 & Hst1).
  fold first in Hret, Hq1, Hst1.
  destruct (svc_run_ok h ops) as [(Hnd & Hty & _) _]. fold svc s in Hnd, Hty.
  assert (locate (queue_manager first.1) (queue_id (heap s r)) queue_order
          = Some (qt, 0, r)) as Hloc.
  { apply (locate_unique _ _ _ _ [] r rest).
    - apply queue_order_complete.
    - intros qt' x Hne Hx Hid. rewrite Hq1 in Hx.
      rewrite (proj1 (Hst1 x)) in Hid. fold s in Hx.
      pose proof (Huniq qt' x Hx Hid) as ->.
      apply Hne. rewrite <- (Hty qt' r Hx). apply Hty. rewrite Hq. by left.
    - by rewrite Hq1.
    - by intros x ?%elem_of_nil.
    - apply Hst1. }
  assert (positions_ok s') as Hpos.
  { subst s' second first.
    pose proof (svc_run_ok h
                  (ops ++ [SvcCallNextCustomer qt now now_sent;
                           SvcCompleteService (queue_id (heap s r)) now']))
      as [(_ & _ & Hp) _].
    by rewrite svc_run_app in Hp. }
  assert (second
          = (with_manager first.1
               (with_heap
                  (_update_positions
                     (with_queue (queue_manager first.1) qt
                        (delete 0 (current_queues (queue_manager first.1) qt)))
                     qt)
                  (hset
                     (heap (_update_positions
                        (with_queue (queue_manager first.1) qt
                           (delete 0
                              (current_queues (queue_manager first.1) qt)))
                        qt)) r
                     (set_completed_at
                        (set_status
                           (heap (_update_positions
                              (with_queue (queue_manager first.1) qt
                                 (delete 0
                                    (current_queues (queue_manager first.1)
                                       qt)))
                              qt) r) COMPLETED)
                        (Some now')))),
             Some r)) as Hsecond.
  { subst second. unfold svc_complete_service.
    rewrite complete_service_unfold. unfold remove_from_queue.
    by rewrite remove_from_queues_locate, Hloc. }
  assert (current_queues s' qt = rest) as Hrest.
  { subst s'. rewrite Hsecond.
    cbn [fst queue_manager with_manager _update_positions with_heap with_queue
         current_queues].
    rewrite decide_True by done. rewrite Hq1. fold s. by rewrite Hq. }
  split_and!; [done | by rewrite Hsecond | done | | | |].
  - intros qt' Hne. subst s'. rewrite Hsecond.
    cbn [fst queue_manager with_manager _update_positions with_heap with_queue
         current_queues].
    rewrite decide_False by done. by rewrite Hq1.
  - subst s'. rewrite Hsecond.
    cbn [fst queue_manager with_manager heap with_heap]. by rewrite hset_eq.
  - subst s'. rewrite Hsecond.
    cbn [fst queue_manager with_manager heap with_heap]. by rewrite hset_eq.
  - intros i x Hx. apply (Hpos qt). by rewrite Hrest.
Qed.

Lemma call_then_complete_serves_the_front_witness :
  let svc := svc_run (new_service no_entries)
               [JoinQueue "Ann" WALK_IN 2 None None None None None "q_1" 0 0;
                JoinQueue "Bob" WALK_IN 1 None None None None None "q_2" 5 5]
  in
  let s := queue_manager svc in
  let first := svc_call_next_customer svc WALK_IN 7 7 in
  let second := svc_complete_service first.1 (queue_id (heap s 0)) 9 in
  let s' := queue_manager second.1 in
  first.2 = Some 0 ∧ second.2 = Some 0
  ∧ current_queues s' WALK_IN = [1]
  ∧ (∀ qt', qt' ≠ WALK_IN → current_queues s' qt' = current_queues s qt')
  ∧ status (heap s' 0) = COMPLETED
  ∧ completed_at (heap s' 0) = Some 9%Z
  ∧ ∀ (i : nat) x, [1] !! i = Some x →
                   current_position (heap s' x) = (Z.of_nat i + 1)%Z.
Proof.
  apply (call_then_complete_serves_the_front no_entries
           [JoinQueue "Ann" WALK_IN 2 None None None None None "q_1" 0 0;
            JoinQueue "Bob" WALK_IN 1 None None None None None "q_2" 5 5]
           WALK_IN 0 [1] 7 7 9).
  - vm_compute. reflexivity.
  - intros qt' x Hx Hid.
    destruct qt'; vm_compute in Hx; inversion Hx as [|? ? ? Hx']; subst;
      [reflexivity|].
    inversion Hx' as [|? ? ? Hx'']; subst; [|inversion Hx''].
    vm_compute in Hid. discriminate Hid.
Defined.

(** * Further properties: the cooldown of the notifications *)

Lemma is_ready_for_notification_recent e ty cooldown now n :
  n ∈ notifications_sent e → n_type n = ty →
  (now - minutes cooldown < n_sent_at n)%Z →
  is_ready_for_notification e ty cooldown now = false.
Proof.
  intros Hn Hty Ht. unfold is_ready_for_notification.
  apply bool_decide_eq_false_2. intros Hlen%nil_length_inv.
  assert (n ∈ filter (λ n, n_type n = ty
                           ∧ (now - minutes cooldown < n_sent_at n)%Z)
                (notifications_sent e)) as Hin
    by by apply list_elem_of_filter.
  rewrite Hlen in Hin. by apply elem_of_nil in Hin.
Qed.

(** The operations of the manager leave the record of the notifications of
    every entry as it is. *)
Lemma update_positions_from_log h i queue x :
  notifications_sent (update_positions_from h i queue x)
  = notifications_sent (h x).
Proof.
  by destruct (update_positions_from_fields h i queue x) as [v [-> | ->]].
Qed.

Lemma step_log s o x :
  notifications_sent (heap (step s o) x) = notifications_sent (heap s x).
Proof.
  destruct o; cbn [step].
  - destruct (add_to_queue_spec s r)
      as (l1 & l2 & _ & _ & _ & _ & _ & _ & H1 & _ & ->).
    rewrite update_positions_from_log, H1. unfold hset.
    by destruct (decide (x = r)) as [->|].
  - unfold remove_from_queue.
    pose proof (remove_from_queues_spec s qid queue_order) as H.
    destruct (remove_from_queues s qid queue_order) as [s' [r|]];
      cbn [fst].
    + destruct H as (qt & l1 & l2 & _ & _ & _ & _ & _ & _ & -> & _).
      apply update_positions_from_log.
    + by destruct H as [-> _].
  - unfold call_next_customer.
    destruct (current_queues s qt) as [|r rest]; [done|].
    cbn [fst heap with_heap]. unfold hset.
    by destruct (decide (x = r)) as [->|].
  - rewrite complete_service_unfold. unfold remove_from_queue.
    pose proof (remove_from_queues_spec s qid queue_order) as H.
    destruct (remove_from_queues s qid queue_order) as [s' [r|]];
      [|by destruct H as [-> _]].
    destruct H as (qt & l1 & l2 & _ & _ & _ & _ & _ & _ & Hh & _).
    assert (notifications_sent
              (hset (heap s') r
                 (set_completed_at (set_status (heap s' r) COMPLETED)
                    (Some now)) x)
            = notifications_sent (heap s x)) as Hx.
    { unfold hset. rewrite Hh.
      destruct (decide (x = r)) as [->|];
        cbn [notifications_sent set_completed_at set_status];
        apply update_positions_from_log. }
    cbn zeta. by destruct (table_to_free _ table).
  - unfold assign_table. destruct (available_tables s) as [|t rest]; [done|].
    cbn [fst heap with_heap with_tables current_queues].
    by destruct (record_tables_fields (current_queues s) qid t queue_order
                   (heap s) x) as [-> | [_ ->]].
Qed.

(** An operation of the service only adds to the record of the
    notifications of an entry it has constructed before. *)
Lemma svc_step_log svc o x :
  svc_ok svc → svc_plain svc → x ≠ next_oid svc →
  notifications_sent (heap (queue_manager svc) x)
  `prefix_of` notifications_sent (heap (queue_manager (svc_step svc o)) x).
Proof.
  intros Hok Hplain Hx.
  destruct o as [name qt0 size phone email special_requests session_id order
                 qid now now_sent|now|qt0 now now_sent|qid now|qid reason| |];
    cbn [svc_step].
  - (* join_queue *)
    destruct (decide (1 ≤ size ≤ 12)%Z) as [Hsize|Hsize];
      [|by rewrite join_queue_invalid].
    destruct (join_queue_spec svc name qt0 size phone email special_requests
                session_id order qid now now_sent Hplain (proj2 Hok) Hsize)
      as (_ & _ & _ & _ & Hfields & _).
    by destruct (Hfields x Hx) as [v [-> | ->]].
  - (* update_queue_progress *)
    unfold update_queue_progress.
    cbn [queue_manager with_manager heap with_heap].
    destruct Hok as [(Hnd & Hty & Hpos) _].
    destruct (progress_queues_effect now
                (current_queues (queue_manager svc)) queue_order
                queue_order_NoDup Hnd) with (h := heap (queue_manager svc))
                                            (x := x)
      as [_ [-> | [-> _]]]; [| done | done |].
    + intros qt qt' y Hy Hy'.
      by rewrite <- (Hty qt y Hy), <- (Hty qt' y Hy').
    + unfold add_notification.
      cbn [notifications_sent set_notifications_sent].
      by apply prefix_app_r.
  - (* call_next_customer *)
    unfold svc_call_next_customer.
    pose proof (step_log (queue_manager svc) (CallNextCustomer qt0 now) x)
      as H1. cbn [step] in H1.
    destruct (call_next_customer (queue_manager svc) qt0 now) as [s1 [r|]];
      cbn [fst snd queue_manager with_manager heap with_heap] in *;
      [|by rewrite H1].
    set (s2 := if decide (qt0 = DINE_IN) then _ else s1).
    assert (notifications_sent (heap s2 x) = notifications_sent (heap s1 x))
      as H2.
    { subst s2. destruct (decide (qt0 = DINE_IN)); [|done].
      apply (step_log s1 (AssignTable (queue_id (heap s1 r))
                            (seating_preference (heap s1 r)))). }
    unfold _send_notification, hset.
    destruct (decide (x = r)) as [->|]; [|by rewrite H2, H1].
    unfold add_notification.
    cbn [notifications_sent set_notifications_sent]. rewrite H2, H1.
    by apply prefix_app_r.
  - (* complete_service *)
    unfold svc_complete_service.
    pose proof (step_log (queue_manager svc) (CompleteService qid None now) x)
      as H1. cbn [step] in H1.
    destruct (complete_service (queue_manager svc) qid None now)
      as [s1 entry]; cbn [fst snd queue_manager with_manager] in *.
    by rewrite H1.
  - (* cancel_queue_entry *)
    unfold cancel_queue_entry.
    pose proof (step_log (queue_manager svc) (RemoveFromQueue qid) x) as H1.
    cbn [step] in H1.
    destruct (remove_from_queue (queue_manager svc) qid) as [s1 [r|]];
      cbn [fst snd queue_manager with_manager heap with_heap] in *;
      [|by rewrite H1].
    unfold hset. destruct (decide (x = r)) as [->|]; [|by rewrite H1].
    cbn [notifications_sent set_status]. by rewrite H1.
  - (* schedule_appointment *)
    unfold schedule_appointment.
    destruct (negb _); [done|].
    by destruct (new_appointment _ _ _ _ _ _ _ _ _ _).
  - (* process_appointment_reminders *)
    done.
Qed.

Lemma svc_step_next_oid svc o : next_oid svc ≤ next_oid (svc_step svc o).
Proof.
  destruct o as [name qt0 size phone email special_requests session_id order
                 qid now now_sent| | | | | |].
  - cbn [svc_step]. unfold join_queue.
    destruct (new_entry _ _ _ _ _ _ _) as [e0|f]; [|done].
    match goal with |- context [add_to_queue ?s0 ?r] =>
      destruct (add_to_queue s0 r) as [s1 position] end.
    cbn [fst next_oid]. lia.
  - by destruct (svc_step_frame svc (UpdateQueueProgress now) I)
      as (_ & _ & ->).
  - by destruct (svc_step_frame svc (SvcCallNextCustomer qt now now_sent) I)
      as (_ & _ & ->).
  - by destruct (svc_step_frame svc (SvcCompleteService qid now) I)
      as (_ & _ & ->).
  - by destruct (svc_step_frame svc (CancelQueueEntry qid reason) I)
      as (_ & _ & ->).
  - by destruct (svc_step_frame svc
                   (ScheduleAppointment name ty time duration count phone
                      email requirements apt_id) I) as (_ & _ & ->).
  - by destruct (svc_step_frame svc (ProcessAppointmentReminders now) I)
      as (_ & _ & ->).
Qed.

Lemma svc_run_log svc ops x :
  svc_ok svc → svc_plain svc → x < next_oid svc →
  svc_ok (svc_run svc ops) ∧ svc_plain (svc_run svc ops)
  ∧ x < next_oid (svc_run svc ops)
  ∧ notifications_sent (heap (queue_manager svc) x)
    `prefix_of` notifications_sent (heap (queue_manager (svc_run svc ops)) x).
Proof.
  intros Hok Hplain Hx. induction ops as [|o ops IH] using rev_ind;
    [by split_and!|].
  destruct IH as (Hok' & Hplain' & Hx' & Hlog). rewrite svc_run_snoc.
  split_and!.
  - by apply svc_step_ok.
  - by apply svc_step_plain.
  - pose proof (svc_step_next_oid (svc_run svc ops) o). lia.
  - etrans; [exact Hlog|]. apply svc_step_log; [done | done | lia].
Qed.

Lemma update_queue_progress_spec svc now x :
  svc_ok svc →
  progress_effect now (heap (queue_manager svc) x)
    (heap (queue_manager (update_queue_progress svc now)) x).
Proof.
  intros [(Hnd & Hty & Hpos) _]. unfold update_queue_progress.
  cbn [queue_manager with_manager heap with_heap].
  apply progress_queues_effect; try done.
  - apply queue_order_NoDup.
  - intros qt qt' y Hy Hy'. by rewrite <- (Hty qt y Hy), <- (Hty qt' y Hy').
Qed.

(** An entry that [update_queue_progress] changes is queued. *)
Lemma update_queue_progress_queued svc now x :
  svc_ok svc →
  heap (queue_manager (update_queue_progress svc now)) x
  ≠ heap (queue_manager svc) x →
  (∃ qt, x ∈ current_queues (queue_manager svc) qt)
  ∧ heap (queue_manager (update_queue_progress svc now)) x
    = add_notification (heap (queue_manager svc) x) "ready_soon" "multi" true
        now.
Proof.
  intros [(Hnd & Hty & Hpos) _] Hne. revert Hne.
  unfold update_queue_progress.
  cbn [queue_manager with_manager heap with_heap]. intros Hne.
  destruct (progress_queues_effect now
              (current_queues (queue_manager svc)) queue_order
              queue_order_NoDup Hnd) with (h := heap (queue_manager svc))
                                          (x := x)
    as [Hout Heff]; [| done |].
  { intros qt qt' y Hy Hy'. by rewrite <- (Hty qt y Hy), <- (Hty qt' y Hy'). }
  split.
  - destruct (decide (Exists (λ qt, x ∈ current_queues (queue_manager svc) qt)
                        queue_order)) as [Hex|Hex].
    + apply Exists_exists in Hex as (qt & _ & Hqt). by exists qt.
    + destruct Hne. apply Hout. intros qt Hqt Hin. apply Hex.
      apply Exists_exists. by exists qt.
  - by destruct Heff as [? | [? _]].
Qed.

(** X28.  A customer is told [ready_soon] at most once in ten minutes,
    whatever happens in between.  When [update_queue_progress] at [now]
    notifies an entry, then after any further operations of the service an
    [update_queue_progress] at a time [now'] with [now' - 10 minutes < now]
    leaves that entry as it is. *)
Theorem ready_soon_not_repeated_within_cooldown h ops now ops' now' x :
  let svc := svc_run (new_service h) ops in
  let svc1 := update_queue_progress svc now in
  let svc2 := svc_run svc1 ops' in
  let svc3 := update_queue_progress svc2 now' in
  heap (queue_manager svc1) x ≠ heap (queue_manager svc) x →
  (now' - minutes 10 < now)%Z →
  heap (queue_manager svc3) x = heap (queue_manager svc2) x.
Proof.
  intros svc svc1 svc2 svc3 Hne Hnow.
  pose proof (svc_run_ok h ops) as Hok. fold svc in Hok.
  destruct (update_queue_progress_queued svc now x Hok Hne)
    as [[qt Hqt] Hsent]. fold svc1 in Hsent.
  assert (svc1 = svc_run (new_service h) (ops ++ [UpdateQueueProgress now]))
    as Hsvc1 by by rewrite svc_run_snoc.
  assert (svc_ok svc1) as Hok1 by (rewrite Hsvc1; apply svc_run_ok).
  assert (svc_plain svc1) as Hplain1 by (rewrite Hsvc1; apply svc_run_plain).
  assert (x < next_oid svc1) as Hx.
  { destruct (svc_step_frame svc (UpdateQueueProgress now) I) as (_ & _ & Hn).
    cbn [svc_step] in Hn. fold svc1 in Hn. rewrite Hn.
    by apply (proj2 Hok qt). }
  destruct (svc_run_log svc1 ops' x Hok1 Hplain1 Hx)
    as (Hok2 & _ & _ & Hlog). fold svc2 in Hok2, Hlog.
  destruct (update_queue_progress_spec svc2 now' x Hok2)
    as [Heq | (_ & _ & _ & Hready)]; [exact Heq|]. exfalso.
  rewrite (is_ready_for_notification_recent _ _ _ _
             (mkNotification "ready_soon" "multi" now true)) in Hready;
    [done | | done | done].
  eapply elem_of_prefix; [|exact Hlog]. rewrite Hsent.
  unfold add_notification. cbn [notifications_sent set_notifications_sent].
  apply elem_of_app. right. by apply list_elem_of_singleton.
Qed.

Lemma ready_soon_not_repeated_within_cooldown_witness :
  let svc := svc_run (new_service no_entries)
               [JoinQueue "Ann" WALK_IN 2 None None None None None "q_1" 0 0]
  in
  let svc1 := update_queue_progress svc 100 in
  let svc2 := svc_run svc1
                [JoinQueue "Bob" WALK_IN 1 None None None None None "q_2"
                   150 150] in
  let svc3 := update_queue_progress svc2 200 in
  heap (queue_manager svc3) 0 = heap (queue_manager svc2) 0.
Proof.
  apply (ready_soon_not_repeated_within_cooldown no_entries
           [JoinQueue "Ann" WALK_IN 2 None None None None None "q_1" 0 0]
           100
           [JoinQueue "Bob" WALK_IN 1 None None None None None "q_2" 150 150]
           200 0).
  - intros H. apply (f_equal (λ e, length (notifications_sent e))) in H.
    vm_compute in H. discriminate H.
  - vm_compute. reflexivity.
Defined.

(** * Further properties: the status of the queued entries *)

Lemma update_positions_from_status h i queue x :
  status (update_positions_from h i queue x) = status (h x).
Proof.
  by destruct (update_positions_from_fields h i queue x) as [v [-> | ->]].
Qed.

(** The entry [remove_from_queue] returns is in no queue afterwards; the
    others stay where they were, with their status. *)
Lemma remove_from_queue_gone s qid s1 r :
  queues_ok s → remove_from_queue s qid = (s1, Some r) →
  (∀ qt, r ∉ current_queues s1 qt)
  ∧ (∀ qt x, x ∈ current_queues s1 qt → x ∈ current_queues s qt)
  ∧ ∀ x, status (heap s1 x) = status (heap s x).
Proof.
  intros (Hnd & Hty & _) Hrem. unfold remove_from_queue in Hrem.
  pose proof (remove_from_queues_spec s qid queue_order) as H.
  rewrite Hrem in H.
  destruct H as (qt & l1 & l2 & _ & Hq & _ & _ & Hq' & Hother & Hh & _).
  split_and!.
  - intros qt' Hin. destruct (decide (qt' = qt)) as [->|Hne].
    + rewrite Hq' in Hin. pose proof (Hnd qt) as Hnd'. rewrite Hq in Hnd'.
      apply NoDup_app in Hnd' as (_ & Hl1 & [Hl2 _]%NoDup_cons).
      apply elem_of_app in Hin as [Hin|Hin]; [|done].
      apply (Hl1 r Hin). by left.
    + rewrite (Hother qt' Hne) in Hin. apply Hne.
      rewrite <- (Hty qt' r Hin). apply Hty. rewrite Hq.
      apply elem_of_app. right. by left.
  - intros qt' x Hin. destruct (decide (qt' = qt)) as [->|Hne].
    + rewrite Hq' in Hin. rewrite Hq.
      apply elem_of_app in Hin as [Hin|Hin]; apply elem_of_app;
        [by left | right; by right].
    + by rewrite (Hother qt' Hne) in Hin.
  - intros x. rewrite Hh. apply update_positions_from_status.
Qed.

Lemma assign_table_status s qid preference x :
  status (heap (assign_table s qid preference).1 x) = status (heap s x).
Proof.
  unfold assign_table. destruct (available_tables s) as [|t rest]; [done|].
  cbn [fst heap with_heap with_tables current_queues].
  by destruct (record_tables_fields (current_queues s) qid t queue_order
                 (heap s) x) as [-> | [_ ->]].
Qed.

Lemma svc_step_status svc o :
  svc_ok svc → svc_plain svc →
  (∀ qt r, r ∈ current_queues (queue_manager svc) qt →
           status (heap (queue_manager svc) r) = WAITING
           ∨ status (heap (queue_manager svc) r) = CALLED) →
  ∀ qt r, r ∈ current_queues (queue_manager (svc_step svc o)) qt →
          status (heap (queue_manager (svc_step svc o)) r) = WAITING
          ∨ status (heap (queue_manager (svc_step svc o)) r) = CALLED.
Proof.
  intros Hok Hplain Hinv.
  destruct o as [name qt0 size phone email special_requests session_id order
                 qid now now_sent|now|qt0 now now_sent|qid now|qid reason| |];
    cbn [svc_step].
  - (* join_queue *)
    destruct (decide (1 ≤ size ≤ 12)%Z) as [Hsize|Hsize];
      [|by rewrite join_queue_invalid].
    destruct (join_queue_spec svc name qt0 size phone email special_requests
                session_id order qid now now_sent Hplain (proj2 Hok) Hsize)
      as (_ & _ & Hq & Hother & Hfields & _ & _ & _ & Hst & _).
    intros qt r Hin.
    destruct (decide (r = next_oid svc)) as [->|Hne]; [by left|].
    assert (r ∈ current_queues (queue_manager svc) qt) as Hin'.
    { destruct (decide (qt = qt0)) as [->|Hqt].
      - rewrite Hq in Hin. apply elem_of_app in Hin as [Hin|Hin]; [done|].
        by apply list_elem_of_singleton in Hin.
      - by rewrite (Hother qt Hqt) in Hin. }
    destruct (Hfields r Hne) as [v [-> | ->]]; by apply (Hinv qt).
  - (* update_queue_progress *)
    intros qt r Hin.
    assert (r ∈ current_queues (queue_manager svc) qt) as Hin' by done.
    destruct (update_queue_progress_spec svc now r Hok) as [-> | [-> _]];
      by apply (Hinv qt).
  - (* call_next_customer *)
    unfold svc_call_next_customer.
    destruct (current_queues (queue_manager svc) qt0) as [|r0 rest] eqn:Hq0.
    { rewrite (call_next_customer_empty _ _ _ Hq0).
      by cbn [fst queue_manager with_manager]. }
    destruct (call_next_customer_front (queue_manager svc) qt0 now r0 rest Hq0)
      as (Hret & Hr0 & Hx & Hq1 & _).
    destruct (call_next_customer (queue_manager svc) qt0 now)
      as [s1 [r'|]]; cbn [fst snd] in *; [|done].
    injection Hret as ->.
    set (s2 := if decide (qt0 = DINE_IN) then _ else s1).
    assert (current_queues s2 = current_queues s1
            ∧ ∀ x, status (heap s2 x) = status (heap s1 x)) as [Hq2 Hst2].
    { subst s2. destruct (decide (qt0 = DINE_IN)); [|done]. split.
      - apply assign_table_frame.
      - intros x. apply assign_table_status. }
    cbn [queue_manager with_manager heap with_heap current_queues].
    rewrite Hq2, Hq1. intros qt r Hin. unfold _send_notification, hset.
    destruct (decide (r = r0)) as [->|Hne].
    + right. unfold add_notification.
      cbn [status set_notifications_sent]. by rewrite Hst2, Hr0.
    + rewrite Hst2, (Hx r Hne). by apply (Hinv qt).
  - (* complete_service *)
    unfold svc_complete_service. rewrite complete_service_unfold.
    destruct (remove_from_queue (queue_manager svc) qid) as [s1 [r0|]]
      eqn:Hrem.
    + destruct (remove_from_queue_gone _ _ _ _ (proj1 Hok) Hrem)
        as (Hgone & Hsub & Hst).
      cbn [table_to_free fst queue_manager with_manager heap with_heap
           current_queues].
      intros qt r Hin. rewrite hset_ne by (intros ->; by apply (Hgone qt)).
      rewrite Hst. apply (Hinv qt). by apply Hsub.
    + assert ((remove_from_queue (queue_manager svc) qid).2 = None) as Hn
        by by rewrite Hrem.
      apply remove_from_queue_unknown_iff_aux in Hn as [Hs _].
      rewrite Hrem in Hs. cbn [fst] in Hs. subst s1.
      by cbn [fst queue_manager with_manager].
  - (* cancel_queue_entry *)
    unfold cancel_queue_entry.
    destruct (remove_from_queue (queue_manager svc) qid) as [s1 [r0|]]
      eqn:Hrem.
    + destruct (remove_from_queue_gone _ _ _ _ (proj1 Hok) Hrem)
        as (Hgone & Hsub & Hst).
      cbn [fst queue_manager with_manager heap with_heap current_queues].
      intros qt r Hin. rewrite hset_ne by (intros ->; by apply (Hgone qt)).
      rewrite Hst. apply (Hinv qt). by apply Hsub.
    + assert ((remove_from_queue (queue_manager svc) qid).2 = None) as Hn
        by by rewrite Hrem.
      apply remove_from_queue_unknown_iff_aux in Hn as [Hs _].
      rewrite Hrem in Hs. cbn [fst] in Hs. subst s1.
      by cbn [fst queue_manager with_manager].
  - (* schedule_appointment *)
    unfold schedule_appointment.
    destruct (negb _); [done|].
    by destruct (new_appointment _ _ _ _ _ _ _ _ _ _).
  - (* process_appointment_reminders *)
    done.
Qed.

Lemma count_status_waiting_called h (queue : list oid) :
  Forall (λ r, status (h r) = WAITING ∨ status (h r) = CALLED) queue →
  count_status h PREPARING queue = 0%Z
  ∧ (count_status h WAITING queue + count_status h CALLED queue
     = Z.of_nat (length queue))%Z.
Proof.
  unfold count_status. induction 1 as [|r rest Hr _ [IH1 IH2]]; [done|].
  rewrite !filter_cons.
  destruct Hr as [Hr|Hr]; rewrite Hr; repeat case_decide; try done;
    cbn [length]; lia.
Qed.

(** X29.  In every state the service reaches, a queued entry is waiting or
    called: [join_queue] enqueues waiting entries, [call_next_customer]
    marks the front one called, and an entry that is completed or cancelled
    has left its queue.  So the summary of each queue reports no preparing
    entry, and its waiting and called counts add up to its total. *)
Theorem queued_entries_wait_or_are_called h ops :
  let s := queue_manager (svc_run (new_service h) ops) in
  (∀ qt r, r ∈ current_queues s qt →
           status (heap s r) = WAITING ∨ status (heap s r) = CALLED)
  ∧ ∀ qt,
      let q := (get_queue_summary s).1 qt in
      preparing q = 0%Z ∧ (waiting q + called q = total q)%Z.
Proof.
  intros s.
  assert (∀ qt r, r ∈ current_queues s qt →
                  status (heap s r) = WAITING ∨ status (heap s r) = CALLED)
    as Hinv.
  { subst s. induction ops as [|o ops IH] using rev_ind.
    - by intros qt r ?%elem_of_nil.
    - rewrite svc_run_snoc.
      apply svc_step_status; [apply svc_run_ok | apply svc_run_plain | done]. }
  split; [done|]. intros qt q. subst q.
  cbn [fst get_queue_summary queue_summary total waiting called preparing].
  apply count_status_waiting_called, Forall_forall. intros r Hr.
  by apply (Hinv qt).
Qed.

(** * Further properties: the life of a QR-code session *)

Lemma qr_run_snoc q ops o : qr_run q (ops ++ [o]) = qr_step (qr_run q ops) o.
Proof. unfold qr_run. by rewrite foldl_snoc. Qed.

Lemma scanned_before_count expiry ops o :
  Z.of_nat (length (filter (λ o, scanned_before expiry o = true) (ops ++ [o])))
  = (Z.of_nat (length (filter (λ o, scanned_before expiry o = true) ops))
     + (if scanned_before expiry o then 1 else 0))%Z.
Proof.
  rewrite filter_app, length_app, Nat2Z.inj_add, filter_cons, filter_nil.
  destruct (decide _) as [Hd|Hd]; cbn beta in Hd;
    destruct (scanned_before expiry o); cbn [length]; done.
Qed.

Lemma qr_scanned_earlier (ops : list QROp) o sid (expiry : datetime) :
  (∃ now now', QRScan sid now now' ∈ ops ∧ (now < expiry)%Z) →
  ∃ now now', QRScan sid now now' ∈ ops ++ [o] ∧ (now < expiry)%Z.
Proof.
  intros (n & n' & Hn & Hlt). exists n, n'. split; [|done].
  apply elem_of_app. by left.
Qed.

(** X30.  Through any sequence of [scan], [occupy_table] and [free_table]
    calls a session keeps its table and its expiry, 8 hours after its
    creation; [scans] counts exactly the scans made before the expiry, also
    across [free_table]; [active_sessions] has no duplicates and holds only
    identifiers that were scanned before the expiry; the table is marked
    occupied exactly when it has a customer name, and then it has a party
    size; and right after [free_table] no session is active and the table
    is not occupied. *)
Theorem qr_session_lifecycle id table t0 t0' ops :
  let q := qr_run (QRCodeSession.new id table t0 t0') ops in
  QRCodeSession.expires_at q = (t0' + hours 8)%Z
  ∧ QRCodeSession.table_number q = table
  ∧ QRCodeSession.scans q
    = Z.of_nat (length (filter (λ o, scanned_before (t0' + hours 8) o = true)
                          ops))
  ∧ NoDup (QRCodeSession.active_sessions q)
  ∧ (∀ sid, sid ∈ QRCodeSession.active_sessions q →
            ∃ now now', QRScan sid now now' ∈ ops ∧ (now < t0' + hours 8)%Z)
  ∧ (QRCodeSession.occupied q = true
     ↔ is_Some (QRCodeSession.customer_name q))
  ∧ (is_Some (QRCodeSession.customer_name q)
     ↔ is_Some (QRCodeSession.party_size q))
  ∧ ∀ ops', ops = ops' ++ [QRFreeTable] →
            QRCodeSession.active_sessions q = []
            ∧ QRCodeSession.occupied q = false.
Proof.
  induction ops as [|o ops IH] using rev_ind.
  - cbn zeta. unfold qr_run. cbn [foldl QRCodeSession.new
      QRCodeSession.expires_at QRCodeSession.table_number QRCodeSession.scans
      QRCodeSession.active_sessions QRCodeSession.occupied
      QRCodeSession.customer_name QRCodeSession.party_size].
    split_and!; try done; [constructor | by intros sid ?%elem_of_nil].
  - cbn zeta in *. rewrite qr_run_snoc, scanned_before_count.
    destruct IH as (Hexp & Htab & Hscans & Hnd & Hact & Hocc & Hname & _).
    set (q := qr_run _ ops) in *.
    assert (∀ ops', ops ++ [o] = ops' ++ [QRFreeTable] → o = QRFreeTable)
      as Hlast by (intros ops' Heq; by apply app_inj_tail in Heq as [_ ?]).
    destruct o as [sid now now'|name size|]; cbn [qr_step scanned_before].
    + (* scan *)
      unfold QRCodeSession.scan, QRCodeSession.is_valid. rewrite Hexp.
      destruct (bool_decide (now < t0' + hours 8)%Z) eqn:Hvalid;
        cbn [negb fst QRCodeSession.expires_at QRCodeSession.table_number
             QRCodeSession.scans QRCodeSession.active_sessions
             QRCodeSession.occupied QRCodeSession.customer_name
             QRCodeSession.party_size].
      * apply bool_decide_eq_true in Hvalid.
        split_and!; [done | done | lia | | | done | done |].
        -- destruct (decide (sid ∈ QRCodeSession.active_sessions q));
             [done|].
           apply NoDup_app. split_and!; [done | | apply NoDup_singleton].
           by intros x Hx ->%list_elem_of_singleton.
        -- intros sid' Hin.
           assert (sid' ∈ QRCodeSession.active_sessions q ∨ sid' = sid)
             as [Hold| ->].
           { destruct (decide (sid ∈ QRCodeSession.active_sessions q));
               [by left|].
             apply elem_of_app in Hin as [?| ?%list_elem_of_singleton];
               [by left | by right]. }
           ++ by apply qr_scanned_earlier, Hact.
           ++ exists now, now'. split; [|done]. apply elem_of_app. right.
              by apply list_elem_of_singleton.
        -- intros ops' Heq. by apply Hlast in Heq.
      * split_and!; [done | done | lia | done | | done | done |].
        -- intros sid' Hin. by apply qr_scanned_earlier, Hact.
        -- intros ops' Heq. by apply Hlast in Heq.
    + (* occupy_table *)
      unfold QRCodeSession.occupy_table.
      cbn [QRCodeSession.expires_at QRCodeSession.table_number
           QRCodeSession.scans QRCodeSession.active_sessions
           QRCodeSession.occupied QRCodeSession.customer_name
           QRCodeSession.party_size].
      split_and!; [done | done | lia | done | | done | done |].
      * intros sid' Hin. by apply qr_scanned_earlier, Hact.
      * intros ops' Heq. by apply Hlast in Heq.
    + (* free_table *)
      unfold QRCodeSession.free_table.
      cbn [QRCodeSession.expires_at QRCodeSession.table_number
           QRCodeSession.scans QRCodeSession.active_sessions
           QRCodeSession.occupied QRCodeSession.customer_name
           QRCodeSession.party_size].
      split_and!; [done | done | lia | constructor | | | done | done].
      * by intros sid' ?%elem_of_nil.
      * split; [done | by intros [? ?]].
Qed.
